(** * The generalised (r,b)-abacus of a partition: core, quotient and charges

    A shallow embedding of [abacus_extension.py] (class [PartitionExt] and the
    constructors [from_G_core_and_quotient], [from_G_charges_and_quotient],
    [from_G_abacus]) together with the properties of the design document.

    Python integers are [Z]; [%] and [//] are [Z.modulo] and [Z.div] (both
    round towards minus infinity, as Python does) and raise on a zero divisor.
    Lists, tuples and deques are [list]; a partition is the list of its parts.
    Exceptions are values of [res]; the one unbounded loop, the merge loop of
    [from_G_abacus], takes a fuel argument and answers [None] when the fuel is
    used up before the loop condition becomes false. *)

From stdpp Require Import base tactics option list numbers.
From Stdlib Require Import ZArith Znumtheory Lia.

Local Open Scope Z_scope.

(** ** Exceptions *)

(** The [assert] statements of the module, named after the error taxonomy of
    the design document; [CountMismatch] stands for the internal consistency
    assertions on symbol counts. *)
Inductive assertion :=
| NotACore | ShapeMismatch | ChargeImbalance | InvalidAction | CountMismatch.

Inductive error :=
| AssertionError (a : assertion)
| ZeroDivisionError
| IndexError
| ValueError
| AttributeError.

Inductive res (A : Type) :=
| OK (a : A)
| Err (e : error).
Arguments OK {A} a.
Arguments Err {A} e.

#[global] Instance res_ret : MRet res := fun A a => OK a.
#[global] Instance res_bind : MBind res :=
  fun A B f x => match x with OK a => f a | Err e => Err e end.

Definition py_assert (c : bool) (a : assertion) : res unit :=
  if c then OK tt else Err (AssertionError a).

(** ** Python primitives *)

Definition py_mod (a r : Z) : res Z :=
  if r =? 0 then Err ZeroDivisionError else OK (a mod r).

(** [range(a, b)] *)
Definition py_range (a b : Z) : list Z := seqZ a (b - a).

(** [sum(l)] *)
Definition sumZ (l : list Z) : Z := foldr Z.add 0 l.

(** [max(l)], which raises [ValueError] on an empty sequence *)
Definition py_max (l : list Z) : res Z :=
  match l with
  | [] => Err ValueError
  | x :: l' => OK (foldr Z.max x l')
  end.

(** The position denoted by the subscript [l[k]]: a negative [k] counts from
    the end, anything outside [-len(l) .. len(l)-1] raises [IndexError]. *)
Definition py_index {A} (l : list A) (k : Z) : res nat :=
  let n := Z.of_nat (length l) in
  if (0 <=? k) && (k <? n) then OK (Z.to_nat k)
  else if (- n <=? k) && (k <? 0) then OK (Z.to_nat (n + k))
  else Err IndexError.

(** [any(f(x) for x in l)], which stops at the first true value *)
Fixpoint py_any {A} (f : A -> res bool) (l : list A) : res bool :=
  match l with
  | [] => OK false
  | x :: l' => t ← f x; if (t : bool) then OK true else py_any f l'
  end.

Fixpoint res_map {A B} (f : A -> res B) (l : list A) : res (list B) :=
  match l with
  | [] => OK []
  | x :: l' => y ← f x; ys ← res_map f l'; OK (y :: ys)
  end.

(** Removal of the trailing zeros of a list. *)
Fixpoint strip_zeros (l : list Z) : list Z :=
  match l with
  | [] => []
  | x :: l' =>
      match strip_zeros l' with
      | [] => if x =? 0 then [] else [x]
      | t => x :: t
      end
  end.

(** ** The partition codec supplied by SageMath *)

Module Sage.

(** Modelled from the spec: the PartitionCodec capability, which the source
    imports from [sage.combinat.partition] and which is not part of the
    repository.  [Partition(mu)] accepts a weakly decreasing list of
    non-negative integers and drops its trailing zeros; any other list raises
    [ValueError]. *)
Fixpoint weakly_decreasing (mu : list Z) : bool :=
  match mu with
  | [] => true
  | x :: mu' =>
      (0 <=? x) && match mu' with [] => true | y :: _ => (y <=? x) end
      && weakly_decreasing mu'
  end.

Definition Partition (mu : list Z) : res (list Z) :=
  if weakly_decreasing mu then OK (strip_zeros mu) else Err ValueError.

(** Modelled from the spec: [Partition.zero_one_sequence], the finite
    boundary-path sequence in SageMath's convention (1 is an east step, 0 a
    north step): position [i] runs over [range(-len(p)+1, p[0]+1)] and carries
    a 0 exactly when [i] is one of the values [p[k] - k]. *)
Definition zero_one_sequence (p : list Z) : list Z :=
  let tmp := imap (fun k x => x - Z.of_nat k) p in
  (fun i => if bool_decide (i ∈ tmp) then 0 else 1)
    <$> py_range (- Z.of_nat (length p) + 1) (hd 0 p + 1).

(** Modelled from the spec: [Partition(zero_one=seq)], the decoder.  With
    [tmp] the positions of the zeros of [seq], the parts are [tmp[i] - i]
    for [i] running downwards; leading zeros and trailing ones of [seq] only
    contribute zero parts, which the constructor drops. *)
Definition from_zero_one (seq : list Z) : res (list Z) :=
  let tmp := filter (fun i => seq !! i = Some 0) (List.seq 0 (length seq)) in
  Partition ((fun i => Z.of_nat (tmp !!! i) - Z.of_nat i)
               <$> reverse (List.seq 0 (length tmp))).

(** Modelled from the spec: [Partition.conjugate]. The list starts with
    [p[-1]] copies of [len(p)], followed, for [i] from [len(p)-1] down to 1,
    by [p[i-1] - p[i]] copies of [i]. *)
Definition conjugate (p : list Z) : list Z :=
  match p with
  | [] => []
  | _ =>
      let l := length p in
      replicate (Z.to_nat (List.last p 0)) (Z.of_nat l)
      ++ mjoin ((fun i => replicate (Z.to_nat (p !!! (i - 1)%nat - p !!! i))
                                 (Z.of_nat i))
                  <$> reverse (seq 1 (l - 1)))
  end.

(** Modelled from the spec: [Partition.upper_hook_lengths(alpha)], the tableau
    whose cell [(i,j)] holds [conj[j] - (i+1) + alpha*(p[i] - j)]. *)
Definition upper_hook_lengths (p : list Z) (alpha : Z) : list (list Z) :=
  let conj := conjugate p in
  imap (fun i pi =>
          (fun j => conj !!! Z.to_nat j - (Z.of_nat i + 1) + alpha * (pi - j))
            <$> py_range 0 pi) p.

(** The loop of [to_dyck_word] pops the last part [c], emits [c] zeros and a
    one, and subtracts [c] from the parts that remain; [off] is the amount
    subtracted so far and [rp] the remaining parts, last part first. *)
Fixpoint dyck_body (off : Z) (rp : list Z) : list Z :=
  match rp with
  | [] => []
  | x :: rest => replicate (Z.to_nat (x - off)) 0 ++ 1 :: dyck_body x rest
  end.

(** Modelled from the spec: [Partition.to_dyck_word(n)], the word with [n]
    ones and [n] zeros whose path cuts out the partition; without [n] the
    least possible [n], which is the maximum of [i + p[i] + 1].  The result
    is taken as the plain list of its letters. *)
Definition to_dyck_word (p : list Z) (n : option Z) : list Z :=
  match p with
  | [] =>
      match n with
      | None => []
      | Some n => replicate (Z.to_nat n) 1 ++ replicate (Z.to_nat n) 0
      end
  | p0 :: _ =>
      let n := match n with
               | Some n => n
               | None => foldr Z.max 0 (imap (fun i l => Z.of_nat i + l + 1) p)
               end in
      replicate (Z.to_nat (n - Z.of_nat (length p))) 1
      ++ dyck_body 0 (reverse p)
      ++ replicate (Z.to_nat (n - p0)) 0
  end.

(** [gcd] of [sage.arith], non-negative. *)
Definition gcd (a b : Z) : Z := Z.gcd a b.

(** Modelled from the spec: the values that stand for a quotient.  [Tuple]
    is a sequence of component partitions: a PartitionTuple of SageMath with
    two or more components, or a Python list or tuple of partitions handed
    in by a caller; its [len] is the number of components and iterating over
    it gives the components.  [Single] is one plain Partition: its [len] is
    its number of parts and iterating over it gives its parts, which are
    integers. *)
Inductive partition_tuple :=
| Tuple (components : list (list Z))
| Single (mu : list Z).

(** Modelled from the spec: [PartitionTuple(p_list)] of SageMath, which is
    not part of the repository.  For two or more components it is the tuple
    of the design document; a list of one component is returned as that
    component, a plain Partition, and the empty list as the empty
    Partition. *)
Definition PartitionTuple (p_list : list (list Z)) : partition_tuple :=
  match p_list with
  | [] => Single []
  | [mu] => Single mu
  | _ => Tuple p_list
  end.

(** [len(quotient)] *)
Definition len (quotient : partition_tuple) : nat :=
  match quotient with
  | Tuple components => length components
  | Single mu => length mu
  end.

End Sage.

(** ** [abacus_extension.py] *)

Inductive abacus_method := fast | slow.

(** [invert_zero_one] *)
Definition invert_zero_one (sequence : list Z) : list Z :=
  (fun code => 1 - code) <$> sequence.

(** [PartitionExt.G_colour_tableau]: row [i] holds [(i + b*j) % r] for [j] in
    [range(p[i])]. *)
Definition G_colour_tableau (p : list Z) (r b : Z) : res (list (list Z)) :=
  res_map (fun '(i, pi) =>
             res_map (fun j => py_mod (Z.of_nat i + b * j) r) (py_range 0 pi))
          (imap (fun (i : nat) (pi : Z) => (i, pi)) p).

(** The inner loop of [G_colour_count]: [counts[cell_colour] += 1] for the
    cells of one row. *)
Fixpoint count_row (counts : list Z) (row : list Z) : res (list Z) :=
  match row with
  | [] => OK counts
  | cell_colour :: row' =>
      i ← py_index counts cell_colour;
      count_row (alter (fun x => x + 1) i counts) row'
  end.

(** The outer loop of [G_colour_count], over the rows of the tableau. *)
Fixpoint count_rows (counts : list Z) (tableau : list (list Z)) : res (list Z) :=
  match tableau with
  | [] => OK counts
  | row :: tableau' => counts ← count_row counts row; count_rows counts tableau'
  end.

(** [PartitionExt.G_colour_count]; [self.size()] is the sum of the parts. *)
Definition G_colour_count (p : list Z) (r b : Z) : res (list Z) :=
  let counts := replicate (Z.to_nat r) 0 in
  tableau ← G_colour_tableau p r b;
  counts ← count_rows counts tableau;
  _ ← py_assert (sumZ counts =? sumZ p) CountMismatch;
  OK counts.

(** [PartitionExt.is_G_core] *)
Definition is_G_core (p : list Z) (r b : Z) : res bool :=
  t ← py_any (py_any (fun cell => m ← py_mod cell r; OK (m =? 0)))
             (Sage.upper_hook_lengths p (- b));
  OK (negb t).

(** The wire update at the end of the loop body of [G_abacus]. *)
Definition G_abacus_next (r b wire_num code : Z) : res Z :=
  py_mod (wire_num + b * (1 - code) - code) r.

(** The [for code in seq] loop of [G_abacus]. *)
Fixpoint G_abacus_loop (r b : Z) (seq : list Z) (abacus : list (list Z))
         (wire_num : Z) : res (list (list Z)) :=
  match seq with
  | [] => OK abacus
  | code :: seq' =>
      i ← py_index abacus wire_num;
      let abacus := alter (fun wire => wire ++ [code]) i abacus in
      wire_num ← G_abacus_next r b wire_num code;
      G_abacus_loop r b seq' abacus wire_num
  end.

(** The starting wire of [G_abacus]. *)
Definition G_abacus_start (r : Z) (seq : list Z) : res Z :=
  py_mod (sumZ seq) r.

(** [PartitionExt.G_abacus] *)
Definition G_abacus (p : list Z) (r b : Z) (method : abacus_method)
  : res (list (list Z)) :=
  let seq := match method with
             | fast => invert_zero_one (Sage.zero_one_sequence p)
             | slow => Sage.to_dyck_word p None
             end in
  let abacus := replicate (Z.to_nat r) [] in
  wire_num ← G_abacus_start r seq;
  G_abacus_loop r b seq abacus wire_num.

(** The list [p_list] of [G_quotient], as it stands before the last line
    casts it to a [PartitionTuple]. *)
Definition G_quotient_list (p : list Z) (r b : Z) (label_swap_xy : bool)
  : res (list (list Z)) :=
  abacus ← G_abacus p r b fast;
  p_list ← res_map (fun wire => Sage.from_zero_one (invert_zero_one wire)) abacus;
  if label_swap_xy then
    match p_list with
    | [] => Err IndexError
    | p0 :: rest => OK (p0 :: reverse rest)
    end
  else OK p_list.

(** [PartitionExt.G_quotient] *)
Definition G_quotient (p : list Z) (r b : Z) (label_swap_xy : bool)
  : res Sage.partition_tuple :=
  p_list ← G_quotient_list p r b label_swap_xy;
  OK (Sage.PartitionTuple p_list).

(** The reference distribution of [G_charges]. *)
Definition expected_north_steps (total_north_steps r : Z) : list Z :=
  (fun i => total_north_steps / r
            + (if (0 <? i) && (i <=? total_north_steps mod r) then 1 else 0))
    <$> py_range 0 r.

(** [PartitionExt.G_charges]; the divisions are reached only after
    [G_abacus] has returned, hence with [r] different from zero. *)
Definition G_charges (p : list Z) (r b : Z) : res (list Z) :=
  abacus ← G_abacus p r b fast;
  let total_north_steps := sumZ (sumZ <$> abacus) in
  let expected := expected_north_steps total_north_steps r in
  _ ← py_assert (sumZ expected =? total_north_steps) CountMismatch;
  let charges := imap (fun i wire => expected !!! i - sumZ wire) abacus in
  _ ← py_assert (sumZ charges =? 0) CountMismatch;
  OK charges.

(** The wire update at the end of the loop body of [from_G_abacus]. *)
Definition from_G_abacus_next (r b wire_num code : Z) : res Z :=
  py_mod (wire_num + b * (1 - code) - code) r.

(** The starting wire of [from_G_abacus]. *)
Definition from_G_abacus_start (r : Z) (abacus : list (list Z)) : res Z :=
  py_mod (sumZ (sumZ <$> abacus)) r.

(** The [while north_steps_read < total_north_steps] loop of [from_G_abacus].
    [None] means that the fuel ran out before the condition became false. *)
Fixpoint from_G_abacus_loop (fuel : nat) (r b total_north_steps : Z)
         (abacus : list (list Z)) (path_seq : list Z)
         (north_steps_read wire_num : Z) : option (res (list Z)) :=
  if north_steps_read <? total_north_steps then
    match fuel with
    | O => None
    | S fuel =>
        match py_index abacus wire_num with
        | Err e => Some (Err e)
        | OK i =>
            let '(code, abacus) :=
              match abacus !!! i with
              | code :: _ => (code, alter (drop 1) i abacus)
              | [] => (0, abacus)
              end in
            match from_G_abacus_next r b wire_num code with
            | Err e => Some (Err e)
            | OK wire_num' =>
                from_G_abacus_loop fuel r b total_north_steps abacus
                  (path_seq ++ [code]) (north_steps_read + code) wire_num'
            end
        end
    end
  else Some (OK path_seq).

(** [from_G_abacus] *)
Definition from_G_abacus (fuel : nat) (abacus : list (list Z)) (r : option Z)
           (b : Z) : option (res (list Z)) :=
  let r := match r with None => Z.of_nat (length abacus) | Some r => r end in
  if negb (Sage.gcd r b =? 1) then Some (Err (AssertionError InvalidAction))
  else
    let total_north_steps := sumZ (sumZ <$> abacus) in
    match from_G_abacus_start r abacus with
    | Err e => Some (Err e)
    | OK wire_num =>
        match from_G_abacus_loop fuel r b total_north_steps abacus [] 0
                wire_num with
        | None => None
        | Some (Err e) => Some (Err e)
        | Some (OK path_seq) =>
            Some (Sage.from_zero_one (invert_zero_one path_seq))
        end
    end.

(** The part of [from_G_charges_and_quotient] that builds the abacus, up to
    and including the two output validation checks; it returns [n], [c_max]
    and the abacus. *)
Definition charges_and_quotient_abacus (charges : list Z)
           (quotient : option Sage.partition_tuple) (r : Z)
  : res (Z * Z * list (list Z)) :=
  _ ← py_assert (Z.of_nat (length charges) =? r) ShapeMismatch;
  _ ← py_assert (sumZ charges =? 0) ChargeImbalance;
  '(n, abacus) ←
    match quotient with
    | None => OK (0, replicate (Z.to_nat r) [])
    | Some quotient =>
        _ ← py_assert (Z.of_nat (Sage.len quotient) =? r) ShapeMismatch;
        match quotient with
        | Sage.Tuple quotient =>
            m ← py_max ((fun mu => Z.of_nat (length (Sage.to_dyck_word mu None)))
                          <$> quotient);
            let n := m / 2 in
            OK (n, (fun mu => Sage.to_dyck_word mu (Some n)) <$> quotient)
        | Sage.Single [] =>
            (* [max] of an empty sequence *)
            Err ValueError
        | Sage.Single (_ :: _) =>
            (* the items of a Partition are integers, which have no
               [to_dyck_word] *)
            Err AttributeError
        end
    end;
  c_max ← py_max charges;
  let abacus :=
    imap (fun i wire =>
            replicate (Z.to_nat (c_max - charges !!! i)) 1 ++ wire) abacus in
  _ ← py_assert (sumZ ((fun wire => Z.of_nat (length wire)) <$> abacus)
                 =? r * (2 * n + c_max)) CountMismatch;
  _ ← py_assert (sumZ (sumZ <$> abacus) =? r * (n + c_max)) CountMismatch;
  OK (n, c_max, abacus).

(** [from_G_charges_and_quotient] *)
Definition from_G_charges_and_quotient (fuel : nat) (charges : list Z)
           (quotient : option Sage.partition_tuple) (r b : Z)
  : option (res (list Z)) :=
  match charges_and_quotient_abacus charges quotient r with
  | Err e => Some (Err e)
  | OK (_, _, abacus) => from_G_abacus fuel abacus (Some r) b
  end.

(** [PartitionExt.G_core] *)
Definition G_core (fuel : nat) (p : list Z) (r b : Z) : option (res (list Z)) :=
  match G_charges p r b with
  | Err e => Some (Err e)
  | OK charges => from_G_charges_and_quotient fuel charges None r b
  end.

(** [from_G_core_and_quotient] *)
Definition from_G_core_and_quotient (fuel : nat) (core : list Z)
           (quotient : option Sage.partition_tuple) (r b : Z)
  : option (res (list Z)) :=
  match is_G_core core r b with
  | Err e => Some (Err e)
  | OK false => Some (Err (AssertionError NotACore))
  | OK true =>
      match quotient with
      | None => Some (OK core)
      | Some _ =>
          match G_charges core r b with
          | Err e => Some (Err e)
          | OK charges => from_G_charges_and_quotient fuel charges quotient r b
          end
      end
  end.

(** ** The statements of the design document *)

(** A partition: positive parts, weakly decreasing. *)
Inductive partition : list Z -> Prop :=
| partition_nil : partition []
| partition_cons a p : 0 < a -> hd 0 p <= a -> partition p -> partition (a :: p).

(** A binary symbol, and a binary sequence. *)
Definition bit (c : Z) : Prop := c = 0 \/ c = 1.
Definition bits (s : list Z) : Prop := Forall bit s.

(** The stepping rule as the design document words it: [b] is added after an
    east step (0), one is subtracted after a north step (1). *)
Definition stepping_rule (r b wire code : Z) : Z :=
  if code =? 0 then (wire + b) mod r else (wire - 1) mod r.

(** The distribution of a boundary path onto the wires as the design
    document words it (AbacusBuilder, steps 2 to 4): each symbol is appended
    to the current wire, then the wire index moves by the stepping rule; the
    walk starts on wire [total_ones mod r], with [total_ones] the count of
    ones of the sequence. *)
Fixpoint spec_walk (r b : Z) (wires : list (list Z)) (wire : Z) (seq : list Z)
  : list (list Z) :=
  match seq with
  | [] => wires
  | code :: seq' =>
      spec_walk r b (alter (fun w => w ++ [code]) (Z.to_nat wire) wires)
                (stepping_rule r b wire code) seq'
  end.

Definition spec_abacus (r b : Z) (seq : list Z) : list (list Z) :=
  let total_ones := Z.of_nat (length (filter (fun c => c = 1) seq)) in
  spec_walk r b (replicate (Z.to_nat r) []) (total_ones mod r) seq.

(** The merge of the wires as the design document words it (Reconstructor,
    [from_abacus], steps 2 and 3): the front symbol of the current wire is
    popped, a 0 standing in when the wire is exhausted, and put out; it is
    counted if it is a 1; the wire index moves by the same stepping rule;
    the walk starts on wire [total_ones mod r] and stops once the count of
    ones put out equals [total_ones].  [None] means that the fuel ran out
    first. *)
Fixpoint spec_merge_walk (fuel : nat) (r b total_ones : Z) (wires : list (list Z))
         (wire emitted : Z) : option (list Z) :=
  if emitted =? total_ones then Some []
  else
    match fuel with
    | O => None
    | S fuel =>
        let code := hd 0 (wires !!! Z.to_nat wire) in
        cons code <$> spec_merge_walk fuel r b total_ones
                        (alter (drop 1) (Z.to_nat wire) wires)
                        (stepping_rule r b wire code) (emitted + code)
    end.

Definition spec_merge (fuel : nat) (r b : Z) (wires : list (list Z))
  : option (list Z) :=
  let total_ones :=
    sumZ ((fun wire => Z.of_nat (length (filter (fun c => c = 1) wire))) <$> wires) in
  spec_merge_walk fuel r b total_ones wires (total_ones mod r) 0.

(** The reference distribution as the design document words it. *)
Definition expected_spec (total_ones r i : Z) : Z :=
  if i =? 0 then total_ones / r
  else if i <=? total_ones mod r then total_ones / r + 1
  else total_ones / r.

(** Arm and leg of the cell in row [i] and column [j]. *)
Definition arm (p : list Z) (i : nat) (j : Z) : Z := p !!! i - j - 1.
Definition leg (p : list Z) (i : nat) (j : Z) : Z :=
  Sage.conjugate p !!! Z.to_nat j - Z.of_nat i - 1.
Definition cell (p : list Z) (i : nat) (j : Z) : Prop :=
  (i < length p)%nat /\ 0 <= j < p !!! i.

(** The number of symbols held by an abacus. *)
Definition symbols (abacus : list (list Z)) : nat :=
  foldr Nat.add O (length <$> abacus).

(** The total number of ones of an abacus. *)
Definition total_ones (abacus : list (list Z)) : Z := sumZ (sumZ <$> abacus).

(** ** Closed forms used in the proofs, for [0 < r] *)

(** The wire reached from [w] after reading [code]. *)
Definition step (r b w code : Z) : Z := (w + b * (1 - code) - code) mod r.

(** The wire reached from [w] after reading all of [s]. *)
Fixpoint adv (r b w : Z) (s : list Z) : Z :=
  match s with
  | [] => w
  | c :: s' => adv r b (step r b w c) s'
  end.

(** The wires of the sequence [s] read from wire [w], over [n] wires. *)
Fixpoint distribute (r b : Z) (n : nat) (w : Z) (s : list Z) : list (list Z) :=
  match s with
  | [] => replicate n []
  | c :: s' => alter (cons c) (Z.to_nat w) (distribute r b n (step r b w c) s')
  end.

(** The sequence merged from the wires [W], starting on wire [w], until [rem]
    ones have been read. *)
Fixpoint collect (fuel : nat) (r b : Z) (W : list (list Z)) (w rem : Z)
  : option (list Z) :=
  if 0 <? rem then
    match fuel with
    | O => None
    | S fuel =>
        let c := hd 0 (W !!! Z.to_nat w) in
        cons c <$> collect fuel r b (alter (drop 1) (Z.to_nat w) W)
                       (step r b w c) (rem - c)
    end
  else Some [].

(** The boundary path of a partition, north = 1 and east = 0, from the last
    row to the first. *)
Fixpoint path_of (p : list Z) : list Z :=
  match p with
  | [] => []
  | a :: p' => path_of p' ++ replicate (Z.to_nat (a - hd 0 p')) 0 ++ [1]
  end.

(** For each north step of [s], the number of east steps before it, counted
    from [z]. *)
Fixpoint parts_from (z : Z) (s : list Z) : list Z :=
  match s with
  | [] => []
  | c :: s' => if c =? 1 then z :: parts_from z s' else parts_from (z + 1) s'
  end.

(** The partition read off a path. *)
Definition decode (s : list Z) : list Z :=
  strip_zeros (reverse (parts_from 0 s)).

(** For each east step of [s], the number of north steps after it. *)
Fixpoint norths_after_easts (s : list Z) : list Z :=
  match s with
  | [] => []
  | c :: s' =>
      if c =? 0 then sumZ s' :: norths_after_easts s' else norths_after_easts s'
  end.

(** The positions, counted from [k], of the north steps of [s]. *)
Fixpoint north_positions (k : nat) (s : list Z) : list nat :=
  match s with
  | [] => []
  | c :: s' =>
      if c =? 1 then k :: north_positions (S k) s' else north_positions (S k) s'
  end.

(** The number of east steps of a binary sequence. *)
Definition easts (s : list Z) : Z := Z.of_nat (length s) - sumZ s.

(** Entry [i] of the reference distribution for [T] ones. *)
Definition expected_at (r T i : Z) : Z :=
  T / r + (if (0 <? i) && (i <=? T mod r) then 1 else 0).

(** Two abaci that agree up to the trailing zeros of their wires. *)
Definition wires_eqv (W W' : list (list Z)) : Prop :=
  forall i : nat, strip_zeros (W !!! i) = strip_zeros (W' !!! i).

(** A wire on which no east step comes before a north step. *)
Definition sorted_wire (u : list Z) : Prop :=
  forall u1 u2 u3, u <> u1 ++ 0 :: u2 ++ 1 :: u3.

(** A pair of an east step and a later north step of [s] on the same wire. *)
Definition same_wire_pair (r b : Z) (s : list Z) : Prop :=
  exists s1 s2 s3,
    s = s1 ++ 0 :: s2 ++ 1 :: s3 /\ (b * (1 + easts s2) - sumZ s2) mod r = 0.

(** The number of ones of a sequence. *)
Definition count_ones (s : list Z) : Z :=
  Z.of_nat (length (filter (fun c => c = 1) s)).

(** The charges of an abacus, wire by wire. *)
Definition charges_of (r : Z) (W : list (list Z)) : list Z :=
  imap (fun i wire => expected_at r (total_ones W) (Z.of_nat i) - sumZ wire) W.

(** The wires [D] with [c_max - charges[i]] ones in front of wire [i]. *)
Definition prepend_charges (c_max : Z) (charges : list Z) (D : list (list Z))
  : list (list Z) :=
  imap (fun i wire => replicate (Z.to_nat (c_max - charges !!! i)) 1 ++ wire) D.

(** The number of cells of colour [k] in a colour tableau. *)
Definition colour_cells (k : Z) (tableau : list (list Z)) : Z :=
  Z.of_nat (length (filter (fun c => c = k) (mjoin tableau))).

(** * Proofs *)

(** ** Sums, bits and trailing zeros *)

#[global] Arguments sumZ : simpl never.

Lemma sumZ_nil : sumZ [] = 0.
Proof. reflexivity. Qed.

Lemma sumZ_app l1 l2 : sumZ (l1 ++ l2) = sumZ l1 + sumZ l2.
Proof. unfold sumZ. induction l1 as [|x l1 IH]; simpl; lia. Qed.

Lemma sumZ_cons x l : sumZ (x :: l) = x + sumZ l.
Proof. reflexivity. Qed.

Lemma sumZ_replicate n x : sumZ (replicate n x) = Z.of_nat n * x.
Proof. induction n as [|n IH]; [reflexivity|]. simpl replicate. rewrite sumZ_cons, IH. lia. Qed.

Lemma bits_sum_nonneg s : bits s -> 0 <= sumZ s.
Proof.
  induction 1 as [|c s [-> | ->] _ IH]; [reflexivity| |]; rewrite sumZ_cons; lia.
Qed.

Lemma bits_sum_le_length s : bits s -> sumZ s <= Z.of_nat (length s).
Proof.
  induction 1 as [|c s [-> | ->] _ IH]; [reflexivity| |];
    rewrite sumZ_cons; simpl length; lia.
Qed.

Lemma bits_app s1 s2 : bits (s1 ++ s2) <-> bits s1 /\ bits s2.
Proof. apply Forall_app. Qed.

Lemma bits_replicate n c : bit c -> bits (replicate n c).
Proof. intros Hc. apply Forall_replicate. exact Hc. Qed.

Lemma bits_invert s : bits s -> bits (invert_zero_one s).
Proof.
  unfold bits, invert_zero_one. intros H. apply Forall_fmap.
  eapply Forall_impl; [|exact H]. intros c [-> | ->]; [right | left]; reflexivity.
Qed.

Lemma easts_nonneg s : bits s -> 0 <= easts s.
Proof. intros H. unfold easts. pose proof (bits_sum_le_length s H). lia. Qed.

Lemma easts_app s1 s2 : easts (s1 ++ s2) = easts s1 + easts s2.
Proof. unfold easts. rewrite length_app, sumZ_app. lia. Qed.

Lemma easts_cons c s : easts (c :: s) = (1 - c) + easts s.
Proof. unfold easts. rewrite sumZ_cons. simpl length. lia. Qed.

Lemma strip_zeros_cons c l :
  (c = 0 /\ strip_zeros l = [] /\ strip_zeros (c :: l) = [])
  \/ strip_zeros (c :: l) = c :: strip_zeros l.
Proof.
  simpl. destruct (strip_zeros l) as [|y t]; [|right; reflexivity].
  destruct (Z.eqb_spec c 0) as [-> | Hc]; [left | right]; auto.
Qed.

Lemma strip_zeros_cons_congr c l l' :
  strip_zeros l = strip_zeros l' -> strip_zeros (c :: l) = strip_zeros (c :: l').
Proof. simpl. intros ->. reflexivity. Qed.

Lemma strip_zeros_hd l : hd 0 (strip_zeros l) = hd 0 l.
Proof.
  destruct l as [|c l]; [reflexivity|].
  destruct (strip_zeros_cons c l) as [(-> & _ & ->) | ->]; reflexivity.
Qed.

Lemma strip_zeros_drop1 l : strip_zeros (drop 1 l) = drop 1 (strip_zeros l).
Proof.
  destruct l as [|c l]; [reflexivity|].
  destruct (strip_zeros_cons c l) as [(-> & H & ->) | ->]; simpl drop; rewrite ?drop_0; auto.
Qed.

Lemma strip_zeros_nonzero_cons c l : c <> 0 -> strip_zeros (c :: l) = c :: strip_zeros l.
Proof. intros Hc. destruct (strip_zeros_cons c l) as [(-> & _) | H]; [lia | exact H]. Qed.

Lemma strip_zeros_app_zeros l n : strip_zeros (l ++ replicate n 0) = strip_zeros l.
Proof.
  induction l as [|c l IH].
  - induction n as [|n IHn]; [reflexivity|]. simpl in *. rewrite IHn. reflexivity.
  - rewrite <- app_comm_cons. apply strip_zeros_cons_congr, IH.
Qed.

Lemma strip_zeros_app_nonnil l1 l2 :
  strip_zeros l2 <> [] -> strip_zeros (l1 ++ l2) = l1 ++ strip_zeros l2.
Proof.
  intros H. induction l1 as [|c l1 IH]; [reflexivity|].
  rewrite <- !app_comm_cons.
  destruct (strip_zeros_cons c (l1 ++ l2)) as [(_ & E & _) | ->].
  - rewrite IH in E. destruct l1; simpl in E; congruence.
  - rewrite IH. reflexivity.
Qed.

Lemma strip_zeros_last l : List.last l 1 <> 0 -> strip_zeros l = l.
Proof.
  induction l as [|c l IH]; [reflexivity|]. intros H.
  destruct l as [|d l].
  - simpl in *. destruct (Z.eqb_spec c 0); [contradiction | reflexivity].
  - change (List.last (c :: d :: l) 1) with (List.last (d :: l) 1) in H.
    specialize (IH H).
    destruct (strip_zeros_cons c (d :: l)) as [(_ & E & _) | ->]; congruence.
Qed.

Lemma strip_zeros_sum l : sumZ (strip_zeros l) = sumZ l.
Proof.
  induction l as [|c l IH]; [reflexivity|].
  destruct (strip_zeros_cons c l) as [(-> & E & ->) | ->].
  - rewrite sumZ_cons, <- IH, E. reflexivity.
  - rewrite !sumZ_cons, IH. reflexivity.
Qed.

Lemma strip_zeros_split l : exists n, l = strip_zeros l ++ replicate n 0.
Proof.
  induction l as [|c l [n IH]]; [exists O; reflexivity|].
  destruct (strip_zeros_cons c l) as [(-> & E & ->) | ->].
  - exists (S n). rewrite E in IH. simpl in *. congruence.
  - exists n. simpl. congruence.
Qed.

Lemma strip_zeros_nil_zeros l : strip_zeros l = [] -> l = replicate (length l) 0.
Proof.
  intros H. destruct (strip_zeros_split l) as [n E]. rewrite H in E. simpl in E.
  rewrite E at 1. rewrite E, length_replicate. reflexivity.
Qed.

(** ** Lookups in an abacus *)

Lemma lookup_total_alter_drop1 (W : list (list Z)) (i j : nat) :
  alter (drop 1) i W !!! j = if decide (i = j) then drop 1 (W !!! j) else W !!! j.
Proof.
  rewrite list_lookup_total_alter. destruct (decide (i = j)) as [-> | Hne].
  - destruct (decide (j < length W)%nat) as [Hlt | Hge].
    + rewrite decide_True by auto. reflexivity.
    + rewrite decide_False by tauto.
      rewrite list_lookup_total_alt, lookup_ge_None_2 by lia. reflexivity.
  - rewrite decide_False by tauto. reflexivity.
Qed.

Lemma lookup_total_alter_cons (W : list (list Z)) (c : Z) (i j : nat) :
  (i < length W)%nat ->
  alter (cons c) i W !!! j = if decide (i = j) then c :: W !!! j else W !!! j.
Proof.
  intros Hi. rewrite list_lookup_total_alter. destruct (decide (i = j)) as [-> | Hne].
  - rewrite decide_True by auto. reflexivity.
  - rewrite decide_False by tauto. reflexivity.
Qed.

Lemma lookup_total_replicate_nil (n i : nat) : (replicate n [] : list (list Z)) !!! i = [].
Proof.
  rewrite list_lookup_total_alt. destruct (replicate n [] !! i) eqn:E; [|reflexivity].
  apply lookup_replicate in E as [-> _]. reflexivity.
Qed.

Lemma total_ones_alter_drop1 (W : list (list Z)) (i : nat) :
  total_ones (alter (drop 1) i W) = total_ones W - hd 0 (W !!! i).
Proof.
  unfold total_ones. revert i. induction W as [|u W IH]; intros i.
  - destruct i; reflexivity.
  - destruct i as [|i]; csimpl.
    + destruct u as [|c u]; csimpl; rewrite ?drop_0, ?sumZ_cons, ?sumZ_nil; lia.
    + rewrite !sumZ_cons. rewrite IH. change ((u :: W) !!! S i) with (W !!! i). lia.
Qed.

Lemma symbols_alter_drop1 (W : list (list Z)) (i : nat) :
  W !!! i <> [] -> symbols W = S (symbols (alter (drop 1) i W)).
Proof.
  unfold symbols. revert i. induction W as [|u W IH]; intros i H.
  - destruct i; contradiction.
  - destruct i as [|i]; csimpl in *.
    + destruct u as [|c u]; [contradiction|]. csimpl. rewrite drop_0. reflexivity.
    + change ((u :: W) !!! S i) with (W !!! i) in H. rewrite (IH i H). lia.
Qed.

Lemma total_ones_pos_nonempty (W : list (list Z)) :
  0 < total_ones W -> exists i, (i < length W)%nat /\ W !!! i <> [].
Proof.
  unfold total_ones. induction W as [|u W IH]; intros H.
  - csimpl in H. rewrite sumZ_nil in H. lia.
  - destruct u as [|c u].
    + csimpl in H. rewrite sumZ_cons, sumZ_nil in H.
      destruct IH as (i & Hi & Hne); [lia|]. exists (S i). split; [simpl; lia | exact Hne].
    + exists O. split; [simpl; lia | discriminate].
Qed.

Section Walk.
Context (r b : Z) (Hr : 0 < r).

Lemma step_range w c : 0 <= step r b w c < r.
Proof. unfold step. apply Z.mod_pos_bound. exact Hr. Qed.

Lemma step_zero w : step r b w 0 = (w + b) mod r.
Proof. unfold step. f_equal. lia. Qed.

Lemma step_one w : step r b w 1 = (w - 1) mod r.
Proof. unfold step. f_equal. lia. Qed.

Lemma step_one_succ T : step r b ((T + 1) mod r) 1 = T mod r.
Proof.
  rewrite step_one. rewrite Zminus_mod_idemp_l. f_equal. lia.
Qed.

Lemma adv_range w s : 0 <= w < r -> 0 <= adv r b w s < r.
Proof.
  revert w. induction s as [|c s IH]; intros w Hw; simpl; [exact Hw|].
  apply IH, step_range.
Qed.

Lemma adv_app w s1 s2 : adv r b w (s1 ++ s2) = adv r b (adv r b w s1) s2.
Proof. revert w. induction s1 as [|c s1 IH]; intros w; simpl; [reflexivity | apply IH]. Qed.

Lemma adv_closed w s :
  bits s -> adv r b w s mod r = (w + b * easts s - sumZ s) mod r.
Proof.
  intros Hs. revert w. induction Hs as [|c s Hc Hs IH]; intros w; simpl.
  - unfold easts. simpl. rewrite sumZ_nil. f_equal. lia.
  - rewrite IH. rewrite easts_cons, sumZ_cons. unfold step.
    rewrite <- Zminus_mod_idemp_l, <- Zplus_mod_idemp_l, Zmod_mod, Zplus_mod_idemp_l,
      Zminus_mod_idemp_l.
    f_equal. lia.
Qed.

Lemma distribute_length n w s : length (distribute r b n w s) = n.
Proof.
  revert w. induction s as [|c s IH]; intros w; simpl.
  - apply length_replicate.
  - rewrite length_alter. apply IH.
Qed.

Lemma distribute_lookup_cons n w c s (i : nat) :
  0 <= w -> (Z.to_nat w < n)%nat ->
  distribute r b n w (c :: s) !!! i =
    if decide (Z.to_nat w = i) then c :: distribute r b n (step r b w c) s !!! i
    else distribute r b n (step r b w c) s !!! i.
Proof.
  intros Hw Hn. simpl. apply lookup_total_alter_cons. rewrite distribute_length. exact Hn.
Qed.

Lemma distribute_total_ones n w s :
  (n = Z.to_nat r) -> 0 <= w < r -> total_ones (distribute r b n w s) = sumZ s.
Proof.
  intros Hn. revert w. induction s as [|c s IH]; intros w Hw.
  - simpl. unfold total_ones. clear. induction n; csimpl; [reflexivity|].
    rewrite sumZ_cons, sumZ_nil in *. lia.
  - simpl. rewrite sumZ_cons, <- (IH (step r b w c)) by apply step_range.
    generalize (distribute r b n (step r b w c) s) (distribute_length n (step r b w c) s).
    intros W HW. assert (Hlt : (Z.to_nat w < length W)%nat) by lia.
    clear -Hlt. revert Hlt. generalize (Z.to_nat w). intros i. revert i.
    unfold total_ones.
    induction W as [|u W IHW]; intros i Hi; [simpl in Hi; lia|].
    destruct i as [|i]; csimpl.
    + rewrite !sumZ_cons. lia.
    + rewrite !sumZ_cons. simpl in Hi. rewrite (IHW i) by lia. lia.
Qed.

End Walk.

Section Collect.
Context (r b : Z) (Hr : 0 < r).

Lemma collect_done fuel W w rem : rem <= 0 -> collect fuel r b W w rem = Some [].
Proof.
  intros H. destruct fuel; simpl; destruct (Z.ltb_spec 0 rem); try lia; reflexivity.
Qed.

Lemma collect_step fuel W w rem :
  0 < rem ->
  collect (S fuel) r b W w rem =
    cons (hd 0 (W !!! Z.to_nat w))
      <$> collect fuel r b (alter (drop 1) (Z.to_nat w) W)
            (step r b w (hd 0 (W !!! Z.to_nat w))) (rem - hd 0 (W !!! Z.to_nat w)).
Proof. intros H. simpl. destruct (Z.ltb_spec 0 rem); [reflexivity | lia]. Qed.

Lemma collect_mono fuel fuel' W w rem x :
  collect fuel r b W w rem = Some x -> (fuel <= fuel')%nat ->
  collect fuel' r b W w rem = Some x.
Proof.
  revert fuel' W w rem x. induction fuel as [|fuel IH]; intros fuel' W w rem x H Hle.
  - destruct (Z.ltb_spec 0 rem) as [Hpos | Hneg].
    + simpl in H. destruct (Z.ltb_spec 0 rem); [discriminate | lia].
    + rewrite collect_done in H by lia. rewrite collect_done by lia. exact H.
  - destruct (Z.ltb_spec 0 rem) as [Hpos | Hneg].
    + destruct fuel' as [|fuel']; [lia|].
      rewrite collect_step in H |- * by exact Hpos.
      destruct (collect fuel r b _ _ _) as [y|] eqn:E; [|discriminate].
      rewrite (IH fuel' _ _ _ y E) by lia. exact H.
    + rewrite collect_done in H by lia. rewrite collect_done by lia. exact H.
Qed.

(** Trailing zeros on the wires do not matter to the merge. *)
Lemma collect_eqv fuel W W' w rem :
  wires_eqv W W' -> collect fuel r b W w rem = collect fuel r b W' w rem.
Proof.
  revert W W' w rem. induction fuel as [|fuel IH]; intros W W' w rem HW; [reflexivity|].
  destruct (Z.ltb_spec 0 rem) as [Hpos | Hneg]; [|rewrite !collect_done by lia; reflexivity].
  rewrite !collect_step by exact Hpos.
  assert (Hhd : hd 0 (W !!! Z.to_nat w) = hd 0 (W' !!! Z.to_nat w)).
  { rewrite <- (strip_zeros_hd (W !!! _)), <- (strip_zeros_hd (W' !!! _)), HW. reflexivity. }
  rewrite Hhd. f_equal. apply IH. intros i.
  rewrite !lookup_total_alter_drop1. destruct (decide (Z.to_nat w = i)); [|apply HW].
  rewrite !strip_zeros_drop1, HW. reflexivity.
Qed.

Lemma wires_eqv_strip W : wires_eqv (strip_zeros <$> W) W.
Proof.
  intros i. rewrite !list_lookup_total_alt, list_lookup_fmap.
  destruct (W !! i) as [u|]; simpl; [|reflexivity].
  destruct (strip_zeros_split u) as [n E]. rewrite E at 2.
  rewrite strip_zeros_app_zeros. reflexivity.
Qed.

Lemma wires_eqv_sym W W' : wires_eqv W W' -> wires_eqv W' W.
Proof. intros H i. symmetry. apply H. Qed.

Lemma wires_eqv_trans W W' W'' : wires_eqv W W' -> wires_eqv W' W'' -> wires_eqv W W''.
Proof. intros H H' i. rewrite H. apply H'. Qed.

(** Merging the wires of a sequence that ends with a one gives the
    sequence back. *)
Lemma collect_distribute n w s :
  n = Z.to_nat r -> 0 <= w < r -> bits s -> List.last s 1 = 1 ->
  collect (length s) r b (distribute r b n w s) w (sumZ s) = Some s.
Proof.
  intros Hn. revert w. induction s as [|c s IH]; intros w Hw Hs Hlast.
  - reflexivity.
  - apply Forall_cons_1 in Hs as [Hc Hs].
    assert (Hlast' : List.last s 1 = 1).
    { destruct s as [|d s]; [reflexivity | exact Hlast]. }
    assert (Hpos : 0 < sumZ (c :: s)).
    { rewrite sumZ_cons. destruct s as [|d s].
      - simpl in Hlast. subst c. rewrite sumZ_nil. lia.
      - pose proof (bits_sum_nonneg _ Hs).
        destruct Hc as [-> | ->]; [|lia].
        specialize (IH (step r b w 0) (step_range r b Hr _ _) Hs Hlast').
        destruct (Z.ltb_spec 0 (sumZ (d :: s))) as [|Hz]; [lia|].
        simpl in IH. destruct (Z.ltb_spec 0 (sumZ (d :: s))); [lia | discriminate]. }
    change (length (c :: s)) with (S (length s)). rewrite collect_step by exact Hpos.
    assert (Hlt : (Z.to_nat w < length (distribute r b n (step r b w c) s))%nat).
    { rewrite distribute_length. lia. }
    simpl distribute. rewrite lookup_total_alter_cons, decide_True by auto. simpl hd.
    rewrite list_alter_alter_eq, list_alter_id by (intros; apply drop_0).
    rewrite sumZ_cons. replace (c + sumZ s - c) with (sumZ s) by lia.
    rewrite IH by auto using step_range. reflexivity.
Qed.

(** What the merge puts out: a binary sequence with [rem] ones that is
    empty or ends with a one. *)
Lemma collect_output fuel W w rem x :
  Forall bits W -> collect fuel r b W w rem = Some x ->
  bits x /\ List.last x 1 = 1 /\ (0 <= rem -> sumZ x = rem).
Proof.
  revert W w rem x. induction fuel as [|fuel IH]; intros W w rem x HW H.
  - simpl in H. destruct (Z.ltb_spec 0 rem); [discriminate|].
    injection H as <-. repeat split; [constructor | rewrite sumZ_nil; lia].
  - destruct (Z.ltb_spec 0 rem) as [Hpos | Hneg].
    + rewrite collect_step in H by exact Hpos.
      set (c := hd 0 (W !!! Z.to_nat w)) in *.
      destruct (collect fuel r b _ _ _) as [y|] eqn:E; [|discriminate].
      injection H as <-.
      assert (Hc : bit c).
      { unfold c. rewrite list_lookup_total_alt.
        destruct (W !! Z.to_nat w) as [u|] eqn:Eu; simpl; [|left; reflexivity].
        destruct u as [|d u]; [left; reflexivity|]. simpl.
        assert (Hu : bits (d :: u)) by (eapply (Forall_lookup_1 bits W); eauto).
        apply Forall_cons_1 in Hu. tauto. }
      apply IH in E as (Hy & Hlast & Hsum).
      * split; [constructor; assumption|]. split.
        -- destruct y as [|d y]; [|exact Hlast].
           simpl. destruct (Z.ltb_spec 0 (rem - c)) as [Hlt | Hge].
           ++ rewrite sumZ_nil in Hsum. lia.
           ++ destruct Hc as [Hc | Hc]; lia.
        -- intros _. rewrite sumZ_cons.
           destruct (Z.ltb_spec (rem - c) 0) as [Hlt | Hge];
             [destruct Hc as [Hc | Hc]; lia | rewrite Hsum by lia; lia].
      * apply Forall_alter; [exact HW|]. intros u _ Hu.
        destruct u; simpl; rewrite ?drop_0; [constructor|]. apply Forall_cons_1 in Hu. tauto.
    + rewrite collect_done in H by lia. injection H as <-.
      repeat split; [constructor | rewrite sumZ_nil; lia].
Qed.

End Collect.

Lemma bits_sum_zero_strip u : bits u -> sumZ u <= 0 -> strip_zeros u = [].
Proof.
  induction 1 as [|c u Hc Hu IH]; [reflexivity|]. rewrite sumZ_cons. intros H.
  pose proof (bits_sum_nonneg u Hu). simpl. rewrite IH by (destruct Hc; lia).
  destruct Hc as [-> | ->]; [reflexivity | lia].
Qed.

Lemma total_ones_zero_strip (W : list (list Z)) (i : nat) :
  Forall bits W -> total_ones W <= 0 -> strip_zeros (W !!! i) = [].
Proof.
  unfold total_ones. intros HW. revert i. induction HW as [|u W Hu HW IH]; intros i H.
  - destruct i; reflexivity.
  - rewrite fmap_cons, sumZ_cons in H.
    pose proof (bits_sum_nonneg u Hu).
    assert (0 <= sumZ (sumZ <$> W)).
    { clear -HW. induction HW as [|v W Hv _ IHW]; csimpl; [rewrite sumZ_nil; lia|].
      rewrite sumZ_cons. pose proof (bits_sum_nonneg v Hv). lia. }
    destruct i as [|i].
    + change ((u :: W) !!! O) with u. apply bits_sum_zero_strip; [exact Hu | lia].
    + change ((u :: W) !!! S i) with (W !!! i). apply IH. lia.
Qed.

Lemma alter_drop1_empty (W : list (list Z)) (i : nat) :
  W !!! i = [] -> alter (drop 1) i W = W.
Proof.
  intros H. apply list_eq. intros j. rewrite list_lookup_alter.
  destruct (decide (i = j)) as [<- | ]; [|reflexivity].
  rewrite list_lookup_total_alt in H.
  destruct (W !! i) as [u|]; simpl in *; [subst u|]; reflexivity.
Qed.

Lemma cons_hd_drop1 (u : list Z) : strip_zeros (hd 0 u :: drop 1 u) = strip_zeros u.
Proof. destruct u as [|c u]; [reflexivity|]. simpl hd. simpl drop. rewrite drop_0. reflexivity. Qed.

Section Inverse.
Context (r b : Z) (Hr : 0 < r).

(** Distributing what the merge has read gives the wires back, up to their
    trailing zeros. *)
Lemma distribute_collect fuel n W w x :
  n = Z.to_nat r -> length W = n -> Forall bits W -> 0 <= w < r ->
  collect fuel r b W w (total_ones W) = Some x ->
  wires_eqv (distribute r b n w x) W.
Proof.
  intros Hn. revert W w x. induction fuel as [|fuel IH]; intros W w x HlW HW Hw H.
  - simpl in H. destruct (Z.ltb_spec 0 (total_ones W)); [discriminate|].
    injection H as <-. intros i. simpl. rewrite lookup_total_replicate_nil.
    rewrite total_ones_zero_strip by auto. reflexivity.
  - destruct (Z.ltb_spec 0 (total_ones W)) as [Hpos | Hneg].
    + rewrite collect_step in H by exact Hpos.
      rewrite <- total_ones_alter_drop1 in H.
      set (c := hd 0 (W !!! Z.to_nat w)) in *.
      destruct (collect fuel r b _ _ _) as [y|] eqn:E; [|discriminate].
      injection H as <-.
      apply IH in E.
      * intros i. rewrite distribute_lookup_cons by (try lia; exact Hr).
        specialize (E i). rewrite lookup_total_alter_drop1 in E.
        destruct (decide (Z.to_nat w = i)) as [<- | Hne]; [|exact E].
        rewrite (strip_zeros_cons_congr c _ _ E). apply cons_hd_drop1.
      * rewrite length_alter. exact HlW.
      * apply Forall_alter; [exact HW|]. intros u _ Hu.
        destruct u; simpl; rewrite ?drop_0; [constructor|]. apply Forall_cons_1 in Hu. tauto.
      * apply step_range. exact Hr.
    + rewrite collect_done in H by lia. injection H as <-.
      intros i. simpl. rewrite lookup_total_replicate_nil.
      rewrite total_ones_zero_strip by auto. reflexivity.
Qed.

(** With [b] coprime to [r], walking by east steps from any wire reaches any
    other wire in fewer than [r] steps. *)
Lemma coprime_reach w i :
  Z.gcd r b = 1 -> 0 <= i < r ->
  exists d : nat, (d < Z.to_nat r)%nat /\ (w + Z.of_nat d * b) mod r = i.
Proof.
  intros Hg Hi. destruct (Z.gcd_bezout r b 1 Hg) as (u & v & Huv).
  exists (Z.to_nat (((i - w) * v) mod r)).
  pose proof (Z.mod_pos_bound ((i - w) * v) r Hr) as Hd.
  split; [lia|]. rewrite Z2Nat.id by lia.
  symmetry. apply (Zmod_unique _ _ (- (i - w) * u - ((i - w) * v / r) * b)); [lia|].
  pose proof (Z.div_mod ((i - w) * v) r ltac:(lia)) as Hdm.
  set (q := (i - w) * v / r) in *. set (m := ((i - w) * v) mod r) in *.
  assert (Hm : m = (i - w) * v - r * q) by lia. rewrite Hm.
  replace (w + ((i - w) * v - r * q) * b) with (w + (i - w) * (v * b) - r * q * b) by ring.
  replace (v * b) with (1 - u * r) by lia. ring.
Qed.

Lemma collect_reach F W d :
  (forall (j : nat) w', W !!! j <> [] -> 0 <= w' < r ->
      exists x, collect F r b (alter (drop 1) j W) w'
                  (total_ones (alter (drop 1) j W)) = Some x) ->
  forall w, 0 <= w < r ->
    W !!! Z.to_nat ((w + Z.of_nat d * b) mod r) <> [] ->
    exists x, collect (S d + F) r b W w (total_ones W) = Some x.
Proof.
  intros Hout. induction d as [|d IH]; intros w Hw Hne.
  - destruct (Z.ltb_spec 0 (total_ones W)) as [Hpos | Hneg];
      [|exists []; apply collect_done; lia].
    replace (w + Z.of_nat 0 * b) with w in Hne by lia.
    rewrite Z.mod_small in Hne by lia.
    simpl Nat.add. rewrite collect_step by exact Hpos.
    rewrite <- total_ones_alter_drop1.
    destruct (Hout (Z.to_nat w) (step r b w (hd 0 (W !!! Z.to_nat w))) Hne
                (step_range r b Hr _ _)) as [x Hx].
    rewrite Hx. eexists. reflexivity.
  - destruct (Z.ltb_spec 0 (total_ones W)) as [Hpos | Hneg];
      [|exists []; apply collect_done; lia].
    change (S (S d) + F)%nat with (S (S d + F)). rewrite collect_step by exact Hpos.
    rewrite <- total_ones_alter_drop1.
    destruct (W !!! Z.to_nat w) as [|c u] eqn:Ew.
    + rewrite alter_drop1_empty by exact Ew. simpl hd. rewrite step_zero.
      destruct (IH ((w + b) mod r)) as [x Hx].
      * apply Z.mod_pos_bound. exact Hr.
      * rewrite Zplus_mod_idemp_l.
        replace (w + b + Z.of_nat d * b) with (w + Z.of_nat (S d) * b) by lia. exact Hne.
      * rewrite Hx. eexists. reflexivity.
    + destruct (Hout (Z.to_nat w) (step r b w (hd 0 (c :: u)))) as [x Hx].
      * rewrite Ew. discriminate.
      * apply step_range. exact Hr.
      * rewrite (collect_mono r b F (S d + F) _ _ _ x Hx) by lia. eexists. reflexivity.
Qed.

(** The merge loop comes to an end, within [r] steps per stored symbol. *)
Lemma collect_terminates W w :
  Z.gcd r b = 1 -> length W = Z.to_nat r -> 0 <= w < r ->
  exists x, collect (Z.to_nat r * symbols W) r b W w (total_ones W) = Some x.
Proof.
  intros Hg. remember (symbols W) as k eqn:Hk. revert W w Hk.
  induction k as [|k IH]; intros W w Hk HlW Hw.
  - destruct (Z.ltb_spec 0 (total_ones W)) as [Hpos | Hneg];
      [|exists []; apply collect_done; lia].
    destruct (total_ones_pos_nonempty W Hpos) as (i & _ & Hne).
    pose proof (symbols_alter_drop1 W i Hne). lia.
  - destruct (Z.ltb_spec 0 (total_ones W)) as [Hpos | Hneg];
      [|exists []; apply collect_done; lia].
    destruct (total_ones_pos_nonempty W Hpos) as (i & Hi & Hne).
    destruct (coprime_reach w (Z.of_nat i) Hg) as (d & Hd & Hreach); [lia|].
    destruct (collect_reach (Z.to_nat r * k) W d) with (w := w) as [x Hx].
    + intros j w' Hj Hw'. apply IH.
      * pose proof (symbols_alter_drop1 W j Hj). lia.
      * rewrite length_alter. exact HlW.
      * exact Hw'.
    + exact Hw.
    + rewrite Hreach, Nat2Z.id. exact Hne.
    + exists x. eapply collect_mono; [exact Hx|]. lia.
Qed.

End Inverse.

(** ** The reference distribution *)

Section Expected.
Context (r : Z) (Hr : 0 < r).

Lemma expected_at_succ T i :
  0 <= i < r ->
  expected_at r (T + 1) i = expected_at r T i + (if i =? (T + 1) mod r then 1 else 0).
Proof.
  intros Hi. unfold expected_at.
  pose proof (Z.div_mod T r ltac:(lia)) as HT.
  pose proof (Z.mod_pos_bound T r Hr) as Hm.
  destruct (Z.eq_dec (T mod r) (r - 1)) as [E | E].
  - assert (Hq : (T + 1) / r = T / r + 1) by (symmetry; apply (Zdiv_unique _ _ _ 0); lia).
    assert (Hm' : (T + 1) mod r = 0) by (symmetry; apply (Zmod_unique _ _ (T / r + 1)); lia).
    rewrite Hq, Hm'.
    destruct (Z.ltb_spec 0 i), (Z.leb_spec i 0), (Z.leb_spec i (T mod r)), (Z.eqb_spec i 0);
      simpl; lia.
  - assert (Hq : (T + 1) / r = T / r) by (symmetry; apply (Zdiv_unique _ _ _ (T mod r + 1)); lia).
    assert (Hm' : (T + 1) mod r = T mod r + 1) by (symmetry; apply (Zmod_unique _ _ (T / r)); lia).
    rewrite Hq, Hm'.
    destruct (Z.ltb_spec 0 i), (Z.leb_spec i (T mod r + 1)), (Z.leb_spec i (T mod r)),
      (Z.eqb_spec i (T mod r + 1)); simpl; lia.
Qed.

Lemma expected_at_add T (K : nat) i :
  0 <= i < r -> expected_at r T i <= expected_at r (T + Z.of_nat K) i.
Proof.
  intros Hi. induction K as [|K IH]; [replace (T + Z.of_nat 0) with T by lia; lia|].
  replace (T + Z.of_nat (S K)) with (T + Z.of_nat K + 1) by lia.
  rewrite expected_at_succ by exact Hi. destruct (_ =? _); lia.
Qed.

Lemma expected_at_multiple q i : 0 <= i < r -> expected_at r (r * q) i = q.
Proof.
  intros Hi. unfold expected_at.
  rewrite Z.mul_comm, Z_div_mult, Z_mod_mult by lia.
  destruct (Z.ltb_spec 0 i), (Z.leb_spec i 0); simpl; lia.
Qed.

Lemma sumZ_fmap_add_const (q : Z) (f : Z -> Z) (l : list Z) :
  sumZ ((fun i => q + f i) <$> l) = Z.of_nat (length l) * q + sumZ (f <$> l).
Proof.
  induction l as [|x l IH]; [reflexivity|].
  rewrite !fmap_cons, !sumZ_cons, IH. simpl length. lia.
Qed.

Lemma sumZ_surplus (m : Z) (k : nat) :
  0 <= m ->
  sumZ ((fun i => if (0 <? i) && (i <=? m) then 1 else 0) <$> seqZ 0 (Z.of_nat k))
  = Z.max 0 (Z.min m (Z.of_nat k - 1)).
Proof.
  intros Hm. induction k as [|k IH]; [change (seqZ 0 (Z.of_nat 0)) with (@nil Z); rewrite fmap_nil, sumZ_nil; lia|].
  rewrite seqZ_S, fmap_app, sumZ_app, IH. simpl fmap. rewrite sumZ_cons, sumZ_nil.
  destruct (Z.ltb_spec 0 (0 + Z.of_nat k)), (Z.leb_spec (0 + Z.of_nat k) m); simpl; lia.
Qed.

Lemma expected_north_steps_length T : length (expected_north_steps T r) = Z.to_nat r.
Proof. unfold expected_north_steps, py_range. rewrite length_fmap, length_seqZ. f_equal. lia. Qed.

Lemma expected_north_steps_lookup T (i : nat) :
  (i < Z.to_nat r)%nat ->
  expected_north_steps T r !!! i = expected_at r T (Z.of_nat i).
Proof.
  intros Hi. apply list_lookup_total_correct.
  unfold expected_north_steps, py_range. rewrite list_lookup_fmap.
  rewrite lookup_seqZ_lt by lia. reflexivity.
Qed.

(** The reference distribution holds [T] ones in all. *)
Lemma expected_north_steps_sum T : sumZ (expected_north_steps T r) = T.
Proof.
  unfold expected_north_steps, py_range.
  rewrite (sumZ_fmap_add_const (T / r)
             (fun i => if (0 <? i) && (i <=? T mod r) then 1 else 0)).
  rewrite length_seqZ. replace (r - 0) with (Z.of_nat (Z.to_nat r)) by lia.
  pose proof (Z.mod_pos_bound T r Hr) as Hm.
  rewrite sumZ_surplus by lia.
  pose proof (Z.div_mod T r ltac:(lia)). rewrite Nat2Z.id. lia.
Qed.

End Expected.

(** ** Ones in front of a sequence *)

Section Prepend.
Context (r b : Z) (Hr : 0 < r).

Lemma distribute_ones n (K : nat) T s (i : nat) :
  n = Z.to_nat r -> (i < n)%nat ->
  distribute r b n ((T + Z.of_nat K) mod r) (replicate K 1 ++ s) !!! i
  = replicate (Z.to_nat (expected_at r (T + Z.of_nat K) (Z.of_nat i)
                         - expected_at r T (Z.of_nat i))) 1
    ++ distribute r b n (T mod r) s !!! i.
Proof.
  intros Hn Hi. induction K as [|K IH].
  - replace (T + Z.of_nat 0) with T by lia. rewrite Z.sub_diag. reflexivity.
  - pose proof (Z.mod_pos_bound (T + Z.of_nat (S K)) r Hr) as Hw.
    simpl replicate. rewrite <- app_comm_cons.
    rewrite distribute_lookup_cons by (try lia; exact Hr).
    replace (T + Z.of_nat (S K)) with (T + Z.of_nat K + 1) in * by lia.
    rewrite step_one_succ, IH.
    rewrite (expected_at_succ r Hr (T + Z.of_nat K)) by lia.
    pose proof (expected_at_add r Hr T K (Z.of_nat i) ltac:(lia)) as Hle.
    destruct (decide (Z.to_nat ((T + Z.of_nat K + 1) mod r) = i)) as [E | E].
    + destruct (Z.eqb_spec (Z.of_nat i) ((T + Z.of_nat K + 1) mod r)); [|lia].
      rewrite app_comm_cons. f_equal.
      replace (Z.to_nat (expected_at r (T + Z.of_nat K) (Z.of_nat i) + 1
                         - expected_at r T (Z.of_nat i)))
        with (S (Z.to_nat (expected_at r (T + Z.of_nat K) (Z.of_nat i)
                           - expected_at r T (Z.of_nat i)))) by lia.
      reflexivity.
    + destruct (Z.eqb_spec (Z.of_nat i) ((T + Z.of_nat K + 1) mod r)); [lia|].
      rewrite Z.add_0_r. reflexivity.
Qed.

End Prepend.

(** ** Paths and partitions *)

Lemma partition_positive p : partition p -> Forall (fun a => 0 < a) p.
Proof. induction 1; constructor; assumption. Qed.

Lemma partition_hd_nonneg p : partition p -> 0 <= hd 0 p.
Proof. destruct 1; simpl; lia. Qed.

Lemma partition_strip p : partition p -> strip_zeros p = p.
Proof.
  induction 1 as [|a p Ha Hhd Hp IH]; [reflexivity|].
  rewrite strip_zeros_nonzero_cons by lia. rewrite IH. reflexivity.
Qed.

Lemma path_of_bits p : bits (path_of p).
Proof.
  induction p as [|a p IH]; [constructor|]. simpl.
  apply bits_app. split; [exact IH|]. apply bits_app. split.
  - apply bits_replicate. left. reflexivity.
  - constructor; [right; reflexivity | constructor].
Qed.

Lemma path_of_sum p : sumZ (path_of p) = Z.of_nat (length p).
Proof.
  induction p as [|a p IH]; [reflexivity|]. simpl path_of.
  rewrite !sumZ_app, IH, sumZ_replicate, sumZ_cons, sumZ_nil. simpl length. lia.
Qed.

Lemma path_of_last p : List.last (path_of p) 1 = 1.
Proof.
  destruct p as [|a p]; [reflexivity|]. simpl path_of.
  rewrite app_assoc. apply last_last.
Qed.

Lemma easts_replicate_zero d : easts (replicate d 0) = Z.of_nat d.
Proof. unfold easts. rewrite length_replicate, sumZ_replicate. lia. Qed.

Lemma easts_replicate_one d : easts (replicate d 1) = 0.
Proof. unfold easts. rewrite length_replicate, sumZ_replicate. lia. Qed.

Lemma path_of_easts p : partition p -> easts (path_of p) = hd 0 p.
Proof.
  induction 1 as [|a p Ha Hhd Hp IH]; [reflexivity|]. simpl path_of.
  rewrite !easts_app, IH, easts_replicate_zero. unfold easts. simpl.
  rewrite sumZ_cons, sumZ_nil. lia.
Qed.

Lemma path_of_length p : partition p -> Z.of_nat (length (path_of p)) = Z.of_nat (length p) + hd 0 p.
Proof.
  intros Hp. pose proof (path_of_easts p Hp) as H. unfold easts in H.
  rewrite path_of_sum in H. lia.
Qed.

Lemma parts_from_app z u v :
  bits u -> parts_from z (u ++ v) = parts_from z u ++ parts_from (z + easts u) v.
Proof.
  intros Hu. revert z. induction Hu as [|c u Hc Hu IH]; intros z.
  - simpl. unfold easts. simpl. rewrite sumZ_nil. f_equal. lia.
  - rewrite <- app_comm_cons. simpl. rewrite !IH, easts_cons.
    destruct Hc as [-> | ->]; simpl.
    + replace (z + (1 - 0 + easts u)) with (z + 1 + easts u) by lia. reflexivity.
    + replace (z + (1 - 1 + easts u)) with (z + easts u) by lia. reflexivity.
Qed.

Lemma parts_from_zeros z d : parts_from z (replicate d 0) = [].
Proof. revert z. induction d as [|d IH]; intros z; [reflexivity|]. simpl. apply IH. Qed.

Lemma parts_from_ones z d : parts_from z (replicate d 1) = replicate d z.
Proof. induction d as [|d IH]; [reflexivity|]. simpl. rewrite IH. reflexivity. Qed.

Lemma parts_from_length z s : bits s -> Z.of_nat (length (parts_from z s)) = sumZ s.
Proof.
  intros Hs. revert z. induction Hs as [|c s Hc Hs IH]; intros z; [reflexivity|].
  rewrite sumZ_cons. destruct Hc as [-> | ->]; simpl; [rewrite IH | rewrite <- (IH z)]; lia.
Qed.

Lemma parts_from_path_of p : partition p -> parts_from 0 (path_of p) = reverse p.
Proof.
  induction 1 as [|a p Ha Hhd Hp IH]; [reflexivity|]. simpl path_of.
  rewrite parts_from_app by apply path_of_bits.
  rewrite parts_from_app by (apply bits_replicate; left; reflexivity).
  rewrite IH, parts_from_zeros, path_of_easts, easts_replicate_zero by exact Hp.
  rewrite reverse_cons. simpl. f_equal. f_equal. lia.
Qed.

(** Decoding the path of a partition gives the partition back. *)
Lemma decode_path_of p : partition p -> decode (path_of p) = p.
Proof.
  intros Hp. unfold decode. rewrite parts_from_path_of by exact Hp.
  rewrite reverse_involutive. apply partition_strip, Hp.
Qed.

(** North steps in front of a path do not change the partition. *)
Lemma decode_ones K s : decode (replicate K 1 ++ s) = decode s.
Proof.
  unfold decode. rewrite parts_from_app by (apply bits_replicate; right; reflexivity).
  rewrite parts_from_ones, easts_replicate_one, Z.add_0_r, reverse_app.
  rewrite reverse_replicate. apply strip_zeros_app_zeros.
Qed.

Lemma weakly_decreasing_parts s z L :
  0 <= z -> Sage.weakly_decreasing L = true -> hd z L <= z ->
  Sage.weakly_decreasing (reverse (parts_from z s) ++ L) = true.
Proof.
  revert z L. induction s as [|c s IH]; intros z L Hz HL Hhd; [exact HL|].
  simpl. destruct (c =? 1).
  - rewrite reverse_cons, <- app_assoc. simpl. apply IH; [exact Hz| |simpl; lia].
    simpl. rewrite HL. destruct L as [|y L]; simpl in *.
    + destruct (Z.leb_spec 0 z); [reflexivity | lia].
    + destruct (Z.leb_spec 0 z), (Z.leb_spec y z); try lia; reflexivity.
  - apply IH; [lia | exact HL|]. destruct L; simpl in *; lia.
Qed.

Lemma weakly_decreasing_strip l :
  Sage.weakly_decreasing l = true -> partition (strip_zeros l).
Proof.
  induction l as [|x l IH]; [constructor|]. intros H. simpl in H.
  apply andb_prop in H as [H Hl]. apply andb_prop in H as [Hx Hxy].
  apply Z.leb_le in Hx. specialize (IH Hl).
  pose proof (strip_zeros_hd l) as Hhd.
  assert (Hle : hd 0 l <= x).
  { destruct l as [|y l]; simpl; [exact Hx | apply Z.leb_le, Hxy]. }
  simpl. destruct (strip_zeros l) as [|y t] eqn:E.
  - destruct (Z.eqb_spec x 0); constructor; simpl; try lia. constructor.
  - inversion IH; subst. simpl in Hhd. constructor; simpl; [lia | lia | exact IH].
Qed.

Lemma decode_partition s : partition (decode s).
Proof.
  unfold decode. apply weakly_decreasing_strip.
  rewrite <- (app_nil_r (reverse _)). apply weakly_decreasing_parts; simpl; [lia | reflexivity | lia].
Qed.

Lemma path_of_app_zeros q l : path_of (q ++ replicate l 0) = replicate l 1 ++ path_of q.
Proof.
  induction q as [|a q IH].
  - simpl. rewrite app_nil_r. induction l as [|l IHl]; [reflexivity|].
    simpl path_of. rewrite IHl.
    replace (hd 0 (replicate l 0)) with 0 by (destruct l; reflexivity).
    simpl. rewrite <- replicate_S_end. reflexivity.
  - rewrite <- app_comm_cons. simpl path_of. rewrite IH.
    replace (hd 0 (q ++ replicate l 0)) with (hd 0 q)
      by (destruct q; [destruct l|]; reflexivity).
    rewrite <- app_assoc. reflexivity.
Qed.

Lemma last_cons_default (x off : Z) P : List.last (x :: P) off = List.last P x.
Proof.
  revert x off. induction P as [|y P IHP]; intros x off; [reflexivity|].
  change (List.last (x :: y :: P) off) with (List.last (y :: P) off).
  rewrite (IHP y off), (IHP y x). reflexivity.
Qed.

Lemma dyck_body_app off P a :
  Sage.dyck_body off (P ++ [a])
  = Sage.dyck_body off P ++ replicate (Z.to_nat (a - List.last P off)) 0 ++ [1].
Proof.
  revert off. induction P as [|x P IH]; intros off; [reflexivity|].
  rewrite <- app_comm_cons. simpl Sage.dyck_body. rewrite IH.
  rewrite last_cons_default. rewrite <- !app_assoc. reflexivity.
Qed.

(** The loop of [to_dyck_word] writes the boundary path. *)
Lemma path_of_reverse P : path_of (reverse P) = Sage.dyck_body 0 P.
Proof.
  induction P as [|a P IH] using rev_ind; [reflexivity|].
  rewrite reverse_app. simpl. rewrite IH, dyck_body_app.
  replace (hd 0 (reverse P)) with (List.last P 0); [reflexivity|].
  clear. destruct P as [|x P] using rev_ind; [reflexivity|].
  rewrite last_last, reverse_app. reflexivity.
Qed.

Lemma dyck_body_parts off z s :
  bits s -> off <= z ->
  Sage.dyck_body off (parts_from z s)
  = match strip_zeros s with
    | [] => []
    | t => replicate (Z.to_nat (z - off)) 0 ++ t
    end.
Proof.
  intros Hs. revert off z. induction Hs as [|c s Hc Hs IH]; intros off z Hle; [reflexivity|].
  destruct Hc as [-> | ->].
  - simpl parts_from. rewrite IH by lia. simpl strip_zeros.
    destruct (strip_zeros s) as [|y t]; [reflexivity|].
    replace (Z.to_nat (z + 1 - off)) with (S (Z.to_nat (z - off))) by lia.
    rewrite replicate_S_end, <- app_assoc. reflexivity.
  - simpl parts_from. simpl Sage.dyck_body. rewrite IH by lia.
    rewrite Z.sub_diag. simpl strip_zeros.
    destruct (strip_zeros s) as [|y t]; reflexivity.
Qed.

(** A binary wire, up to its trailing zeros, is the path of its partition
    with north steps in front. *)
Lemma strip_zeros_decode s :
  bits s ->
  exists l : nat,
    strip_zeros s = replicate l 1 ++ path_of (decode s)
    /\ Z.of_nat l = sumZ s - Z.of_nat (length (decode s)).
Proof.
  intros Hs. unfold decode.
  destruct (strip_zeros_split (reverse (parts_from 0 s))) as [l Hl].
  exists l. split.
  - rewrite <- path_of_app_zeros, <- Hl, path_of_reverse, dyck_body_parts by (auto; lia).
    destruct (strip_zeros s); reflexivity.
  - apply (f_equal length) in Hl. rewrite length_app, length_replicate, length_reverse in Hl.
    pose proof (parts_from_length 0 s Hs). lia.
Qed.

Lemma path_of_nil_inv p : partition p -> easts (path_of p) = 0 -> p = [].
Proof. intros Hp. rewrite path_of_easts by exact Hp. destruct Hp; simpl; [reflexivity | lia]. Qed.

(** ** The SageMath codec in terms of paths *)

Lemma filter_ext_in {A} (P Q : A -> Prop) `{HP : !forall x, Decision (P x)}
      `{HQ : !forall x, Decision (Q x)} (l : list A) :
  (forall x, x ∈ l -> (P x <-> Q x)) -> filter P l = filter Q l.
Proof.
  induction l as [|x l IH]; intros H; [reflexivity|].
  rewrite !filter_cons. rewrite IH by (intros y Hy; apply H; right; exact Hy).
  assert (Hx : P x <-> Q x) by (apply H; left).
  destruct (decide (P x)), (decide (Q x)); try reflexivity; tauto.
Qed.

Lemma fmap_const_replicate {A B} (f : A -> B) (c : B) (l : list A) :
  (forall x, x ∈ l -> f x = c) -> f <$> l = replicate (length l) c.
Proof.
  induction l as [|x l IH]; intros H; [reflexivity|].
  rewrite fmap_cons, (H x) by left. simpl. f_equal. apply IH. intros y Hy. apply H. right. exact Hy.
Qed.

Lemma zero_positions k s :
  filter (fun i => invert_zero_one s !! (i - k)%nat = Some 0) (seq k (length s))
  = north_positions k s.
Proof.
  revert k. induction s as [|c s IH]; intros k; [reflexivity|].
  simpl length. simpl seq. rewrite filter_cons.
  rewrite (filter_ext_in _ (fun i => invert_zero_one s !! (i - S k)%nat = Some 0)).
  - rewrite IH. rewrite Nat.sub_diag. simpl.
    destruct (Z.eqb_spec c 1) as [-> | Hc].
    + rewrite decide_True by reflexivity. reflexivity.
    + rewrite decide_False; [reflexivity|]. intros [=]. lia.
  - intros i Hi. apply elem_of_seq in Hi.
    replace (i - k)%nat with (S (i - S k)) by lia. reflexivity.
Qed.

Lemma fmap_seq_imap {A B} (g : A -> nat -> B) `{!Inhabited A} (l : list A) :
  (fun i => g (l !!! i) i) <$> seq 0 (length l) = imap (fun i x => g x i) l.
Proof.
  apply list_eq. intros i. rewrite list_lookup_fmap, list_lookup_imap.
  destruct (l !! i) as [x|] eqn:E.
  - rewrite lookup_seq_lt by (eapply lookup_lt_Some; eauto). simpl.
    rewrite (list_lookup_total_correct _ _ _ E). reflexivity.
  - rewrite lookup_seq_ge by (apply lookup_ge_None; exact E). reflexivity.
Qed.

Lemma parts_of_positions k j0 s :
  imap (fun i x => Z.of_nat x - Z.of_nat (j0 + i)) (north_positions k s)
  = parts_from (Z.of_nat k - Z.of_nat j0) s.
Proof.
  revert k j0. induction s as [|c s IH]; intros k j0; [reflexivity|].
  simpl. destruct (c =? 1).
  - rewrite imap_cons. f_equal; [f_equal; lia|].
    replace (Z.of_nat k - Z.of_nat j0) with (Z.of_nat (S k) - Z.of_nat (S j0)) by lia.
    rewrite <- (IH (S k) (S j0)).
    apply imap_ext. intros i x _. simpl. f_equal. lia.
  - rewrite (IH (S k) j0). f_equal. lia.
Qed.

(** The decoder of SageMath, applied to an inverted path, reads off the
    partition of the path. *)
Lemma from_zero_one_invert s :
  Sage.from_zero_one (invert_zero_one s) = OK (decode s).
Proof.
  unfold Sage.from_zero_one.
  assert (Htmp : filter (fun i => invert_zero_one s !! i = Some 0)
                   (seq 0 (length (invert_zero_one s))) = north_positions 0 s).
  { rewrite <- zero_positions.
    replace (length (invert_zero_one s)) with (length s)
      by (unfold invert_zero_one; rewrite length_fmap; reflexivity).
    apply filter_ext_in. intros i _. rewrite Nat.sub_0_r. reflexivity. }
  rewrite Htmp, fmap_reverse.
  rewrite (fmap_seq_imap (fun x i => Z.of_nat x - Z.of_nat i)).
  pose proof (parts_of_positions 0 0 s) as Hparts.
  change (Z.of_nat 0 - Z.of_nat 0) with 0 in Hparts. simpl in Hparts. rewrite Hparts.
  unfold Sage.Partition.
  pose proof (weakly_decreasing_parts s 0 [] ltac:(lia) eq_refl ltac:(simpl; lia)) as H.
  rewrite app_nil_r in H. rewrite H. reflexivity.
Qed.

Lemma zero_one_sequence_bits p : bits (Sage.zero_one_sequence p).
Proof.
  unfold Sage.zero_one_sequence. apply Forall_fmap, Forall_forall. intros i _. simpl.
  destruct (bool_decide _); [left | right]; reflexivity.
Qed.

Lemma shifted_parts_bound p :
  partition p -> forall y, y ∈ imap (fun k x => x - Z.of_nat k) p -> y <= hd 0 p.
Proof.
  induction 1 as [|a p Ha Hhd Hp IH]; intros y Hy.
  - inversion Hy.
  - rewrite imap_cons in Hy. apply elem_of_cons in Hy as [-> | Hy]; [simpl; lia|].
    simpl. assert (Hy' : y + 1 ∈ imap (fun k x => x - Z.of_nat k) p).
    { apply elem_of_lookup_imap in Hy as (i & x & -> & Hx).
      apply elem_of_lookup_imap. exists i, x. split; [simpl; lia | exact Hx]. }
    specialize (IH _ Hy'). lia.
Qed.

Lemma shifted_parts_cons a p y :
  y ∈ imap (fun k x => x - Z.of_nat k) (a :: p)
  <-> y = a \/ y + 1 ∈ imap (fun k x => x - Z.of_nat k) p.
Proof.
  rewrite imap_cons, elem_of_cons. simpl. rewrite Z.sub_0_r.
  split; (intros [H | H]; [left; exact H | right]).
  - apply elem_of_lookup_imap in H as (i & x & -> & Hx).
    apply elem_of_lookup_imap. exists i, x. split; [simpl; lia | exact Hx].
  - apply elem_of_lookup_imap in H as (i & x & E & Hx).
    apply elem_of_lookup_imap. exists i, x. split; [simpl; lia | exact Hx].
Qed.

(** The boundary path that [G_abacus] reads is the path of the partition. *)
Lemma invert_zero_one_sequence p :
  partition p -> invert_zero_one (Sage.zero_one_sequence p) = path_of p.
Proof.
  induction 1 as [|a p Ha Hhd Hp IH]; [reflexivity|].
  simpl path_of. rewrite <- IH. clear IH.
  unfold Sage.zero_one_sequence, invert_zero_one, py_range.
  pose proof (partition_hd_nonneg p Hp) as H0.
  simpl length. simpl hd at 1.
  replace (a + 1 - (- Z.of_nat (S (length p)) + 1))
    with ((hd 0 p + 1 - (- Z.of_nat (length p) + 1)) + ((a - hd 0 p) + 1)) by lia.
  rewrite seqZ_app by lia. rewrite !fmap_app. f_equal.
  - f_equal.
    replace (- Z.of_nat (S (length p)) + 1) with (-1 + (- Z.of_nat (length p) + 1)) by lia.
    rewrite <- fmap_add_seqZ, <- list_fmap_compose.
    apply list_fmap_ext. intros i x Hx. cbv beta. unfold compose.
    apply lookup_seqZ in Hx as [-> Hi].
    match goal with
    | |- (if bool_decide ?A then _ else _) = (if bool_decide ?B then _ else _) =>
        rewrite (bool_decide_ext A B); [reflexivity|]
    end.
    rewrite shifted_parts_cons.
    replace (-1 + (- Z.of_nat (length p) + 1 + Z.of_nat i) + 1)
      with (- Z.of_nat (length p) + 1 + Z.of_nat i) by lia.
    split; [intros [E | E]; [lia | exact E] | intros E; right; exact E].
  - replace (a - hd 0 p + 1) with (Z.of_nat (S (Z.to_nat (a - hd 0 p)))) by lia.
    rewrite seqZ_S, !fmap_app. f_equal.
    + rewrite <- list_fmap_compose.
      rewrite (fmap_const_replicate _ 0).
      * rewrite length_seqZ, Nat2Z.id. reflexivity.
      * intros i Hi. apply elem_of_seqZ in Hi. cbv beta. unfold compose.
        rewrite bool_decide_eq_false_2; [reflexivity|].
        rewrite shifted_parts_cons. intros [E | E]; [lia|].
        apply (shifted_parts_bound p Hp) in E. lia.
    + rewrite !fmap_cons, !fmap_nil. rewrite bool_decide_eq_true_2; [reflexivity|].
      apply shifted_parts_cons. left. lia.
Qed.

(** ** Dyck words *)

Lemma to_dyck_word_some q n :
  Sage.to_dyck_word q (Some n)
  = replicate (Z.to_nat (n - Z.of_nat (length q))) 1 ++ path_of q
    ++ replicate (Z.to_nat (n - hd 0 q)) 0.
Proof.
  destruct q as [|a q].
  - simpl. rewrite !Z.sub_0_r. reflexivity.
  - unfold Sage.to_dyck_word. rewrite <- path_of_reverse, reverse_involutive. reflexivity.
Qed.

Lemma foldr_max_ge (x : Z) (l : list Z) : x ∈ l -> x <= foldr Z.max 0 l.
Proof.
  induction 1 as [x l | x y l _ IH]; simpl; lia.
Qed.

Lemma foldr_max_from_ge (x m : Z) (l : list Z) :
  x ∈ m :: l -> x <= foldr Z.max m l.
Proof.
  revert m. induction l as [|y l IH]; intros m H.
  - apply list_elem_of_singleton in H. simpl. lia.
  - simpl. apply elem_of_cons in H as [-> | H].
    + specialize (IH m ltac:(left)). lia.
    + apply elem_of_cons in H as [-> | H]; [lia|].
      specialize (IH m ltac:(right; exact H)). lia.
Qed.

Lemma py_max_ge l m x : py_max l = OK m -> x ∈ l -> x <= m.
Proof.
  destruct l as [|y l]; [discriminate|]. intros [= <-] H. apply foldr_max_from_ge, H.
Qed.

Lemma py_max_in l m : py_max l = OK m -> m ∈ l.
Proof.
  destruct l as [|y l]; [discriminate|]. intros [= <-].
  induction l as [|z l IH]; simpl; [left|].
  destruct (Z.max_spec z (foldr Z.max y l)) as [[_ ->] | [_ ->]].
  - apply elem_of_cons in IH as [E | IH]; [rewrite E; left | right; right; exact IH].
  - right; left.
Qed.

(** The least Dyck word of a partition has half-length at least the number
    of parts and at least the first part. *)
Lemma to_dyck_word_none q :
  partition q ->
  exists M, Sage.to_dyck_word q None = Sage.to_dyck_word q (Some M)
            /\ Z.of_nat (length (Sage.to_dyck_word q None)) = 2 * M
            /\ Z.of_nat (length q) <= M /\ hd 0 q <= M.
Proof.
  intros Hq. destruct q as [|a q].
  - exists 0. repeat split; simpl; lia.
  - set (M := foldr Z.max 0 (imap (fun (i : nat) l => Z.of_nat i + l + 1) (a :: q))).
    assert (H1 : hd 0 (a :: q) <= M).
    { assert (0 + a + 1 <= M); [|simpl; lia].
      apply foldr_max_ge. rewrite imap_cons. left. }
    assert (H2 : Z.of_nat (length (a :: q)) <= M).
    { destruct (a :: q) as [|x l] eqn:E using rev_ind; [discriminate|].
      assert (Hx : 0 < x).
      { apply partition_positive in Hq. apply Forall_app in Hq as [_ Hq].
        apply Forall_cons_1 in Hq. tauto. }
      assert (Z.of_nat (length l) + x + 1 <= M).
      { apply foldr_max_ge. apply elem_of_lookup_imap. exists (length l), x.
        split; [reflexivity|]. apply list_lookup_middle. reflexivity. }
      rewrite length_app. simpl. lia. }
    exists M. split; [reflexivity|]. split; [|split; assumption].
    change (Sage.to_dyck_word (a :: q) None) with (Sage.to_dyck_word (a :: q) (Some M)).
    rewrite to_dyck_word_some, !length_app, !length_replicate.
    pose proof (path_of_length _ Hq). lia.
Qed.

Lemma to_dyck_word_length q n :
  partition q -> Z.of_nat (length q) <= n -> hd 0 q <= n ->
  Z.of_nat (length (Sage.to_dyck_word q (Some n))) = 2 * n.
Proof.
  intros Hq H1 H2. rewrite to_dyck_word_some, !length_app, !length_replicate.
  pose proof (path_of_length _ Hq). lia.
Qed.

Lemma to_dyck_word_sum q n :
  Z.of_nat (length q) <= n -> sumZ (Sage.to_dyck_word q (Some n)) = n.
Proof.
  intros H1. rewrite to_dyck_word_some, !sumZ_app, !sumZ_replicate, path_of_sum. lia.
Qed.

Lemma to_dyck_word_bits q n : bits (Sage.to_dyck_word q (Some n)).
Proof.
  rewrite to_dyck_word_some. apply bits_app. split; [apply bits_replicate; right; reflexivity|].
  apply bits_app. split; [apply path_of_bits | apply bits_replicate; left; reflexivity].
Qed.

(** ** The conjugate partition along the path *)

Lemma norths_after_easts_app s1 s2 :
  norths_after_easts (s1 ++ s2)
  = ((fun x => x + sumZ s2) <$> norths_after_easts s1) ++ norths_after_easts s2.
Proof.
  induction s1 as [|c s1 IH]; [reflexivity|].
  rewrite <- app_comm_cons. simpl. rewrite IH, sumZ_app.
  destruct (c =? 0); reflexivity.
Qed.

Lemma norths_after_easts_zeros d s :
  norths_after_easts (replicate d 0 ++ s) = replicate d (sumZ s) ++ norths_after_easts s.
Proof.
  induction d as [|d IH]; [reflexivity|]. simpl.
  rewrite IH, sumZ_app, sumZ_replicate. f_equal. f_equal. lia.
Qed.

Lemma norths_after_easts_length s : bits s -> Z.of_nat (length (norths_after_easts s)) = easts s.
Proof.
  induction 1 as [|c s Hc Hs IH]; [reflexivity|]. rewrite easts_cons.
  destruct Hc as [-> | ->]; simpl; lia.
Qed.

Lemma fmap_mjoin {A B} (f : A -> B) (ls : list (list A)) :
  f <$> mjoin ls = mjoin (fmap f <$> ls).
Proof.
  induction ls as [|l ls IH]; [reflexivity|].
  rewrite fmap_cons. simpl mjoin. rewrite fmap_app, IH. reflexivity.
Qed.

Lemma conjugate_cons a p :
  Sage.conjugate (a :: p)
  = ((fun x => x + 1) <$> Sage.conjugate p) ++ replicate (Z.to_nat (a - hd 0 p)) 1.
Proof.
  destruct p as [|x p].
  - simpl. rewrite Z.sub_0_r, app_nil_r. reflexivity.
  - unfold Sage.conjugate.
    change (List.last (a :: x :: p) 0) with (List.last (x :: p) 0).
    change (length (a :: x :: p)) with (S (length (x :: p))).
    replace (S (length (x :: p)) - 1)%nat with (S (length (x :: p) - 1)) by (simpl; lia).
    simpl seq. rewrite <- fmap_S_seq.
    rewrite reverse_cons, fmap_app, join_app, fmap_app, app_assoc. f_equal.
    + rewrite fmap_replicate. f_equal; [f_equal; lia|].
      rewrite <- fmap_reverse, <- list_fmap_compose.
      rewrite fmap_mjoin. f_equal. rewrite <- list_fmap_compose.
      apply list_fmap_ext. intros i k Hk. unfold compose.
      apply list_elem_of_lookup_2, elem_of_reverse, elem_of_seq in Hk.
      rewrite fmap_replicate. f_equal; [|lia].
      destruct k as [|k]; [lia|]. simpl. rewrite Nat.sub_0_r. reflexivity.
    + simpl. rewrite app_nil_r. reflexivity.
Qed.

(** Entry [j] of the conjugate is the number of north steps after the
    east step of column [j]. *)
Lemma conjugate_path p : Sage.conjugate p = norths_after_easts (path_of p).
Proof.
  induction p as [|a p IH]; [reflexivity|].
  rewrite conjugate_cons, IH. simpl path_of.
  rewrite norths_after_easts_app, norths_after_easts_zeros.
  rewrite sumZ_app, sumZ_replicate, sumZ_cons, sumZ_nil. simpl norths_after_easts.
  rewrite app_nil_r. f_equal.
  apply list_fmap_ext. intros; lia.
Qed.

(** ** Cores: cells of the diagram and pairs of steps of the path *)

Lemma py_any_pure {A} (f : A -> res bool) (g : A -> bool) (l : list A) :
  (forall x, x ∈ l -> f x = OK (g x)) -> py_any f l = OK (existsb g l).
Proof.
  induction l as [|x l IH]; intros H; [reflexivity|].
  simpl. rewrite (H x) by left. simpl. destruct (g x); [reflexivity|].
  apply IH. intros y Hy. apply H. right. exact Hy.
Qed.

Lemma is_G_core_pure p r b :
  r <> 0 ->
  is_G_core p r b
  = OK (negb (existsb (existsb (fun cell => cell mod r =? 0))
                      (Sage.upper_hook_lengths p (- b)))).
Proof.
  intros Hr. unfold is_G_core.
  rewrite (py_any_pure _ (existsb (fun cell => cell mod r =? 0))); [reflexivity|].
  intros row _. apply py_any_pure. intros c _. unfold py_mod.
  destruct (Z.eqb_spec r 0); [contradiction | reflexivity].
Qed.

(** [is_G_core] answers [True] exactly when no cell of the diagram has
    [leg - b * (arm + 1)] divisible by [r]. *)
Lemma is_G_core_cells p r b :
  r <> 0 ->
  (is_G_core p r b = OK true
   <-> forall i j, cell p i j -> (leg p i j - b * (arm p i j + 1)) mod r <> 0).
Proof.
  intros Hr. rewrite is_G_core_pure by exact Hr.
  split.
  - intros [= H] i j [Hi Hj]. apply negb_true_iff in H.
    intros Hz. apply not_true_iff_false in H. apply H. clear H.
    apply existsb_exists.
    destruct (lookup_lt_is_Some_2 p i Hi) as [pi Hpi].
    rewrite (list_lookup_total_correct _ _ _ Hpi) in Hj.
    eexists. split.
    + apply list_elem_of_In. unfold Sage.upper_hook_lengths.
      apply elem_of_lookup_imap. exists i, pi. split; [reflexivity | exact Hpi].
    + apply existsb_exists. eexists. split.
      * apply list_elem_of_In, list_elem_of_fmap. exists j. split; [reflexivity|].
        unfold py_range. apply elem_of_seqZ. lia.
      * apply Z.eqb_eq. rewrite <- Hz. f_equal. unfold leg, arm.
        rewrite (list_lookup_total_correct _ _ _ Hpi). ring.
  - intros H. f_equal. apply negb_true_iff, not_true_iff_false. intros Hex.
    apply existsb_exists in Hex as (row & Hrow & Hex).
    apply existsb_exists in Hex as (c & Hc & Hz).
    apply list_elem_of_In in Hrow, Hc. unfold Sage.upper_hook_lengths in Hrow.
    apply elem_of_lookup_imap in Hrow as (i & pi & -> & Hpi).
    apply list_elem_of_fmap in Hc as (j & -> & Hj).
    unfold py_range in Hj. apply elem_of_seqZ in Hj.
    apply (H i j).
    + split; [eapply lookup_lt_Some; exact Hpi|].
      rewrite (list_lookup_total_correct _ _ _ Hpi). lia.
    + apply Z.eqb_eq in Hz. rewrite <- Hz. f_equal. unfold leg, arm.
      rewrite (list_lookup_total_correct _ _ _ Hpi). ring.
Qed.

Lemma path_north_row p u s3 :
  partition p -> path_of p = u ++ 1 :: s3 ->
  (Z.to_nat (sumZ s3) < length p)%nat /\ p !!! Z.to_nat (sumZ s3) = easts u.
Proof.
  intros Hp E. pose proof (path_of_bits p) as Hb. rewrite E in Hb.
  apply bits_app in Hb as [Hu Hb]. apply Forall_cons_1 in Hb as [_ Hs3].
  pose proof (parts_from_path_of p Hp) as H. rewrite E in H.
  rewrite parts_from_app in H by exact Hu. simpl in H. rewrite Z.add_0_l in H.
  apply (f_equal reverse) in H. rewrite reverse_involutive in H.
  rewrite reverse_app, reverse_cons, <- app_assoc in H. simpl in H.
  pose proof (parts_from_length (easts u) s3 Hs3) as Hl.
  assert (Hlen : length (reverse (parts_from (easts u) s3)) = Z.to_nat (sumZ s3)).
  { rewrite length_reverse, <- Hl, Nat2Z.id. reflexivity. }
  rewrite <- Hlen, <- H. split.
  - rewrite !length_app. simpl. lia.
  - apply list_lookup_total_middle. reflexivity.
Qed.

Lemma bits_pick_north s i :
  bits s -> 0 <= i < sumZ s -> exists u s3, s = u ++ 1 :: s3 /\ sumZ s3 = i.
Proof.
  induction 1 as [|c s Hc Hs IH]; intros Hi; [rewrite sumZ_nil in Hi; lia|].
  rewrite sumZ_cons in Hi. destruct (Z.lt_ge_cases i (sumZ s)) as [Hlt | Hge].
  - destruct IH as (u & s3 & -> & E); [lia|]. exists (c :: u), s3. split; [reflexivity | exact E].
  - destruct Hc as [-> | ->]; [lia|]. exists [], s. split; [reflexivity | lia].
Qed.

Lemma bits_pick_east u j :
  bits u -> 0 <= j < easts u -> exists s1 s2, u = s1 ++ 0 :: s2 /\ easts s1 = j.
Proof.
  intros Hu. revert j. induction Hu as [|c u Hc Hu IH]; intros j Hj.
  - unfold easts in Hj. simpl in Hj. rewrite sumZ_nil in Hj. lia.
  - rewrite easts_cons in Hj. destruct Hc as [-> | ->].
    + destruct (Z.eq_dec j 0) as [-> | Hne].
      * exists [], u. split; reflexivity.
      * destruct (IH (j - 1)) as (s1 & s2 & -> & E); [lia|].
        exists (0 :: s1), s2. split; [reflexivity|]. rewrite easts_cons. lia.
    + destruct (IH j) as (s1 & s2 & -> & E); [lia|].
      exists (1 :: s1), s2. split; [reflexivity|]. rewrite easts_cons. lia.
Qed.

Lemma norths_after_east s1 t :
  bits s1 -> norths_after_easts (s1 ++ 0 :: t) !!! Z.to_nat (easts s1) = sumZ t.
Proof.
  intros Hs1. rewrite norths_after_easts_app. simpl.
  pose proof (norths_after_easts_length s1 Hs1) as Hl.
  apply list_lookup_total_middle. rewrite length_fmap. lia.
Qed.

(** A cell with [leg - b * (arm + 1)] divisible by [r] is a pair of an east
    step and a later north step that lie on the same wire. *)
Lemma cell_same_wire_pair p r b :
  partition p -> r <> 0 ->
  ((exists i j, cell p i j /\ (leg p i j - b * (arm p i j + 1)) mod r = 0)
   <-> same_wire_pair r b (path_of p)).
Proof.
  intros Hp Hr.
  assert (Hkey : forall s1 s2 s3, path_of p = s1 ++ 0 :: s2 ++ 1 :: s3 ->
            cell p (Z.to_nat (sumZ s3)) (easts s1)
            /\ leg p (Z.to_nat (sumZ s3)) (easts s1)
               - b * (arm p (Z.to_nat (sumZ s3)) (easts s1) + 1)
               = - (b * (1 + easts s2) - sumZ s2)).
  { intros s1 s2 s3 E. pose proof (path_of_bits p) as Hb. rewrite E in Hb.
    apply bits_app in Hb as [Hs1 Hb]. apply Forall_cons_1 in Hb as [_ Hb].
    apply bits_app in Hb as [Hs2 Hb]. apply Forall_cons_1 in Hb as [_ Hs3].
    pose proof (easts_nonneg _ Hs1). pose proof (easts_nonneg _ Hs2).
    pose proof (bits_sum_nonneg _ Hs3).
    destruct (path_north_row p (s1 ++ 0 :: s2) s3 Hp) as [Hlt Hrow].
    { rewrite E, <- app_assoc. reflexivity. }
    rewrite easts_app, easts_cons in Hrow.
    unfold cell, leg, arm. rewrite Hrow, conjugate_path, E.
    rewrite norths_after_east by exact Hs1.
    rewrite sumZ_app, sumZ_cons. split; [split; [exact Hlt | lia] | lia]. }
  split.
  - intros (i & j & [Hi Hj] & Hz).
    destruct (bits_pick_north (path_of p) (Z.of_nat i) (path_of_bits p)) as (u & s3 & E & Es3).
    { rewrite path_of_sum. lia. }
    destruct (path_north_row p u s3 Hp E) as [_ Hrow].
    rewrite Es3, Nat2Z.id in Hrow.
    pose proof (path_of_bits p) as Hb. rewrite E in Hb. apply bits_app in Hb as [Hu _].
    destruct (bits_pick_east u j Hu) as (s1 & s2 & -> & Es1); [lia|].
    exists s1, s2, s3. rewrite <- app_assoc in E. split; [exact E|].
    destruct (Hkey s1 s2 s3 E) as [_ Heq].
    rewrite Es3, Nat2Z.id, Es1 in Heq. rewrite Heq in Hz.
    apply Z.mod_opp_l_z in Hz; [|exact Hr]. rewrite Z.opp_involutive in Hz. exact Hz.
  - intros (s1 & s2 & s3 & E & Hz).
    destruct (Hkey s1 s2 s3 E) as [Hcell Heq].
    exists (Z.to_nat (sumZ s3)), (easts s1). split; [exact Hcell|].
    rewrite Heq. apply Z.mod_opp_l_z; assumption.
Qed.

(** ** Same-wire pairs and the wires of the abacus *)

Lemma bits_lookup_total (W : list (list Z)) (i : nat) : Forall bits W -> bits (W !!! i).
Proof.
  intros HW. rewrite list_lookup_total_alt.
  destruct (W !! i) as [u|] eqn:E; simpl; [|constructor].
  exact (Forall_lookup_1 bits W i u HW E).
Qed.

Section Pairs.
Context (r b : Z) (Hr : 0 < r) (n : nat) (Hn : n = Z.to_nat r).

Lemma distribute_bits w s : bits s -> Forall bits (distribute r b n w s).
Proof.
  intros Hs. revert w. induction Hs as [|c s Hc Hs IH]; intros w; simpl.
  - apply Forall_replicate. constructor.
  - apply Forall_alter; [apply IH|]. intros u _ Hu. constructor; assumption.
Qed.

Lemma distribute_app w s1 s2 (i : nat) :
  0 <= w < r ->
  distribute r b n w (s1 ++ s2) !!! i
  = distribute r b n w s1 !!! i ++ distribute r b n (adv r b w s1) s2 !!! i.
Proof.
  revert w. induction s1 as [|c s1 IH]; intros w Hw.
  - simpl. rewrite lookup_total_replicate_nil. reflexivity.
  - rewrite <- app_comm_cons. rewrite !distribute_lookup_cons by lia.
    simpl adv. rewrite IH by (apply step_range; exact Hr).
    destruct (decide (Z.to_nat w = i)); reflexivity.
Qed.

Lemma distribute_trace w s (i : nat) a c rest :
  0 <= w < r ->
  distribute r b n w s !!! i = a ++ c :: rest ->
  exists s1 s2,
    s = s1 ++ c :: s2 /\ Z.to_nat (adv r b w s1) = i
    /\ distribute r b n (step r b (adv r b w s1) c) s2 !!! i = rest.
Proof.
  revert w a. induction s as [|c0 s IH]; intros w a Hw H.
  - simpl in H. rewrite lookup_total_replicate_nil in H. destruct a; discriminate.
  - rewrite distribute_lookup_cons in H by lia.
    pose proof (step_range r b Hr w c0) as Hw'.
    destruct (decide (Z.to_nat w = i)) as [Ew | Ew].
    + destruct a as [|a0 a].
      * injection H as -> H. exists [], s. split; [reflexivity|]. split; [exact Ew | exact H].
      * injection H as -> H. destruct (IH _ _ Hw' H) as (s1 & s2 & -> & Ei & Erest).
        exists (a0 :: s1), s2. split; [reflexivity|]. split; assumption.
    + destruct (IH _ _ Hw' H) as (s1 & s2 & -> & Ei & Erest).
      exists (c0 :: s1), s2. split; [reflexivity|]. split; assumption.
Qed.

Lemma adv_back w s2 :
  0 <= w < r -> bits s2 ->
  (adv r b (step r b w 0) s2 = w <-> (b * (1 + easts s2) - sumZ s2) mod r = 0).
Proof.
  intros Hw Hs2.
  pose proof (adv_range r b Hr (step r b w 0) s2 (step_range r b Hr _ _)) as Ha.
  pose proof (adv_closed r b w (0 :: s2) ltac:(constructor; [left; reflexivity | exact Hs2])) as Hc.
  simpl adv in Hc. rewrite Z.mod_small in Hc by exact Ha.
  rewrite easts_cons, sumZ_cons in Hc.
  replace (w + b * (1 - 0 + easts s2) - (0 + sumZ s2))
    with (w + (b * (1 + easts s2) - sumZ s2)) in Hc by lia.
  set (x := b * (1 + easts s2) - sumZ s2) in *. rewrite Hc. split.
  - intros E. replace x with (w + x - w) by lia.
    rewrite Zminus_mod, E, (Z.mod_small w r), Z.sub_diag by lia. apply Zmod_0_l.
  - intros E. rewrite Zplus_mod, E, Z.add_0_r, Zmod_mod. apply Z.mod_small, Hw.
Qed.

(** Some wire holds an east step before a north step exactly when the
    sequence has a same-wire pair. *)
Lemma wires_sorted_iff w s :
  0 <= w < r -> bits s ->
  ((forall i : nat, sorted_wire (distribute r b n w s !!! i))
   <-> ~ same_wire_pair r b s).
Proof.
  intros Hw Hs. split.
  - intros Hsorted (s1 & s2 & s3 & -> & Hz).
    apply bits_app in Hs as [Hs1 Hs]. apply Forall_cons_1 in Hs as [_ Hs].
    apply bits_app in Hs as [Hs2 _].
    pose proof (adv_range r b Hr w s1 Hw) as Hw1.
    apply (Hsorted (Z.to_nat (adv r b w s1))
             (distribute r b n w s1 !!! Z.to_nat (adv r b w s1))
             (distribute r b n (step r b (adv r b w s1) 0) s2 !!! Z.to_nat (adv r b w s1))
             (distribute r b n (step r b (adv r b w s1) 1) s3 !!! Z.to_nat (adv r b w s1))).
    rewrite distribute_app by exact Hw. f_equal.
    rewrite distribute_lookup_cons by lia. rewrite decide_True by reflexivity. f_equal.
    rewrite distribute_app by (apply step_range; exact Hr). f_equal.
    apply (adv_back (adv r b w s1) s2 Hw1 Hs2) in Hz. rewrite Hz.
    rewrite distribute_lookup_cons by lia. rewrite decide_True by reflexivity.
    reflexivity.
  - intros Hno i u1 u2 u3 E. apply Hno.
    destruct (distribute_trace w s i u1 0 _ Hw E) as (s1 & t & -> & Ei & Et).
    pose proof (adv_range r b Hr w s1 Hw) as Hw1.
    destruct (distribute_trace _ t i u2 1 _ (step_range r b Hr _ _) Et)
      as (s2 & s3 & -> & Ei2 & _).
    exists s1, s2, s3. split; [reflexivity|].
    apply bits_app in Hs as [_ Hs]. apply Forall_cons_1 in Hs as [_ Hs].
    apply bits_app in Hs as [Hs2 _].
    apply (adv_back (adv r b w s1) s2 Hw1 Hs2).
    pose proof (adv_range r b Hr (step r b (adv r b w s1) 0) s2 (step_range r b Hr _ _)).
    lia.
Qed.

End Pairs.

Lemma strip_zeros_nil_iff l : strip_zeros l = [] <-> Forall (fun x => x = 0) l.
Proof.
  split.
  - intros H. rewrite (strip_zeros_nil_zeros l H). apply Forall_replicate. reflexivity.
  - induction 1 as [|x l -> _ IH]; [reflexivity|]. simpl. rewrite IH. reflexivity.
Qed.

Lemma parts_from_ge z s x : x ∈ parts_from z s -> z <= x.
Proof.
  revert z. induction s as [|c s IH]; intros z H; [inversion H|].
  simpl in H. destruct (c =? 1).
  - apply elem_of_cons in H as [-> | H]; [lia | apply IH, H].
  - apply IH in H. lia.
Qed.

Lemma sorted_wire_north u : sorted_wire (1 :: u) <-> sorted_wire u.
Proof.
  split; intros H u1 u2 u3 E.
  - apply (H (1 :: u1) u2 u3). rewrite E. reflexivity.
  - destruct u1 as [|c u1]; [discriminate|]. injection E as _ E. exact (H _ _ _ E).
Qed.

Lemma sorted_wire_east u : bits u -> (sorted_wire (0 :: u) <-> sumZ u = 0).
Proof.
  intros Hu. pose proof (bits_sum_nonneg u Hu) as H0. split.
  - intros H. destruct (Z.eq_dec (sumZ u) 0) as [E | E]; [exact E|].
    destruct (bits_pick_north u 0 Hu) as (x & y & -> & _); [lia|].
    exfalso. exact (H [] x y eq_refl).
  - intros E u1 u2 u3 H.
    assert (Hb : bits (0 :: u)) by (constructor; [left; reflexivity | exact Hu]).
    assert (Hs : sumZ (0 :: u) = 0) by (rewrite sumZ_cons; lia).
    rewrite H in Hb, Hs. apply bits_app in Hb as [Hb1 Hb].
    apply Forall_cons_1 in Hb as [_ Hb]. apply bits_app in Hb as [Hb2 Hb].
    apply Forall_cons_1 in Hb as [_ Hb3].
    rewrite sumZ_app, sumZ_cons, sumZ_app, sumZ_cons in Hs.
    pose proof (bits_sum_nonneg _ Hb1). pose proof (bits_sum_nonneg _ Hb2).
    pose proof (bits_sum_nonneg _ Hb3). lia.
Qed.

(** A binary wire decodes to the empty partition exactly when no east step
    comes before a north step on it. *)
Lemma decode_nil_iff u : bits u -> (decode u = [] <-> sorted_wire u).
Proof.
  intros Hu. unfold decode. rewrite strip_zeros_nil_iff, Forall_reverse.
  induction Hu as [|c u Hc Hu IH].
  - split; [intros _ u1 u2 u3 E; destruct u1; discriminate | constructor].
  - destruct Hc as [-> | ->].
    + rewrite sorted_wire_east by exact Hu. simpl. change (0 + 1) with 1.
      pose proof (parts_from_length 1 u Hu) as Hl. split.
      * intros H. destruct (parts_from 1 u) as [|x l] eqn:E; [simpl in Hl; lia|].
        apply Forall_cons_1 in H as [-> _].
        assert (1 <= 0); [|lia]. apply (parts_from_ge 1 u). rewrite E. left.
      * intros E. rewrite E in Hl. destruct (parts_from 1 u); [constructor | simpl in Hl; lia].
    + rewrite sorted_wire_north, <- IH. simpl. split.
      * intros H. apply Forall_cons_1 in H. tauto.
      * intros H. constructor; [reflexivity | exact H].
Qed.

(** [is_G_core] holds exactly when every wire of the abacus decodes to the
    empty partition. *)
Lemma is_G_core_wires p r b n :
  partition p -> 0 < r -> n = Z.to_nat r ->
  (is_G_core p r b = OK true
   <-> forall i : nat,
         decode (distribute r b n (Z.of_nat (length p) mod r) (path_of p) !!! i) = []).
Proof.
  intros Hp Hr Hn.
  rewrite is_G_core_cells by lia.
  pose proof (Z.mod_pos_bound (Z.of_nat (length p)) r Hr) as Hw.
  pose proof (wires_sorted_iff r b Hr n Hn _ (path_of p) Hw (path_of_bits p)) as Hs.
  pose proof (cell_same_wire_pair p r b Hp ltac:(lia)) as Hc.
  assert (Hd : forall i : nat,
             decode (distribute r b n (Z.of_nat (length p) mod r) (path_of p) !!! i) = []
             <-> sorted_wire (distribute r b n (Z.of_nat (length p) mod r) (path_of p) !!! i)).
  { intros i. apply decode_nil_iff, bits_lookup_total, distribute_bits, path_of_bits. }
  split.
  - intros H i. apply Hd. apply Hs. intros Hpair. apply Hc in Hpair as (i' & j & Hcell & Hz).
    exact (H i' j Hcell Hz).
  - intros H i j Hcell Hz.
    assert (Hsorted : forall i, sorted_wire
              (distribute r b n (Z.of_nat (length p) mod r) (path_of p) !!! i))
      by (intros k; apply Hd, H).
    apply Hs in Hsorted. apply Hsorted, Hc. exists i, j. split; assumption.
Qed.

(** ** The loops of the source in closed form *)


Lemma py_index_in_range {A} (l : list A) (k : Z) :
  0 <= k < Z.of_nat (length l) -> py_index l k = OK (Z.to_nat k).
Proof.
  intros H. unfold py_index.
  destruct (Z.leb_spec 0 k), (Z.ltb_spec k (Z.of_nat (length l))); try lia. reflexivity.
Qed.

Lemma py_mod_nonzero a r : r <> 0 -> py_mod a r = OK (a mod r).
Proof. intros H. unfold py_mod. destruct (Z.eqb_spec r 0); [contradiction | reflexivity]. Qed.

Lemma zip_with_app_alter (A B : list (list Z)) (c : Z) (i : nat) :
  zip_with app (alter (fun u => u ++ [c]) i A) B = zip_with app A (alter (cons c) i B).
Proof.
  revert B i. induction A as [|a A IH]; intros B i; [reflexivity|].
  destruct B as [|b' B]; [destruct i; reflexivity|].
  destruct i as [|i]; simpl.
  - rewrite <- app_assoc. reflexivity.
  - f_equal. apply IH.
Qed.

Lemma zip_with_app_nil_l (n : nat) (B : list (list Z)) :
  length B = n -> zip_with app (replicate n []) B = B.
Proof.
  revert B. induction n as [|n IH]; intros [|b' B] H; try discriminate; [reflexivity|].
  simpl. f_equal. apply IH. simpl in H. lia.
Qed.

Lemma zip_with_app_nil_r (A : list (list Z)) :
  zip_with app A (replicate (length A) []) = A.
Proof. induction A as [|a A IH]; [reflexivity|]. simpl. rewrite app_nil_r, IH. reflexivity. Qed.

Section Loops.
Context (r b : Z) (Hr : 0 < r).

Lemma G_abacus_loop_pure s acc w :
  length acc = Z.to_nat r -> 0 <= w < r ->
  G_abacus_loop r b s acc w
  = OK (zip_with app acc (distribute r b (Z.to_nat r) w s)).
Proof.
  revert acc w. induction s as [|c s IH]; intros acc w Hacc Hw.
  - simpl. rewrite <- Hacc, zip_with_app_nil_r. reflexivity.
  - simpl. rewrite py_index_in_range by lia. simpl.
    unfold G_abacus_next. rewrite py_mod_nonzero by lia. simpl.
    fold (step r b w c). rewrite IH.
    + rewrite zip_with_app_alter. reflexivity.
    + rewrite length_alter. exact Hacc.
    + apply step_range. exact Hr.
Qed.

Lemma G_abacus_fast p :
  G_abacus p r b fast
  = OK (distribute r b (Z.to_nat r)
          (sumZ (invert_zero_one (Sage.zero_one_sequence p)) mod r)
          (invert_zero_one (Sage.zero_one_sequence p))).
Proof.
  unfold G_abacus, G_abacus_start. rewrite py_mod_nonzero by lia. simpl.
  rewrite G_abacus_loop_pure.
  - rewrite zip_with_app_nil_l by apply distribute_length. reflexivity.
  - apply length_replicate.
  - apply Z.mod_pos_bound. exact Hr.
Qed.

Lemma G_abacus_partition p :
  partition p ->
  G_abacus p r b fast
  = OK (distribute r b (Z.to_nat r) (Z.of_nat (length p) mod r) (path_of p)).
Proof.
  intros Hp. rewrite G_abacus_fast, invert_zero_one_sequence, path_of_sum by exact Hp.
  reflexivity.
Qed.

Lemma from_G_abacus_loop_pure fuel total W path north w :
  length W = Z.to_nat r -> 0 <= w < r ->
  from_G_abacus_loop fuel r b total W path north w
  = (fun x => OK (path ++ x)) <$> collect fuel r b W w (total - north).
Proof.
  revert W path north w. induction fuel as [|fuel IH]; intros W path north w HW Hw.
  - simpl. destruct (Z.ltb_spec north total), (Z.ltb_spec 0 (total - north)); try lia.
    + reflexivity.
    + simpl. rewrite app_nil_r. reflexivity.
  - destruct (Z.ltb_spec 0 (total - north)) as [Hpos | Hneg].
    + rewrite collect_step by exact Hpos. simpl.
      destruct (Z.ltb_spec north total); [|lia].
      rewrite py_index_in_range by lia.
      assert (Hpop : match W !!! Z.to_nat w with
                     | code :: _ => (code, alter (drop 1) (Z.to_nat w) W)
                     | [] => (0, W)
                     end
                     = (hd 0 (W !!! Z.to_nat w), alter (drop 1) (Z.to_nat w) W)).
      { destruct (W !!! Z.to_nat w) as [|c u] eqn:E; [|reflexivity].
        rewrite alter_drop1_empty by exact E. reflexivity. }
      rewrite Hpop. unfold from_G_abacus_next. rewrite py_mod_nonzero by lia.
      fold (step r b w (hd 0 (W !!! Z.to_nat w))).
      rewrite IH; [|rewrite length_alter; exact HW | apply step_range; exact Hr].
      replace (total - (north + hd 0 (W !!! Z.to_nat w)))
        with (total - north - hd 0 (W !!! Z.to_nat w)) by lia.
      destruct (collect fuel r b _ _ _) as [x|]; [|reflexivity].
      simpl. rewrite <- app_assoc. reflexivity.
    + rewrite collect_done by lia. simpl.
      destruct (Z.ltb_spec north total); [lia|]. simpl. rewrite app_nil_r. reflexivity.
Qed.

(** [from_G_abacus] on [r] wires: merge, then decode. *)
Lemma from_G_abacus_pure fuel W :
  Z.gcd r b = 1 -> length W = Z.to_nat r ->
  from_G_abacus fuel W (Some r) b
  = (fun x => OK (decode x)) <$> collect fuel r b W (total_ones W mod r) (total_ones W).
Proof.
  intros Hg HW. unfold from_G_abacus, Sage.gcd. rewrite Hg. simpl.
  unfold from_G_abacus_start. rewrite py_mod_nonzero by lia.
  rewrite from_G_abacus_loop_pure; [|exact HW | apply Z.mod_pos_bound; exact Hr].
  fold (total_ones W). rewrite Z.sub_0_r.
  destruct (collect fuel r b _ _ _) as [x|]; [|reflexivity].
  simpl. rewrite from_zero_one_invert. reflexivity.
Qed.

Lemma from_G_abacus_inferred fuel W :
  r = Z.of_nat (length W) -> from_G_abacus fuel W None b = from_G_abacus fuel W (Some r) b.
Proof. intros ->. reflexivity. Qed.

Lemma sumZ_imap_sub (E : list Z) (W : list (list Z)) :
  length E = length W ->
  sumZ (imap (fun i wire => E !!! i - sumZ wire) W) = sumZ E - total_ones W.
Proof.
  unfold total_ones. revert E. induction W as [|u W IH]; intros [|e E] H; try discriminate.
  - reflexivity.
  - rewrite imap_cons, fmap_cons, !sumZ_cons.
    change ((e :: E) !!! O) with e.
    rewrite (imap_ext _ (fun i wire => E !!! i - sumZ wire)) by reflexivity.
    rewrite IH by (simpl in H; lia). lia.
Qed.

Lemma G_charges_of_abacus p A :
  G_abacus p r b fast = OK A -> length A = Z.to_nat r ->
  G_charges p r b = OK (charges_of r A) /\ sumZ (charges_of r A) = 0.
Proof.
  intros HA Hlen. unfold G_charges. rewrite HA. simpl.
  fold (total_ones A).
  assert (Hch : imap (fun i wire => expected_north_steps (total_ones A) r !!! i - sumZ wire) A
                = charges_of r A).
  { unfold charges_of. apply imap_ext. intros i u Hu. f_equal.
    apply expected_north_steps_lookup; [exact Hr|].
    apply lookup_lt_Some in Hu. lia. }
  assert (Hsum : sumZ (charges_of r A) = 0).
  { rewrite <- Hch, sumZ_imap_sub.
    - rewrite expected_north_steps_sum by exact Hr. lia.
    - rewrite expected_north_steps_length by exact Hr. lia. }
  rewrite expected_north_steps_sum by exact Hr. rewrite Z.eqb_refl. simpl.
  rewrite Hch, Hsum. simpl. split; reflexivity.
Qed.

Lemma res_map_decode (A : list (list Z)) :
  res_map (fun wire => Sage.from_zero_one (invert_zero_one wire)) A = OK (decode <$> A).
Proof.
  induction A as [|u A IH]; [reflexivity|].
  simpl. rewrite from_zero_one_invert. simpl. rewrite IH. reflexivity.
Qed.

Lemma G_quotient_of_abacus p A :
  G_abacus p r b fast = OK A -> G_quotient_list p r b false = OK (decode <$> A).
Proof.
  intros HA. unfold G_quotient_list. rewrite HA. simpl. rewrite res_map_decode. reflexivity.
Qed.

End Loops.

(** ** The abacus built from charges and a quotient *)


Lemma prepend_charges_zip c_max c D :
  length c = length D ->
  prepend_charges c_max c D
  = zip_with (fun ci w => replicate (Z.to_nat (c_max - ci)) 1 ++ w) c D.
Proof.
  unfold prepend_charges. revert c. induction D as [|u D IH]; intros [|ci c] H; try discriminate.
  - reflexivity.
  - rewrite imap_cons. simpl. f_equal. rewrite <- IH by (simpl in H; lia).
    apply imap_ext. reflexivity.
Qed.

Lemma prepend_charges_length c_max c D : length (prepend_charges c_max c D) = length D.
Proof. unfold prepend_charges. apply length_imap. Qed.

Lemma prepend_charges_lookup c_max c D (i : nat) :
  (i < length D)%nat ->
  prepend_charges c_max c D !!! i
  = replicate (Z.to_nat (c_max - c !!! i)) 1 ++ D !!! i.
Proof.
  intros Hi. apply list_lookup_total_correct. unfold prepend_charges.
  rewrite list_lookup_imap, (list_lookup_lookup_total_lt D i Hi). reflexivity.
Qed.

Lemma prepend_charges_sums c_max c D :
  length c = length D -> Forall (fun ci => ci <= c_max) c ->
  total_ones (prepend_charges c_max c D)
  = Z.of_nat (length D) * c_max - sumZ c + total_ones D
  /\ sumZ ((fun wire => Z.of_nat (length wire)) <$> prepend_charges c_max c D)
     = Z.of_nat (length D) * c_max - sumZ c
       + sumZ ((fun wire => Z.of_nat (length wire)) <$> D).
Proof.
  intros Hlen Hc. rewrite prepend_charges_zip by exact Hlen. unfold total_ones.
  revert D Hlen. induction Hc as [|ci c Hci Hc IH]; intros [|u D] Hlen; try discriminate.
  - split; reflexivity.
  - destruct (IH D ltac:(simpl in Hlen; lia)) as [IH1 IH2].
    simpl zip_with. rewrite !fmap_cons, !sumZ_cons, IH1, IH2.
    rewrite sumZ_app, sumZ_replicate, length_app, length_replicate. simpl length. lia.
Qed.

Lemma py_max_some l : l <> [] -> exists m, py_max l = OK m.
Proof. destruct l; [contradiction|]. eexists. reflexivity. Qed.

Lemma py_max_sum_zero c m :
  py_max c = OK m -> sumZ c = 0 -> 0 <= m.
Proof.
  intros Hm Hs. destruct (Z.le_gt_cases 0 m) as [|Hneg]; [assumption|]. exfalso.
  assert (H : forall l, Forall (fun x => x <= m) l -> l <> [] -> sumZ l < 0).
  { induction 1 as [|x l Hx Hl IH]; intros Hne; [contradiction|].
    rewrite sumZ_cons. destruct l as [|y l]; [rewrite sumZ_nil; lia|].
    specialize (IH ltac:(discriminate)). lia. }
  assert (Hc : sumZ c < 0); [|lia].
  apply H.
  - apply Forall_forall. intros y Hy. apply list_elem_of_In in Hy. exact (py_max_ge c m y Hm Hy).
  - destruct c; [discriminate Hm | discriminate].
Qed.

Section Rebuild.
Context (r : Z) (Hr : 0 < r).

(** The abacus that [from_G_charges_and_quotient] builds, and its two
    symbol counts. *)
Lemma charges_and_quotient_abacus_some c q :
  length c = Z.to_nat r -> sumZ c = 0 ->
  length q = Z.to_nat r -> Forall partition q ->
  exists n c_max,
    charges_and_quotient_abacus c (Some (Sage.Tuple q)) r
    = OK (n, c_max,
          prepend_charges c_max c ((fun mu => Sage.to_dyck_word mu (Some n)) <$> q))
    /\ py_max c = OK c_max /\ 0 <= n
    /\ Forall (fun mu => Z.of_nat (length mu) <= n /\ hd 0 mu <= n) q
    /\ sumZ ((fun wire => Z.of_nat (length wire))
               <$> prepend_charges c_max c ((fun mu => Sage.to_dyck_word mu (Some n)) <$> q))
       = r * (2 * n + c_max)
    /\ total_ones (prepend_charges c_max c ((fun mu => Sage.to_dyck_word mu (Some n)) <$> q))
       = r * (n + c_max)
    /\ exists m,
         py_max ((fun mu => Z.of_nat (length (Sage.to_dyck_word mu None))) <$> q) = OK m
         /\ n = m / 2.
Proof.
  intros Hc Hsum Hq Hpart.
  destruct (py_max_some c) as [c_max Hmax]; [destruct c; [simpl in Hc; lia | discriminate]|].
  destruct (py_max_some ((fun mu => Z.of_nat (length (Sage.to_dyck_word mu None))) <$> q))
    as [m Hm]; [destruct q; [simpl in Hq; lia | discriminate]|].
  set (n := m / 2).
  assert (Hn : 0 <= n /\ Forall (fun mu => Z.of_nat (length mu) <= n /\ hd 0 mu <= n) q).
  { pose proof (py_max_in _ _ Hm) as Hin.
    apply list_elem_of_fmap in Hin as (mu0 & Hm0 & Hmu0).
    assert (Hp0 : partition mu0).
    { apply list_elem_of_In in Hmu0. eapply Forall_forall in Hpart; eauto. }
    destruct (to_dyck_word_none mu0 Hp0) as (M0 & _ & HM0 & HM0a & HM0b).
    assert (En : n = M0).
    { unfold n. rewrite Hm0, HM0, Z.mul_comm. apply Z_div_mult. lia. }
    split; [lia|]. apply Forall_forall. intros mu Hmu.
    assert (Hpm : partition mu) by (eapply Forall_forall in Hpart; eauto).
    apply list_elem_of_In in Hmu.
    destruct (to_dyck_word_none mu Hpm) as (M & _ & HM & HMa & HMb).
    assert (2 * M <= m).
    { rewrite <- HM. eapply py_max_ge; [exact Hm|].
      apply list_elem_of_fmap. exists mu. split; [reflexivity | exact Hmu]. }
    lia. }
  destruct Hn as [Hn0 Hn].
  set (D := (fun mu => Sage.to_dyck_word mu (Some n)) <$> q).
  assert (HD : length c = length D) by (unfold D; rewrite length_fmap; lia).
  assert (Hle : Forall (fun ci => ci <= c_max) c).
  { apply Forall_forall. intros ci Hci. apply list_elem_of_In in Hci.
    exact (py_max_ge c c_max ci Hmax Hci). }
  destruct (prepend_charges_sums c_max c D HD Hle) as [Hones Hsyms].
  assert (HDones : total_ones D = Z.of_nat (length D) * n).
  { unfold D, total_ones. clear -Hn. induction Hn as [|mu q [Hmu _] _ IH]; [reflexivity|].
    rewrite !fmap_cons, sumZ_cons, IH, to_dyck_word_sum by exact Hmu.
    simpl length. lia. }
  assert (HDsyms : sumZ ((fun wire => Z.of_nat (length wire)) <$> D)
                   = Z.of_nat (length D) * (2 * n)).
  { unfold D. clear -Hn Hpart. induction Hn as [|mu q [Hmu Hmu'] _ IH]; [reflexivity|].
    apply Forall_cons_1 in Hpart as [Hp Hpart].
    rewrite !fmap_cons, sumZ_cons, IH, to_dyck_word_length by assumption.
    simpl length. lia. }
  assert (HlenD : Z.of_nat (length D) = r) by lia.
  exists n, c_max. fold D.
  split; [|split; [exact Hmax | split; [exact Hn0 | split; [exact Hn | split; [|split]]]]].
  - unfold charges_and_quotient_abacus.
    replace (Z.of_nat (length c) =? r) with true by (symmetry; apply Z.eqb_eq; lia).
    simpl. rewrite Hsum. simpl.
    replace (Z.of_nat (length q) =? r) with true by (symmetry; apply Z.eqb_eq; lia).
    simpl. rewrite Hm. simpl. rewrite Hmax. simpl.
    fold n. fold D. fold (prepend_charges c_max c D).
    fold (total_ones (prepend_charges c_max c D)).
    rewrite Hsyms, HDsyms, Hsum, HlenD.
    replace (r * c_max - 0 + r * (2 * n) =? r * (2 * n + c_max)) with true
      by (symmetry; apply Z.eqb_eq; lia).
    simpl. rewrite Hones, HDones, Hsum, HlenD.
    replace (r * c_max - 0 + r * n =? r * (n + c_max)) with true
      by (symmetry; apply Z.eqb_eq; lia).
    reflexivity.
  - rewrite Hsyms, HDsyms, Hsum, HlenD. lia.
  - rewrite Hones, HDones, Hsum, HlenD. lia.
  - exists m. split; [exact Hm | reflexivity].
Qed.

(** Without a quotient the abacus is the one of the quotient of empty
    partitions. *)
Lemma charges_and_quotient_abacus_none c :
  length c = Z.to_nat r ->
  charges_and_quotient_abacus c None r
  = charges_and_quotient_abacus c (Some (Sage.Tuple (replicate (Z.to_nat r) []))) r.
Proof.
  intros Hc. unfold charges_and_quotient_abacus.
  destruct (py_assert (Z.of_nat (length c) =? r) ShapeMismatch); [|reflexivity]. simpl.
  destruct (py_assert (sumZ c =? 0) ChargeImbalance); [|reflexivity]. simpl.
  rewrite length_replicate.
  replace (Z.of_nat (Z.to_nat r) =? r) with true by (symmetry; apply Z.eqb_eq; lia).
  simpl.
  assert (Hm : py_max ((fun mu => Z.of_nat (length (Sage.to_dyck_word mu None)))
                         <$> replicate (Z.to_nat r) []) = OK 0).
  { rewrite fmap_replicate. simpl. destruct (Z.to_nat r) as [|k] eqn:E; [lia|].
    simpl. f_equal. clear. induction k; simpl; [reflexivity | lia]. }
  rewrite Hm. simpl. rewrite fmap_replicate. reflexivity.
Qed.

End Rebuild.

(** ** Rebuilding a partition from its charges and its quotient *)

Lemma strip_zeros_ones_app k x :
  strip_zeros (replicate k 1 ++ x) = replicate k 1 ++ strip_zeros x.
Proof.
  induction k as [|k IH]; [reflexivity|].
  simpl replicate. rewrite <- !app_comm_cons, strip_zeros_nonzero_cons by lia.
  rewrite IH. reflexivity.
Qed.

Lemma last_ones_app k s : List.last s 1 = 1 -> List.last (replicate k 1 ++ s) 1 = 1.
Proof.
  intros H. induction k as [|k IH]; [exact H|].
  simpl replicate. rewrite <- app_comm_cons.
  destruct (replicate k 1 ++ s) as [|y t] eqn:E; [reflexivity | exact IH].
Qed.

Lemma path_of_head p : partition p -> p <> [] -> exists s, path_of p = 0 :: s.
Proof.
  induction 1 as [|a p Ha Hhd Hp IH]; intros Hne; [contradiction|].
  simpl path_of. destruct p as [|x p].
  - simpl. replace (Z.to_nat (a - 0)) with (S (Z.to_nat (a - 1))) by lia.
    simpl. eexists. reflexivity.
  - destruct IH as [s Hs]; [discriminate|]. rewrite Hs. simpl. eexists. reflexivity.
Qed.

Lemma charges_of_length r W : length (charges_of r W) = length W.
Proof. unfold charges_of. apply length_imap. Qed.

Lemma charges_of_lookup r W (i : nat) :
  (i < length W)%nat ->
  charges_of r W !!! i = expected_at r (total_ones W) (Z.of_nat i) - sumZ (W !!! i).
Proof.
  intros Hi. apply list_lookup_total_correct. unfold charges_of.
  rewrite list_lookup_imap, (list_lookup_lookup_total_lt W i Hi). reflexivity.
Qed.

Lemma lookup_total_ge_nil (W : list (list Z)) (i : nat) :
  (length W <= i)%nat -> W !!! i = [].
Proof. intros H. rewrite list_lookup_total_alt, lookup_ge_None_2 by exact H. reflexivity. Qed.

Section Reconstruct.
Context (r b : Z) (Hr : 0 < r) (Hg : Z.gcd r b = 1).

Let n := Z.to_nat r.

Lemma expected_at_own_wire T :
  T <= r * expected_at r T (T mod r).
Proof.
  unfold expected_at. pose proof (Z.mod_pos_bound T r Hr) as Hm.
  pose proof (Z.div_mod T r ltac:(lia)) as HT.
  destruct (Z.ltb_spec 0 (T mod r)), (Z.leb_spec (T mod r) (T mod r)); simpl; try lia.
Qed.

Section Wires.
Context (p : list Z) (Hp : partition p).
Let T := Z.of_nat (length p).
Let A := distribute r b n (T mod r) (path_of p).
Context (c_max nq : Z) (Hmax : py_max (charges_of r A) = OK c_max) (Hnq : 0 <= nq)
        (Hdyck : Forall (fun mu => Z.of_nat (length mu) <= nq /\ hd 0 mu <= nq)
                        (decode <$> A)).
Let F := prepend_charges c_max (charges_of r A)
           ((fun mu => Sage.to_dyck_word mu (Some nq)) <$> (decode <$> A)).

Lemma wires_length : length A = n.
Proof. apply distribute_length. Qed.

Lemma wires_bits : Forall bits A.
Proof. apply distribute_bits, path_of_bits. Qed.

Lemma wires_total : total_ones A = T.
Proof.
  unfold A. rewrite distribute_total_ones; [apply path_of_sum | exact Hr | reflexivity|].
  apply Z.mod_pos_bound. exact Hr.
Qed.

Lemma wires_charges_sum : sumZ (charges_of r A) = 0.
Proof.
  destruct (G_charges_of_abacus r b Hr p A) as [_ H]; [|apply wires_length | exact H].
  apply G_abacus_partition; assumption.
Qed.

Lemma wire_data (i : nat) :
  (i < n)%nat ->
  exists l : nat,
    strip_zeros (A !!! i) = replicate l 1 ++ path_of (decode (A !!! i))
    /\ Z.of_nat l = sumZ (A !!! i) - Z.of_nat (length (decode (A !!! i)))
    /\ charges_of r A !!! i = expected_at r T (Z.of_nat i) - sumZ (A !!! i)
    /\ charges_of r A !!! i <= c_max
    /\ Z.of_nat (length (decode (A !!! i))) <= nq
    /\ F !!! i = replicate (Z.to_nat (c_max - charges_of r A !!! i)) 1
                 ++ Sage.to_dyck_word (decode (A !!! i)) (Some nq).
Proof.
  intros Hi. pose proof wires_length as HlA.
  destruct (strip_zeros_decode (A !!! i)) as (l & Hl1 & Hl2);
    [apply bits_lookup_total, wires_bits|].
  exists l. split; [exact Hl1|]. split; [exact Hl2|].
  split; [rewrite charges_of_lookup, wires_total by lia; reflexivity|].
  split.
  { eapply py_max_ge; [exact Hmax|]. apply list_elem_of_lookup_total_2.
    rewrite charges_of_length. lia. }
  assert (Hq : (decode <$> A) !!! i = decode (A !!! i)).
  { apply list_lookup_total_correct. rewrite list_lookup_fmap.
    rewrite (list_lookup_lookup_total_lt A i) by lia. reflexivity. }
  split.
  { assert (Hin : decode (A !!! i) ∈ decode <$> A).
    { rewrite <- Hq. apply list_elem_of_lookup_total_2. rewrite length_fmap. lia. }
    apply list_elem_of_In in Hin. eapply Forall_forall in Hdyck; [|exact Hin].
    tauto. }
  unfold F. rewrite prepend_charges_lookup by (rewrite !length_fmap; lia).
  f_equal. apply list_lookup_total_correct. rewrite list_lookup_fmap.
  rewrite (list_lookup_lookup_total_lt (decode <$> A) i) by (rewrite length_fmap; lia).
  rewrite Hq. reflexivity.
Qed.

Lemma rebuilt_length : length F = n.
Proof. unfold F. rewrite prepend_charges_length, !length_fmap. apply wires_length. Qed.

Lemma c_max_nonneg : 0 <= c_max.
Proof. eapply py_max_sum_zero; [exact Hmax | apply wires_charges_sum]. Qed.

(** The rebuilt abacus holds at least as many ones as the abacus of [p]. *)
Lemma rebuilt_ones_bound : T <= r * (nq + c_max).
Proof.
  pose proof c_max_nonneg as Hc0.
  destruct (decide (p = [])) as [-> | Hne]; [unfold T; simpl; nia|].
  destruct (path_of_head p Hp Hne) as [s Hs].
  pose proof (Z.mod_pos_bound T r Hr) as Hw.
  destruct (wire_data (Z.to_nat (T mod r)) ltac:(unfold n; lia))
    as (l & Hl1 & Hl2 & Hc & Hcm & Hq & _).
  assert (Hl0 : l = O).
  { unfold A in Hl1 at 1. rewrite Hs, distribute_lookup_cons in Hl1 by (unfold n; lia).
    rewrite decide_True in Hl1 by reflexivity.
    destruct l as [|l]; [reflexivity|]. exfalso.
    destruct (strip_zeros_cons 0 (distribute r b n (step r b (T mod r) 0) s
                                    !!! Z.to_nat (T mod r))) as [(_ & _ & E) | E];
      rewrite E in Hl1; discriminate. }
  subst l. rewrite Z2Nat.id in Hc by lia.
  pose proof (expected_at_own_wire T). nia.
Qed.

(** Up to trailing zeros, the rebuilt abacus is the abacus of the path of
    [p] with north steps in front. *)
Lemma rebuilt_wires :
  exists K : nat,
    T + Z.of_nat K = r * (nq + c_max)
    /\ wires_eqv F (distribute r b n ((T + Z.of_nat K) mod r)
                      (replicate K 1 ++ path_of p)).
Proof.
  pose proof rebuilt_ones_bound as Hb.
  exists (Z.to_nat (r * (nq + c_max) - T)). split; [lia|].
  set (K := Z.to_nat (r * (nq + c_max) - T)).
  intros i. destruct (Nat.lt_ge_cases i n) as [Hi | Hi].
  - rewrite distribute_ones by (try exact Hr; try reflexivity; exact Hi).
    fold A. rewrite strip_zeros_ones_app.
    destruct (wire_data i Hi) as (l & Hl1 & Hl2 & Hc & Hcm & Hq & HF).
    rewrite HF, Hl1, to_dyck_word_some.
    rewrite !strip_zeros_ones_app, strip_zeros_app_zeros.
    rewrite (strip_zeros_last (path_of _)) by (rewrite path_of_last; lia).
    rewrite !app_assoc, <- !replicate_add. f_equal. f_equal.
    replace (T + Z.of_nat K) with (r * (nq + c_max)) by (unfold K; lia).
    rewrite expected_at_multiple by (try exact Hr; unfold n in Hi; lia).
    pose proof (expected_at_add r Hr T K (Z.of_nat i) ltac:(unfold n in Hi; lia)) as Hmono.
    replace (T + Z.of_nat K) with (r * (nq + c_max)) in Hmono by (unfold K; lia).
    rewrite expected_at_multiple in Hmono by (try exact Hr; unfold n in Hi; lia).
    lia.
  - rewrite !lookup_total_ge_nil; [reflexivity | rewrite distribute_length; exact Hi|].
    rewrite rebuilt_length. exact Hi.
Qed.

(** Merging the rebuilt abacus and decoding gives [p] back. *)
Lemma rebuilt_from_G_abacus :
  total_ones F = r * (nq + c_max) ->
  exists fuel0, forall fuel, (fuel0 <= fuel)%nat ->
    from_G_abacus fuel F (Some r) b = Some (OK p).
Proof.
  intros HT. destruct rebuilt_wires as (K & HK & Heqv).
  exists (length (replicate K 1 ++ path_of p)). intros fuel Hfuel.
  rewrite from_G_abacus_pure by (try assumption; apply rebuilt_length).
  rewrite HT, <- HK.
  rewrite (collect_eqv r b fuel _ _ _ _ Heqv).
  assert (Hbits : bits (replicate K 1 ++ path_of p)).
  { apply bits_app. split; [apply bits_replicate; right; reflexivity | apply path_of_bits]. }
  assert (Hsum : sumZ (replicate K 1 ++ path_of p) = T + Z.of_nat K).
  { rewrite sumZ_app, sumZ_replicate, path_of_sum. unfold T. lia. }
  pose proof (collect_distribute r b Hr n ((T + Z.of_nat K) mod r)
                (replicate K 1 ++ path_of p) eq_refl
                (Z.mod_pos_bound _ r Hr) Hbits
                (last_ones_app K _ (path_of_last p))) as Hcol.
  rewrite Hsum in Hcol.
  rewrite (collect_mono r b _ fuel _ _ _ _ Hcol Hfuel). simpl.
  rewrite decode_ones, decode_path_of by exact Hp. reflexivity.
Qed.

End Wires.

End Reconstruct.

(** ** The core *)

Lemma replicate_ones_inv (k l : nat) (x : list Z) :
  bits x -> replicate k 1 ++ x = replicate l 1 -> easts x = 0 /\ Z.of_nat k + sumZ x = Z.of_nat l.
Proof.
  intros Hx E. split.
  - apply (f_equal easts) in E. rewrite easts_app, !easts_replicate_one in E. lia.
  - apply (f_equal sumZ) in E. rewrite sumZ_app, !sumZ_replicate in E. lia.
Qed.

Section Core.
Context (r b : Z) (Hr : 0 < r) (Hg : Z.gcd r b = 1).

Let n := Z.to_nat r.

Section CoreAbacus.
Context (c : list Z) (c_max : Z) (Hlen : length c = n) (Hsum : sumZ c = 0)
        (Hmax : py_max c = OK c_max).

Let B := prepend_charges c_max c (replicate n []).

Lemma core_abacus_length : length B = n.
Proof. unfold B. rewrite prepend_charges_length. apply length_replicate. Qed.

Lemma charges_le_max : Forall (fun ci => ci <= c_max) c.
Proof.
  apply Forall_forall. intros ci Hci. apply list_elem_of_In in Hci.
  exact (py_max_ge c c_max ci Hmax Hci).
Qed.

Lemma core_abacus_sums :
  total_ones B = r * c_max
  /\ sumZ ((fun wire => Z.of_nat (length wire)) <$> B) = r * c_max.
Proof.
  destruct (prepend_charges_sums c_max c (replicate n []))
    as [H1 H2]; [rewrite length_replicate; exact Hlen | exact charges_le_max|].
  fold B in H1, H2. rewrite H1, H2, Hsum, length_replicate.
  assert (E1 : total_ones (replicate n []) = 0).
  { unfold total_ones. rewrite fmap_replicate. rewrite sumZ_replicate, sumZ_nil. lia. }
  assert (E2 : sumZ ((fun wire : list Z => Z.of_nat (length wire)) <$> replicate n []) = 0).
  { rewrite fmap_replicate, sumZ_replicate. simpl. lia. }
  rewrite E1, E2. unfold n. split; lia.
Qed.

Lemma core_abacus_lookup (i : nat) :
  (i < n)%nat -> B !!! i = replicate (Z.to_nat (c_max - c !!! i)) 1.
Proof.
  intros Hi. unfold B. rewrite prepend_charges_lookup by (rewrite length_replicate; exact Hi).
  rewrite lookup_total_replicate_nil, app_nil_r. reflexivity.
Qed.

Lemma core_abacus_bits : Forall bits B.
Proof.
  apply Forall_forall. intros u Hu. apply list_elem_of_In in Hu.
  apply list_elem_of_lookup_total_1 in Hu as (i & Hi & <-).
  rewrite core_abacus_length in Hi. rewrite core_abacus_lookup by exact Hi.
  apply bits_replicate. right. reflexivity.
Qed.

(** The abacus that [G_core] merges. *)
Lemma charges_and_quotient_abacus_core :
  charges_and_quotient_abacus c None r = OK (0, c_max, B).
Proof.
  destruct core_abacus_sums as [H1 H2]. unfold charges_and_quotient_abacus.
  replace (Z.of_nat (length c) =? r) with true by (symmetry; apply Z.eqb_eq; lia).
  simpl. rewrite Hsum. simpl. rewrite Hmax. simpl.
  fold n. fold (prepend_charges c_max c (replicate n [])). fold B.
  fold (total_ones B). rewrite H1, H2.
  replace (r * c_max =? r * (2 * 0 + c_max)) with true by (symmetry; apply Z.eqb_eq; lia).
  simpl.
  replace (r * c_max =? r * (0 + c_max)) with true by (symmetry; apply Z.eqb_eq; lia).
  reflexivity.
Qed.

(** Whatever the merge of that abacus reads decodes to a partition whose
    own abacus has only empty quotients and the charges [c]. *)
Lemma core_of_charges fuel x :
  collect fuel r b B (total_ones B mod r) (total_ones B) = Some x ->
  (forall i : nat,
      decode (distribute r b n (Z.of_nat (length (decode x)) mod r)
                (path_of (decode x)) !!! i) = [])
  /\ charges_of r (distribute r b n (Z.of_nat (length (decode x)) mod r)
                     (path_of (decode x))) = c.
Proof.
  intros Hx. destruct core_abacus_sums as [HT _].
  pose proof (py_max_sum_zero c c_max Hmax Hsum) as Hc0.
  destruct (collect_output r b fuel B _ _ x core_abacus_bits Hx) as (Hbx & Hlast & Hsx).
  specialize (Hsx ltac:(rewrite HT; nia)).
  pose proof (distribute_collect r b Hr fuel n B _ x eq_refl core_abacus_length core_abacus_bits
                (Z.mod_pos_bound _ r Hr) Hx) as Heqv.
  destruct (strip_zeros_decode x Hbx) as (l & Hl1 & Hl2).
  rewrite strip_zeros_last in Hl1 by lia.
  set (core := decode x) in *.
  set (Tc := Z.of_nat (length core)).
  assert (HTB : total_ones B = Tc + Z.of_nat l) by (unfold Tc; lia).
  set (Ac := distribute r b n (Tc mod r) (path_of core)).
  assert (HAc : length Ac = n) by apply distribute_length.
  assert (HAcT : total_ones Ac = Tc).
  { unfold Ac. rewrite distribute_total_ones; [apply path_of_sum | exact Hr | reflexivity|].
    apply Z.mod_pos_bound. exact Hr. }
  assert (Hwire : forall i : nat, (i < n)%nat ->
             decode (Ac !!! i) = []
             /\ c !!! i = expected_at r Tc (Z.of_nat i) - sumZ (Ac !!! i)).
  { intros i Hi. specialize (Heqv i).
    rewrite HTB, Hl1 in Heqv.
    rewrite distribute_ones in Heqv by (try exact Hr; try reflexivity; exact Hi).
    fold Ac in Heqv. rewrite core_abacus_lookup in Heqv by exact Hi.
    rewrite strip_zeros_ones_app in Heqv.
    rewrite (strip_zeros_last (replicate _ 1)) in Heqv
      by (rewrite <- (app_nil_r (replicate _ 1)), last_ones_app by reflexivity; lia).
    assert (HbAc : bits (Ac !!! i)) by (apply bits_lookup_total, distribute_bits, path_of_bits).
    destruct (strip_zeros_decode (Ac !!! i) HbAc) as (l' & Hl1' & Hl2').
    rewrite Hl1', app_assoc, <- replicate_add in Heqv.
    apply replicate_ones_inv in Heqv; [|apply path_of_bits].
    destruct Heqv as [He Hs].
    pose proof (path_of_nil_inv _ (decode_partition (Ac !!! i)) He) as Hq.
    split; [exact Hq|].
    rewrite Hq in Hs, Hl2'. simpl in Hs, Hl2'. rewrite sumZ_nil in Hs.
    pose proof (expected_at_add r Hr Tc l (Z.of_nat i) ltac:(unfold n in Hi; lia)) as Hmono.
    rewrite <- HTB, HT in Hs, Hmono.
    rewrite expected_at_multiple in Hs, Hmono by (try exact Hr; unfold n in Hi; lia).
    assert (Hci : c !!! i <= c_max).
    { apply (py_max_ge c c_max _ Hmax). apply list_elem_of_lookup_total_2. lia. }
    lia. }
  split.
  - intros i. destruct (Nat.lt_ge_cases i n) as [Hi | Hi]; [apply Hwire, Hi|].
    fold Tc Ac. rewrite lookup_total_ge_nil by lia. reflexivity.
  - fold Tc Ac. apply (list_eq_same_length _ _ n); [exact Hlen | rewrite charges_of_length; exact HAc|].
    intros i y z Hi Hy Hz.
    apply list_lookup_total_correct in Hy, Hz. subst y z.
    rewrite charges_of_lookup, HAcT by lia. symmetry. apply Hwire, Hi.
Qed.

(** [from_G_charges_and_quotient] without a quotient comes to an end. *)
Lemma core_terminates :
  exists x,
    collect (n * symbols B) r b B (total_ones B mod r) (total_ones B) = Some x
    /\ forall fuel, (n * symbols B <= fuel)%nat ->
         from_G_charges_and_quotient fuel c None r b = Some (OK (decode x)).
Proof.
  destruct (collect_terminates r b Hr B (total_ones B mod r) Hg core_abacus_length
              (Z.mod_pos_bound _ r Hr)) as [x Hx].
  exists x. split; [exact Hx|]. intros fuel Hfuel.
  unfold from_G_charges_and_quotient. rewrite charges_and_quotient_abacus_core.
  rewrite from_G_abacus_pure by (try assumption; apply core_abacus_length).
  rewrite (collect_mono r b _ fuel _ _ _ x Hx Hfuel). reflexivity.
Qed.

End CoreAbacus.

End Core.

(** ** The round trips *)


Lemma count_ones_sum s : bits s -> count_ones s = sumZ s.
Proof.
  unfold count_ones. induction 1 as [|c s Hc Hs IH]; [reflexivity|].
  rewrite filter_cons, sumZ_cons. destruct Hc as [-> | ->].
  - rewrite decide_False by lia. lia.
  - rewrite decide_True by reflexivity. simpl length. lia.
Qed.

Lemma expected_at_spec r T i : 0 <= i -> expected_at r T i = expected_spec T r i.
Proof.
  intros Hi. unfold expected_at, expected_spec.
  destruct (Z.eqb_spec i 0) as [-> | Hne].
  - simpl. lia.
  - destruct (Z.ltb_spec 0 i); [|lia]. simpl.
    destruct (i <=? T mod r); lia.
Qed.

Section RoundTrips.
Context (r b : Z) (Hr : 0 < r).

Let n := Z.to_nat r.

Lemma from_G_abacus_mono fuel fuel' W res :
  length W = n ->
  from_G_abacus fuel W (Some r) b = Some res -> (fuel <= fuel')%nat ->
  from_G_abacus fuel' W (Some r) b = Some res.
Proof.
  intros HW H Hle. unfold from_G_abacus in *.
  destruct (negb (Sage.gcd r b =? 1)); [exact H|].
  destruct (from_G_abacus_start r W) as [w|e] eqn:Ew; [|exact H].
  unfold from_G_abacus_start in Ew. rewrite py_mod_nonzero in Ew by lia.
  injection Ew as <-.
  rewrite from_G_abacus_loop_pure in H |- *
    by (try exact Hr; try exact HW; apply Z.mod_pos_bound; exact Hr).
  destruct (collect fuel r b _ _ _) as [x|] eqn:E; [|discriminate].
  rewrite (collect_mono r b fuel fuel' _ _ _ x E Hle). exact H.
Qed.

(** Round trip through the abacus. *)
Lemma abacus_round_trip p :
  partition p -> Z.gcd r b = 1 ->
  exists A,
    G_abacus p r b fast = OK A
    /\ forall fuel, (length (path_of p) <= fuel)%nat ->
         from_G_abacus fuel A (Some r) b = Some (OK p).
Proof.
  intros Hp Hg. eexists. split; [apply G_abacus_partition; assumption|].
  intros fuel Hfuel.
  rewrite from_G_abacus_pure by (try assumption; apply distribute_length).
  pose proof (Z.mod_pos_bound (Z.of_nat (length p)) r Hr) as Hw.
  rewrite distribute_total_ones by (try exact Hr; try reflexivity; exact Hw).
  pose proof (collect_distribute r b Hr (Z.to_nat r) _ (path_of p) eq_refl Hw
                (path_of_bits p) (path_of_last p)) as Hcol.
  rewrite path_of_sum in *.
  rewrite (collect_mono r b _ fuel _ _ _ _ Hcol Hfuel). simpl.
  rewrite decode_path_of by exact Hp. reflexivity.
Qed.

(** Charges and quotient of a partition rebuild the partition. *)
Lemma charges_quotient_round_trip p c q :
  partition p -> Z.gcd r b = 1 ->
  G_charges p r b = OK c -> G_quotient_list p r b false = OK q ->
  exists fuel0, forall fuel, (fuel0 <= fuel)%nat ->
    from_G_charges_and_quotient fuel c (Some (Sage.Tuple q)) r b = Some (OK p).
Proof.
  intros Hp Hg Hc Hq.
  pose proof (G_abacus_partition r b Hr p Hp) as HA.
  set (A := distribute r b (Z.to_nat r) (Z.of_nat (length p) mod r) (path_of p)) in *.
  assert (HlA : length A = Z.to_nat r) by apply distribute_length.
  destruct (G_charges_of_abacus r b Hr p A HA HlA) as [Hc' Hsum].
  rewrite Hc in Hc'. injection Hc' as ->.
  rewrite (G_quotient_of_abacus r b p A HA) in Hq. injection Hq as <-.
  destruct (charges_and_quotient_abacus_some r Hr (charges_of r A) (decode <$> A))
    as (nq & c_max & HF & Hmax & Hnq & Hdyck & _ & HT & _).
  - rewrite charges_of_length. exact HlA.
  - exact Hsum.
  - rewrite length_fmap. exact HlA.
  - apply Forall_fmap, Forall_forall. intros u _. apply decode_partition.
  - destruct (rebuilt_from_G_abacus r b Hr Hg p Hp c_max nq Hmax Hnq Hdyck HT)
      as [fuel0 Hfuel0].
    exists fuel0. intros fuel Hfuel. unfold from_G_charges_and_quotient.
    rewrite HF. apply Hfuel0, Hfuel.
Qed.

(** [G_core] returns a core with the charges of the partition. *)
Lemma G_core_spec p c :
  Z.gcd r b = 1 -> G_charges p r b = OK c ->
  exists fuel0 core,
    partition core
    /\ (forall fuel, (fuel0 <= fuel)%nat -> G_core fuel p r b = Some (OK core))
    /\ is_G_core core r b = OK true
    /\ G_charges core r b = OK c.
Proof.
  intros Hg Hc.
  pose proof (G_abacus_fast r b Hr p) as HA.
  set (A := distribute r b (Z.to_nat r) _ _) in HA.
  assert (HlA : length A = Z.to_nat r) by apply distribute_length.
  destruct (G_charges_of_abacus r b Hr p A HA HlA) as [Hc' Hsum].
  rewrite Hc in Hc'. injection Hc' as ->.
  assert (Hlen : length (charges_of r A) = Z.to_nat r)
    by (rewrite charges_of_length; exact HlA).
  destruct (py_max_some (charges_of r A)) as [c_max Hmax].
  { destruct (charges_of r A); [simpl in Hlen; lia | discriminate]. }
  destruct (core_terminates r b Hr Hg _ c_max Hlen Hsum Hmax) as (x & Hx & Hfuel).
  destruct (core_of_charges r b Hr _ c_max Hlen Hsum Hmax _ x Hx) as [Hquot Hch].
  pose proof (decode_partition x) as Hpc.
  eexists. exists (decode x). split; [exact Hpc|]. split.
  - intros fuel Hle. unfold G_core. rewrite Hc. apply Hfuel, Hle.
  - split.
    + apply (is_G_core_wires (decode x) r b (Z.to_nat r) Hpc Hr eq_refl). exact Hquot.
    + pose proof (G_abacus_partition r b Hr (decode x) Hpc) as HAc.
      destruct (G_charges_of_abacus r b Hr (decode x) _ HAc (distribute_length _ _ _ _ _))
        as [Hcc _].
      rewrite Hcc, Hch. reflexivity.
Qed.

(** Round trip through core and quotient. *)
Lemma core_quotient_round_trip p :
  partition p -> Z.gcd r b = 1 ->
  exists fuel0 core q,
    G_quotient_list p r b false = OK q
    /\ forall fuel, (fuel0 <= fuel)%nat ->
         G_core fuel p r b = Some (OK core)
         /\ from_G_core_and_quotient fuel core (Some (Sage.Tuple q)) r b = Some (OK p).
Proof.
  intros Hp Hg.
  pose proof (G_abacus_partition r b Hr p Hp) as HA.
  set (A := distribute r b (Z.to_nat r) (Z.of_nat (length p) mod r) (path_of p)) in *.
  assert (HlA : length A = Z.to_nat r) by apply distribute_length.
  destruct (G_charges_of_abacus r b Hr p A HA HlA) as [Hc _].
  pose proof (G_quotient_of_abacus r b p A HA) as Hq.
  destruct (G_core_spec p _ Hg Hc) as (f1 & core & Hpc & Hcore & Hiscore & Hcc).
  destruct (charges_quotient_round_trip p _ _ Hp Hg Hc Hq) as [f2 Hback].
  exists (Nat.max f1 f2), core, (decode <$> A). split; [exact Hq|].
  intros fuel Hfuel. split; [apply Hcore; lia|].
  unfold from_G_core_and_quotient. rewrite Hiscore, Hcc. apply Hback. lia.
Qed.

(** A core is rebuilt from its charges and a quotient of empty
    partitions. *)
Lemma core_empty_quotient core :
  partition core -> Z.gcd r b = 1 -> is_G_core core r b = OK true ->
  exists fuel0, forall fuel, (fuel0 <= fuel)%nat ->
    from_G_core_and_quotient fuel core (Some (Sage.Tuple (replicate (Z.to_nat r) []))) r b
    = Some (OK core).
Proof.
  intros Hp Hg Hcore.
  pose proof (G_abacus_partition r b Hr core Hp) as HA.
  set (A := distribute r b (Z.to_nat r) (Z.of_nat (length core) mod r) (path_of core)) in *.
  assert (HlA : length A = Z.to_nat r) by apply distribute_length.
  destruct (G_charges_of_abacus r b Hr core A HA HlA) as [Hc _].
  pose proof (G_quotient_of_abacus r b core A HA) as Hq.
  assert (Hempty : decode <$> A = replicate (Z.to_nat r) []).
  { apply (list_eq_same_length _ _ (Z.to_nat r));
      [apply length_replicate | rewrite length_fmap; exact HlA|].
    intros i y z Hi Hy Hz. apply lookup_replicate in Hz as [-> _].
    rewrite list_lookup_fmap in Hy.
    rewrite (list_lookup_lookup_total_lt A i) in Hy by lia. injection Hy as <-.
    apply (is_G_core_wires core r b (Z.to_nat r) Hp Hr eq_refl). exact Hcore. }
  rewrite Hempty in Hq.
  destruct (charges_quotient_round_trip core _ _ Hp Hg Hc Hq) as [f0 Hback].
  exists f0. intros fuel Hfuel.
  unfold from_G_core_and_quotient. rewrite Hcore, Hc. apply Hback, Hfuel.
Qed.

(** Termination of [from_G_abacus] on an abacus of [r] wires. *)
Lemma from_G_abacus_terminates W :
  Z.gcd r b = 1 -> length W = n ->
  forall fuel, (n * symbols W <= fuel)%nat ->
    exists p, partition p /\ from_G_abacus fuel W (Some r) b = Some (OK p).
Proof.
  intros Hg HW fuel Hfuel.
  destruct (collect_terminates r b Hr W (total_ones W mod r) Hg HW
              (Z.mod_pos_bound _ r Hr)) as [x Hx].
  exists (decode x). split; [apply decode_partition|].
  rewrite from_G_abacus_pure by assumption.
  rewrite (collect_mono r b _ fuel _ _ _ x Hx Hfuel). reflexivity.
Qed.

End RoundTrips.

(** * The claims *)

Lemma symbols_sum (W : list (list Z)) :
  Z.of_nat (symbols W) = sumZ ((fun wire => Z.of_nat (length wire)) <$> W).
Proof.
  unfold symbols. induction W as [|u W IH]; [reflexivity|].
  rewrite !fmap_cons, sumZ_cons, <- IH. simpl. lia.
Qed.

Lemma count_ones_total (W : list (list Z)) :
  Forall bits W -> sumZ (count_ones <$> W) = total_ones W.
Proof.
  unfold total_ones. induction 1 as [|u W Hu _ IH]; [reflexivity|].
  rewrite !fmap_cons, !sumZ_cons, IH, count_ones_sum by exact Hu. reflexivity.
Qed.

Lemma stepping_rule_step r b wire code :
  bit code -> stepping_rule r b wire code = step r b wire code.
Proof.
  intros [-> | ->]; unfold stepping_rule, step; simpl; f_equal; lia.
Qed.

Lemma prepend_charges_bits c_max c D : Forall bits D -> Forall bits (prepend_charges c_max c D).
Proof.
  intros HD. apply Forall_forall. intros u Hu. apply list_elem_of_In in Hu.
  unfold prepend_charges in Hu. apply elem_of_lookup_imap in Hu as (i & w & -> & Hw).
  apply bits_app. split; [apply bits_replicate; right; reflexivity|].
  exact (Forall_lookup_1 bits D i w HD Hw).
Qed.

Lemma PartitionTuple_tuple (l : list (list Z)) :
  (2 <= length l)%nat -> Sage.PartitionTuple l = Sage.Tuple l.
Proof. destruct l as [|x [|y l]]; simpl; intros H; try lia. reflexivity. Qed.

Lemma PartitionTuple_inj (l l' : list (list Z)) :
  length l = length l' -> Sage.PartitionTuple l = Sage.PartitionTuple l' -> l = l'.
Proof.
  destruct l as [|x [|y l]], l' as [|x' [|y' l']]; simpl; intros Hl H;
    try lia; congruence.
Qed.

Lemma total_ones_bits_nonneg (W : list (list Z)) : Forall bits W -> 0 <= total_ones W.
Proof.
  intros HW. rewrite <- count_ones_total by exact HW.
  induction W as [|u W IH]; [rewrite fmap_nil, sumZ_nil; lia|].
  apply Forall_cons_1 in HW as [_ HW].
  rewrite fmap_cons, sumZ_cons. specialize (IH HW). unfold count_ones at 1. lia.
Qed.

Lemma G_quotient_cast p r b swap q :
  G_quotient_list p r b swap = OK q ->
  G_quotient p r b swap = OK (Sage.PartitionTuple q).
Proof. intros H. unfold G_quotient. rewrite H. reflexivity. Qed.

Lemma G_quotient_list_wires r b p :
  0 < r ->
  exists q, G_quotient_list p r b false = OK q /\ length q = Z.to_nat r.
Proof.
  intros Hr. eexists. split; [apply (G_quotient_of_abacus r b p _ (G_abacus_fast r b Hr p))|].
  rewrite length_fmap. apply distribute_length.
Qed.

Lemma bits_alter_drop1 (W : list (list Z)) (i : nat) :
  Forall bits W -> Forall bits (alter (drop 1) i W).
Proof. intros HW. apply Forall_alter; [exact HW|]. intros u _ Hu. apply Forall_drop, Hu. Qed.

Lemma bit_hd (W : list (list Z)) (i : nat) : Forall bits W -> bit (hd 0 (W !!! i)).
Proof.
  intros HW. pose proof (bits_lookup_total W i HW) as Hw.
  destruct (W !!! i) as [|c u]; [left; reflexivity|].
  apply Forall_cons_1 in Hw. apply Hw.
Qed.

Lemma G_abacus_loop_spec r b s acc w :
  0 < r -> bits s -> length acc = Z.to_nat r -> 0 <= w < r ->
  G_abacus_loop r b s acc w = OK (spec_walk r b acc w s).
Proof.
  intros Hr Hs. revert acc w. induction Hs as [|c s Hc Hs IH]; intros acc w Hacc Hw;
    [reflexivity|].
  simpl. rewrite py_index_in_range by lia. simpl.
  unfold G_abacus_next. rewrite py_mod_nonzero by lia. simpl.
  fold (step r b w c). rewrite <- (stepping_rule_step r b w c Hc).
  apply IH; [rewrite length_alter; exact Hacc|].
  rewrite stepping_rule_step by exact Hc. apply step_range, Hr.
Qed.

Lemma G_abacus_spec r b p method :
  0 < r ->
  bits (match method with
        | fast => invert_zero_one (Sage.zero_one_sequence p)
        | slow => Sage.to_dyck_word p None
        end) ->
  G_abacus p r b method
  = OK (spec_abacus r b (match method with
                         | fast => invert_zero_one (Sage.zero_one_sequence p)
                         | slow => Sage.to_dyck_word p None
                         end)).
Proof.
  intros Hr Hs. unfold G_abacus, G_abacus_start, spec_abacus.
  set (seq := match method with fast => _ | slow => _ end) in *.
  rewrite py_mod_nonzero by lia. simpl.
  fold (count_ones seq). rewrite count_ones_sum by exact Hs.
  apply G_abacus_loop_spec;
    [exact Hr | exact Hs | apply length_replicate | apply Z.mod_pos_bound; exact Hr].
Qed.

Lemma spec_merge_walk_collect fuel r b total W w e :
  Forall bits W -> e <= total ->
  spec_merge_walk fuel r b total W w e = collect fuel r b W w (total - e).
Proof.
  revert W w e. induction fuel as [|fuel IH]; intros W w e HW He.
  - simpl. destruct (Z.eqb_spec e total), (Z.ltb_spec 0 (total - e)); try lia; reflexivity.
  - destruct (Z.eqb_spec e total) as [E | E].
    + rewrite collect_done by lia. simpl. rewrite (proj2 (Z.eqb_eq e total) E). reflexivity.
    + rewrite collect_step by lia. simpl.
      rewrite (proj2 (Z.eqb_neq e total) E).
      pose proof (bit_hd W (Z.to_nat w) HW) as Hc.
      rewrite stepping_rule_step by exact Hc.
      rewrite IH; [|apply bits_alter_drop1, HW | destruct Hc as [-> | ->]; lia].
      replace (total - (e + hd 0 (W !!! Z.to_nat w)))
        with (total - e - hd 0 (W !!! Z.to_nat w)) by lia.
      reflexivity.
Qed.

Lemma from_G_abacus_spec fuel r b W :
  0 < r -> Z.gcd r b = 1 -> length W = Z.to_nat r -> Forall bits W ->
  from_G_abacus fuel W (Some r) b
  = match spec_merge fuel r b W with
    | None => None
    | Some path_seq => Some (Sage.from_zero_one (invert_zero_one path_seq))
    end.
Proof.
  intros Hr Hg Hl HW. rewrite (from_G_abacus_pure r b Hr fuel W Hg Hl).
  unfold spec_merge.
  change (fun wire : list Z => Z.of_nat (length (filter (fun c : Z => c = 1) wire)))
    with count_ones.
  rewrite count_ones_total by exact HW.
  rewrite spec_merge_walk_collect by (try exact HW; apply total_ones_bits_nonneg, HW).
  rewrite Z.sub_0_r.
  destruct (collect fuel r b W _ _) as [x|]; [|reflexivity].
  simpl. rewrite from_zero_one_invert. reflexivity.
Qed.

(** C1. For every partition [p], every [r >= 1] and every [b] coprime to
    [r], [G_abacus] returns an abacus from which [from_G_abacus], given at
    least as much fuel as the boundary path is long, returns [p]. *)
Theorem C1_abacus_round_trip (p : list Z) (r b : Z) :
  partition p -> 1 <= r -> Z.gcd r b = 1 ->
  exists abacus,
    G_abacus p r b fast = OK abacus
    /\ forall fuel, (length (path_of p) <= fuel)%nat ->
         from_G_abacus fuel abacus (Some r) b = Some (OK p).
Proof.
  intros Hp Hr Hg. apply abacus_round_trip; [lia | exact Hp | exact Hg].
Qed.

Lemma C1_witness :
  partition [3; 1] /\ 1 <= 2 /\ Z.gcd 2 1 = 1
  /\ exists abacus,
       G_abacus [3; 1] 2 1 fast = OK abacus
       /\ forall fuel, (length (path_of [3%Z; 1%Z]) <= fuel)%nat ->
            from_G_abacus fuel abacus (Some 2) 1 = Some (OK [3; 1]).
Proof.
  assert (Hp : partition [3; 1]).
  { constructor; [lia | simpl; lia|]. constructor; [lia | simpl; lia | constructor]. }
  split; [exact Hp|]. split; [lia|]. split; [reflexivity|].
  apply (C1_abacus_round_trip [3; 1] 2 1); [exact Hp | lia | reflexivity].
Defined.

(** C2, as stated, fails for [r = 1]: [PartitionTuple] hands back its only
    component as a plain partition, so [G_quotient] of [[3; 1]] is the
    partition [[3; 1]] itself, whose length is 2, and
    [from_G_charges_and_quotient] fails the check [len(quotient) == r]. *)
Lemma C2_counterexample :
  partition [3; 1] /\ 1 <= 1 /\ Z.gcd 1 (-1) = 1
  /\ G_quotient [3; 1] 1 (-1) false = OK (Sage.Single [3; 1])
  /\ forall fuel,
       G_core fuel [3; 1] 1 (-1) = Some (OK [])
       /\ from_G_core_and_quotient fuel [] (Some (Sage.Single [3; 1])) 1 (-1)
          = Some (Err (AssertionError ShapeMismatch)).
Proof.
  split.
  { constructor; [lia | simpl; lia|]. constructor; [lia | simpl; lia | constructor]. }
  split; [lia|]. split; [reflexivity|]. split; [reflexivity|].
  intros fuel. split; [destruct fuel; reflexivity | reflexivity].
Qed.

(** C2. For every partition [p], every [r >= 2] and every [b] coprime to
    [r], [G_core] and [G_quotient] return a core and a quotient from which
    [from_G_core_and_quotient] returns [p], for all sufficiently large fuel. *)
Theorem C2_core_quotient_round_trip (p : list Z) (r b : Z) :
  partition p -> 2 <= r -> Z.gcd r b = 1 ->
  exists fuel0 core quotient,
    G_quotient p r b false = OK quotient
    /\ forall fuel, (fuel0 <= fuel)%nat ->
         G_core fuel p r b = Some (OK core)
         /\ from_G_core_and_quotient fuel core (Some quotient) r b = Some (OK p).
Proof.
  intros Hp Hr Hg.
  destruct (core_quotient_round_trip r b ltac:(lia) p Hp Hg) as (fuel0 & core & q & Hq & H).
  destruct (G_quotient_list_wires r b p ltac:(lia)) as (q' & Hq' & Hl).
  rewrite Hq in Hq'. injection Hq' as <-.
  exists fuel0, core, (Sage.Tuple q). split; [|exact H].
  rewrite (G_quotient_cast _ _ _ _ _ Hq). f_equal.
  apply PartitionTuple_tuple. lia.
Qed.

Lemma C2_witness :
  partition [3; 1] /\ 2 <= 2 /\ Z.gcd 2 1 = 1
  /\ exists fuel0 core quotient,
       G_quotient [3; 1] 2 1 false = OK quotient
       /\ forall fuel, (fuel0 <= fuel)%nat ->
            G_core fuel [3; 1] 2 1 = Some (OK core)
            /\ from_G_core_and_quotient fuel core (Some quotient) 2 1 = Some (OK [3; 1]).
Proof.
  assert (Hp : partition [3; 1]).
  { constructor; [lia | simpl; lia|]. constructor; [lia | simpl; lia | constructor]. }
  split; [exact Hp|]. split; [lia|]. split; [reflexivity|].
  apply (C2_core_quotient_round_trip [3; 1] 2 1); [exact Hp | lia | reflexivity].
Defined.

(** C3. [G_abacus] and [from_G_abacus] are the two walks of the design
    document, on one stepping rule.  For a partition [p] and [r >= 1],
    [G_abacus] returns the wires obtained by starting on wire
    [total_ones mod r] of the boundary sequence and, after each symbol
    [code], moving to wire [(wire + b*(1-code) - code) mod r]; on [r] binary
    wires and with [b] coprime to [r], [from_G_abacus] decodes the sequence
    merged by the walk that starts on wire [total_ones mod r] of the abacus
    and moves by the same rule, which is [(wire + b) mod r] after a 0 and
    [(wire - 1) mod r] after a 1. *)
Theorem C3_stepping_rule_shared (p : list Z) (method : abacus_method)
        (abacus : list (list Z)) (fuel : nat) (r b : Z) :
  partition p -> 1 <= r -> length abacus = Z.to_nat r -> Forall bits abacus ->
  G_abacus p r b method
  = OK (spec_abacus r b (match method with
                         | fast => invert_zero_one (Sage.zero_one_sequence p)
                         | slow => Sage.to_dyck_word p None
                         end))
  /\ (Z.gcd r b = 1 ->
      from_G_abacus fuel abacus (Some r) b
      = match spec_merge fuel r b abacus with
        | None => None
        | Some path_seq => Some (Sage.from_zero_one (invert_zero_one path_seq))
        end)
  /\ (forall wire code, bit code ->
        stepping_rule r b wire code = (wire + b * (1 - code) - code) mod r
        /\ G_abacus_next r b wire code = OK (stepping_rule r b wire code)
        /\ from_G_abacus_next r b wire code = OK (stepping_rule r b wire code)).
Proof.
  intros Hp Hr Hl HW. split; [|split].
  - apply G_abacus_spec; [lia|]. destruct method.
    + apply bits_invert, zero_one_sequence_bits.
    + destruct (to_dyck_word_none p Hp) as (M & -> & _). apply to_dyck_word_bits.
  - intros Hg. apply from_G_abacus_spec; [lia | exact Hg | exact Hl | exact HW].
  - intros wire code Hc.
    assert (Hnext : py_mod (wire + b * (1 - code) - code) r
                    = OK (stepping_rule r b wire code)).
    { rewrite py_mod_nonzero by lia. rewrite stepping_rule_step by exact Hc. reflexivity. }
    split; [apply stepping_rule_step, Hc|]. split; exact Hnext.
Qed.

Lemma C3_witness :
  partition [3; 1] /\ 1 <= 2 /\ length [[0%Z; 0%Z; 1%Z]; [1%Z; 0%Z]] = Z.to_nat 2
  /\ Forall bits [[0; 0; 1]; [1; 0]]
  /\ G_abacus [3; 1] 2 1 fast
     = OK (spec_abacus 2 1 (invert_zero_one (Sage.zero_one_sequence [3; 1])))
  /\ (Z.gcd 2 1 = 1 ->
      from_G_abacus 5 [[0; 0; 1]; [1; 0]] (Some 2) 1
      = match spec_merge 5 2 1 [[0; 0; 1]; [1; 0]] with
        | None => None
        | Some path_seq => Some (Sage.from_zero_one (invert_zero_one path_seq))
        end)
  /\ (forall wire code, bit code ->
        stepping_rule 2 1 wire code = (wire + 1 * (1 - code) - code) mod 2
        /\ G_abacus_next 2 1 wire code = OK (stepping_rule 2 1 wire code)
        /\ from_G_abacus_next 2 1 wire code = OK (stepping_rule 2 1 wire code)).
Proof.
  assert (Hp : partition [3; 1]).
  { constructor; [lia | simpl; lia|]. constructor; [lia | simpl; lia | constructor]. }
  assert (H0 : bit 0) by (left; reflexivity).
  assert (H1 : bit 1) by (right; reflexivity).
  assert (HA : Forall bits [[0; 0; 1]; [1; 0]]) by (repeat constructor; assumption).
  split; [exact Hp|]. split; [lia|]. split; [reflexivity|]. split; [exact HA|].
  apply (C3_stepping_rule_shared [3; 1] fast [[0; 0; 1]; [1; 0]] 5%nat 2 1);
    [exact Hp | lia | reflexivity | exact HA].
Defined.

(** C4. For every partition [p] (indeed every list of parts), every [r >= 1]
    and every [b], [G_charges] returns charges that sum to zero. *)
Theorem C4_charges_sum_zero (p : list Z) (r b : Z) :
  1 <= r -> exists charges, G_charges p r b = OK charges /\ sumZ charges = 0.
Proof.
  intros Hr. eexists. eapply G_charges_of_abacus;
    [lia | apply G_abacus_fast; lia | apply distribute_length].
Qed.

Lemma C4_witness :
  1 <= 2 /\ exists charges, G_charges [3; 1] 2 1 = OK charges /\ sumZ charges = 0.
Proof. split; [lia|]. apply (C4_charges_sum_zero [3; 1] 2 1). lia. Defined.

(** C5. [G_charges] returns, for each wire [i], the reference value
    [expected[i]] minus the number of ones on wire [i] of the abacus, where
    [expected] is the distribution of the design document: [floor(T/r)] on
    wire 0, and on wire [i >= 1] one more exactly when [i <= T mod r]. *)
Theorem C5_charges_formula (p : list Z) (r b : Z) :
  1 <= r ->
  exists abacus charges,
    G_abacus p r b fast = OK abacus
    /\ G_charges p r b = OK charges
    /\ length charges = Z.to_nat r
    /\ let T := sumZ (count_ones <$> abacus) in
       (forall i : nat, (i < Z.to_nat r)%nat ->
           charges !!! i = expected_spec T r (Z.of_nat i) - count_ones (abacus !!! i))
       /\ expected_spec T r 0 = T / r
       /\ (forall i, 1 <= i < r ->
             expected_spec T r i = T / r + (if i <=? T mod r then 1 else 0)).
Proof.
  intros Hr. assert (Hr' : 0 < r) by lia.
  pose proof (G_abacus_fast r b Hr' p) as HA.
  set (A := distribute r b (Z.to_nat r) _ _) in HA.
  assert (HlA : length A = Z.to_nat r) by apply distribute_length.
  assert (HbA : Forall bits A).
  { apply distribute_bits, bits_invert, zero_one_sequence_bits. }
  destruct (G_charges_of_abacus r b Hr' p A HA HlA) as [Hc _].
  exists A, (charges_of r A). split; [exact HA|]. split; [exact Hc|].
  split; [rewrite charges_of_length; exact HlA|].
  rewrite count_ones_total by exact HbA. cbv zeta. split; [|split].
  - intros i Hi. rewrite charges_of_lookup by lia.
    rewrite expected_at_spec by lia.
    rewrite count_ones_sum by (apply bits_lookup_total, HbA). reflexivity.
  - reflexivity.
  - intros i Hi. unfold expected_spec. destruct (Z.eqb_spec i 0); [lia|].
    destruct (i <=? _); lia.
Qed.

Lemma C5_witness :
  1 <= 2
  /\ exists abacus charges,
       G_abacus [3; 1] 2 1 fast = OK abacus
       /\ G_charges [3; 1] 2 1 = OK charges
       /\ length charges = Z.to_nat 2
       /\ let T := sumZ (count_ones <$> abacus) in
          (forall i : nat, (i < Z.to_nat 2)%nat ->
              charges !!! i = expected_spec T 2 (Z.of_nat i) - count_ones (abacus !!! i))
          /\ expected_spec T 2 0 = T / 2
          /\ (forall i, 1 <= i < 2 ->
                expected_spec T 2 i = T / 2 + (if i <=? T mod 2 then 1 else 0)).
Proof. split; [lia|]. apply (C5_charges_formula [3; 1] 2 1). lia. Defined.

(** C6. [is_G_core] returns [True] if and only if no cell [(i,j)] of [p] has
    [leg(i,j) - b*(arm(i,j)+1)] divisible by [r], with
    [arm(i,j) = p[i] - j - 1] and [leg(i,j) = conjugate(p)[j] - i - 1]. *)
Theorem C6_is_G_core_cells (p : list Z) (r b : Z) :
  r <> 0 ->
  (is_G_core p r b = OK true
   <-> forall (i : nat) (j : Z),
         cell p i j -> (leg p i j - b * (arm p i j + 1)) mod r <> 0).
Proof. apply is_G_core_cells. Qed.

Lemma C6_witness :
  2 <> 0
  /\ (is_G_core [2; 1] 2 1 = OK true
      <-> forall (i : nat) (j : Z),
            cell [2; 1] i j -> (leg [2; 1] i j - 1 * (arm [2; 1] i j + 1)) mod 2 <> 0).
Proof. split; [lia|]. apply (C6_is_G_core_cells [2; 1] 2 1). lia. Defined.

Lemma merge_loop_stuck (fuel : nat) (path_seq : list Z) :
  from_G_abacus_loop fuel 1 (-1) 1 [[]; [1]] path_seq 0 0 = None.
Proof.
  revert path_seq. induction fuel as [|fuel IH]; intros path_seq; [reflexivity|].
  simpl. apply IH.
Qed.

(** C7, as stated, fails: with one wire count [r = 1] given for an abacus of
    two wires whose only one lies on the second wire, the loop reads wire 0
    for ever, whatever the fuel. *)
Lemma C7_counterexample :
  Forall bits [[]; [1]] /\ Z.gcd 1 (-1) = 1
  /\ forall fuel, from_G_abacus fuel [[]; [1]] (Some 1) (-1) = None.
Proof.
  split; [repeat constructor; right; reflexivity|]. split; [reflexivity|].
  intros fuel. unfold from_G_abacus. simpl. rewrite merge_loop_stuck. reflexivity.
Qed.

(** C7, amended. For every abacus of exactly [r] wires, [r >= 1], and every
    [b] coprime to [r], the merge loop of [from_G_abacus] ends within
    [r] iterations per stored symbol and [from_G_abacus] returns a
    partition, with [r] given or inferred. *)
Theorem C7_merge_terminates (abacus : list (list Z)) (r b : Z) :
  1 <= r -> Z.of_nat (length abacus) = r -> Z.gcd r b = 1 ->
  forall fuel, (Z.to_nat r * symbols abacus <= fuel)%nat ->
    exists p,
      partition p
      /\ from_G_abacus fuel abacus (Some r) b = Some (OK p)
      /\ from_G_abacus fuel abacus None b = Some (OK p).
Proof.
  intros Hr Hlen Hg fuel Hfuel.
  destruct (from_G_abacus_terminates r b ltac:(lia) abacus Hg ltac:(lia) fuel Hfuel)
    as (p & Hp & Hres).
  exists p. split; [exact Hp|]. split; [exact Hres|].
  rewrite (from_G_abacus_inferred r b ltac:(lia) fuel abacus) by lia. exact Hres.
Qed.

Lemma C7_witness :
  1 <= 2 /\ Z.of_nat (length [[0%Z; 0%Z; 1%Z]; [1%Z; 0%Z]]) = 2 /\ Z.gcd 2 1 = 1
  /\ forall fuel, (Z.to_nat 2 * symbols [[0%Z; 0%Z; 1%Z]; [1%Z; 0%Z]] <= fuel)%nat ->
       exists p,
         partition p
         /\ from_G_abacus fuel [[0; 0; 1]; [1; 0]] (Some 2) 1 = Some (OK p)
         /\ from_G_abacus fuel [[0; 0; 1]; [1; 0]] None 1 = Some (OK p).
Proof.
  split; [lia|]. split; [reflexivity|]. split; [reflexivity|].
  apply (C7_merge_terminates [[0; 0; 1]; [1; 0]] 2 1); [lia | reflexivity | reflexivity].
Defined.

(** C8. When [is_G_core] answers [False] for the core argument,
    [from_G_core_and_quotient] raises the assertion error of the core check,
    whatever the quotient and the fuel. *)
Theorem C8_not_a_core (fuel : nat) (core : list Z)
        (quotient : option Sage.partition_tuple) (r b : Z) :
  is_G_core core r b = OK false ->
  from_G_core_and_quotient fuel core quotient r b = Some (Err (AssertionError NotACore)).
Proof. intros H. unfold from_G_core_and_quotient. rewrite H. reflexivity. Qed.

Lemma C8_witness :
  is_G_core [3; 1] 2 1 = OK false
  /\ from_G_core_and_quotient 10 [3; 1] (Some (Sage.Tuple [[]; []])) 2 1
     = Some (Err (AssertionError NotACore)).
Proof.
  split; [reflexivity|].
  apply (C8_not_a_core 10 [3; 1] (Some (Sage.Tuple [[]; []])) 2 1). reflexivity.
Defined.

(** C9, as stated, fails: the empty partition is a (2,0)-core, yet with the
    pair of empty partitions as quotient the call ends in the coprimality
    assertion of [from_G_abacus]. *)
Lemma C9_counterexample :
  partition [] /\ is_G_core [] 2 0 = OK true
  /\ forall fuel,
       from_G_core_and_quotient fuel [] (Some (Sage.Tuple [[]; []])) 2 0
       = Some (Err (AssertionError InvalidAction)).
Proof.
  split; [constructor|]. split; [reflexivity|]. intros fuel. reflexivity.
Qed.

(** C9, amended. For every (r,b)-core [c] with [r >= 1]: without a quotient
    [from_G_core_and_quotient] returns [c]; with the [r]-tuple of empty
    partitions it returns [c] when [b] is coprime to [r]. *)
Theorem C9_core_unchanged (core : list Z) (r b : Z) :
  partition core -> 1 <= r -> is_G_core core r b = OK true ->
  (forall fuel, from_G_core_and_quotient fuel core None r b = Some (OK core))
  /\ (Z.gcd r b = 1 ->
      exists fuel0, forall fuel, (fuel0 <= fuel)%nat ->
        from_G_core_and_quotient fuel core (Some (Sage.Tuple (replicate (Z.to_nat r) []))) r b
        = Some (OK core)).
Proof.
  intros Hp Hr Hcore. split.
  - intros fuel. unfold from_G_core_and_quotient. rewrite Hcore. reflexivity.
  - intros Hg. apply core_empty_quotient; [lia | exact Hp | exact Hg | exact Hcore].
Qed.

Lemma C9_witness :
  partition [2; 1] /\ 1 <= 2 /\ is_G_core [2; 1] 2 1 = OK true
  /\ (forall fuel, from_G_core_and_quotient fuel [2; 1] None 2 1 = Some (OK [2; 1]))
  /\ (Z.gcd 2 1 = 1 ->
      exists fuel0, forall fuel, (fuel0 <= fuel)%nat ->
        from_G_core_and_quotient fuel [2; 1] (Some (Sage.Tuple (replicate (Z.to_nat 2) []))) 2 1
        = Some (OK [2; 1])).
Proof.
  assert (Hp : partition [2; 1]).
  { constructor; [lia | simpl; lia|]. constructor; [lia | simpl; lia | constructor]. }
  split; [exact Hp|]. split; [lia|]. split; [reflexivity|].
  apply (C9_core_unchanged [2; 1] 2 1); [exact Hp | lia | reflexivity].
Defined.

(** C10. With [r >= 1] charges that sum to zero and a quotient of [r]
    partitions, the abacus built by [from_G_charges_and_quotient] (Dyck words
    of common length [2n], [n] the largest half-length, with
    [c_max - charges[i]] ones in front of wire [i]) holds [r*(2n + c_max)]
    symbols, [r*(n + c_max)] of them ones, and both output checks pass. *)
Theorem C10_abacus_counts (charges : list Z) (quotient : list (list Z)) (r : Z) :
  1 <= r -> Z.of_nat (length charges) = r -> sumZ charges = 0 ->
  Z.of_nat (length quotient) = r -> Forall partition quotient ->
  exists n c_max abacus,
    charges_and_quotient_abacus charges (Some (Sage.Tuple quotient)) r = OK (n, c_max, abacus)
    /\ py_max charges = OK c_max
    /\ (exists m,
          py_max ((fun mu => Z.of_nat (length (Sage.to_dyck_word mu None))) <$> quotient)
          = OK m /\ n = m / 2)
    /\ abacus = prepend_charges c_max charges
                  ((fun mu => Sage.to_dyck_word mu (Some n)) <$> quotient)
    /\ Forall (fun mu => Z.of_nat (length (Sage.to_dyck_word mu (Some n))) = 2 * n)
              quotient
    /\ Z.of_nat (symbols abacus) = r * (2 * n + c_max)
    /\ sumZ (count_ones <$> abacus) = r * (n + c_max).
Proof.
  intros Hr Hc Hsum Hq Hpart.
  destruct (charges_and_quotient_abacus_some r ltac:(lia) charges quotient
              ltac:(lia) Hsum ltac:(lia) Hpart)
    as (n & c_max & HF & Hmax & Hn & Hdyck & Hsyms & Hones & Hm).
  exists n, c_max. eexists. split; [exact HF|]. split; [exact Hmax|].
  split; [exact Hm|]. split; [reflexivity|]. split; [|split].
  - apply Forall_forall. intros mu Hmu.
    pose proof (proj1 (Forall_forall _ _) Hdyck mu Hmu) as [H1 H2].
    pose proof (proj1 (Forall_forall _ _) Hpart mu Hmu) as H3.
    apply to_dyck_word_length; assumption.
  - rewrite symbols_sum. exact Hsyms.
  - rewrite count_ones_total; [exact Hones|].
    apply prepend_charges_bits, Forall_fmap, Forall_forall.
    intros mu _. apply to_dyck_word_bits.
Qed.

Lemma C10_witness :
  1 <= 2 /\ Z.of_nat (length [1%Z; (-1)%Z]) = 2 /\ sumZ [1; -1] = 0
  /\ Z.of_nat (length [[2%Z]; @nil Z]) = 2 /\ Forall partition [[2]; []]
  /\ exists n c_max abacus,
       charges_and_quotient_abacus [1; -1] (Some (Sage.Tuple [[2]; []])) 2 = OK (n, c_max, abacus)
       /\ py_max [1; -1] = OK c_max
       /\ (exists m,
             py_max ((fun mu => Z.of_nat (length (Sage.to_dyck_word mu None)))
                       <$> [[2]; []])
             = OK m /\ n = m / 2)
       /\ abacus = prepend_charges c_max [1; -1]
                     ((fun mu => Sage.to_dyck_word mu (Some n)) <$> [[2]; []])
       /\ Forall (fun mu => Z.of_nat (length (Sage.to_dyck_word mu (Some n))) = 2 * n)
                 [[2]; []]
       /\ Z.of_nat (symbols abacus) = 2 * (2 * n + c_max)
       /\ sumZ (count_ones <$> abacus) = 2 * (n + c_max).
Proof.
  assert (Hq : Forall partition [[2]; []]).
  { constructor; [|constructor; constructor].
    constructor; [lia | simpl; lia | constructor]. }
  split; [lia|]. split; [reflexivity|]. split; [reflexivity|]. split; [reflexivity|].
  split; [exact Hq|].
  apply (C10_abacus_counts [1; -1] [[2]; []] 2); [lia | reflexivity | reflexivity | reflexivity | exact Hq].
Defined.

(** * Further properties *)

(** ** Analysis after synthesis *)

Lemma parts_from_app_zeros z s k : parts_from z (s ++ replicate k 0) = parts_from z s.
Proof.
  revert z. induction s as [|c s IH]; intros z; [apply parts_from_zeros|].
  rewrite <- app_comm_cons. simpl. rewrite !IH. reflexivity.
Qed.

Lemma decode_strip_zeros s : decode (strip_zeros s) = decode s.
Proof.
  destruct (strip_zeros_split s) as [k E]. rewrite E at 2.
  unfold decode. rewrite parts_from_app_zeros. reflexivity.
Qed.

Lemma decode_eqv u v : strip_zeros u = strip_zeros v -> decode u = decode v.
Proof. intros E. rewrite <- (decode_strip_zeros u), E. apply decode_strip_zeros. Qed.

Lemma total_ones_nonneg (W : list (list Z)) : Forall bits W -> 0 <= total_ones W.
Proof.
  unfold total_ones. induction 1 as [|u W Hu _ IH]; [rewrite fmap_nil, sumZ_nil; lia|].
  rewrite fmap_cons, sumZ_cons. pose proof (bits_sum_nonneg u Hu). lia.
Qed.

Lemma charges_of_imap r W :
  0 < r -> length W = Z.to_nat r ->
  imap (fun i wire => expected_north_steps (total_ones W) r !!! i - sumZ wire) W
  = charges_of r W.
Proof.
  intros Hr HW. unfold charges_of. apply imap_ext. intros i u Hu. f_equal.
  apply expected_north_steps_lookup; [exact Hr|].
  apply lookup_lt_Some in Hu. lia.
Qed.

Section Analysis.
Context (r b : Z) (Hr : 0 < r).

(** The partition merged from an abacus has, wire by wire, the quotient
    and the charges of that abacus. *)
Lemma analysis_of_collect fuel (W : list (list Z)) x :
  length W = Z.to_nat r -> Forall bits W ->
  collect fuel r b W (total_ones W mod r) (total_ones W) = Some x ->
  decode <$> distribute r b (Z.to_nat r) (Z.of_nat (length (decode x)) mod r)
               (path_of (decode x))
  = decode <$> W
  /\ charges_of r (distribute r b (Z.to_nat r) (Z.of_nat (length (decode x)) mod r)
                     (path_of (decode x)))
     = charges_of r W.
Proof.
  intros HlW HbW Hx.
  pose proof (total_ones_nonneg W HbW) as HT0.
  destruct (collect_output r b fuel W _ _ x HbW Hx) as (Hbx & Hlast & Hsx).
  specialize (Hsx HT0).
  pose proof (distribute_collect r b Hr fuel (Z.to_nat r) W _ x eq_refl HlW HbW
                (Z.mod_pos_bound _ r Hr) Hx) as Heqv.
  destruct (strip_zeros_decode x Hbx) as (l & Hl1 & Hl2).
  rewrite strip_zeros_last in Hl1 by lia.
  set (p := decode x) in *.
  set (Tp := Z.of_nat (length p)).
  assert (HTW : total_ones W = Tp + Z.of_nat l) by (unfold Tp; lia).
  set (A := distribute r b (Z.to_nat r) (Tp mod r) (path_of p)).
  assert (HA : length A = Z.to_nat r) by apply distribute_length.
  assert (HAT : total_ones A = Tp).
  { unfold A. rewrite distribute_total_ones; [apply path_of_sum | exact Hr | reflexivity|].
    apply Z.mod_pos_bound. exact Hr. }
  assert (Hwire : forall i : nat, (i < Z.to_nat r)%nat ->
             decode (A !!! i) = decode (W !!! i)
             /\ expected_at r Tp (Z.of_nat i) - sumZ (A !!! i)
                = expected_at r (total_ones W) (Z.of_nat i) - sumZ (W !!! i)).
  { intros i Hi. specialize (Heqv i). rewrite HTW, Hl1 in Heqv.
    rewrite distribute_ones in Heqv by (try exact Hr; try reflexivity; exact Hi).
    fold A in Heqv. split.
    - apply decode_eqv in Heqv. rewrite decode_ones in Heqv. exact Heqv.
    - apply (f_equal sumZ) in Heqv.
      rewrite !strip_zeros_sum, sumZ_app, sumZ_replicate in Heqv.
      pose proof (expected_at_add r Hr Tp l (Z.of_nat i) ltac:(lia)) as Hmono.
      rewrite HTW. lia. }
  split.
  - apply (list_eq_same_length _ _ (Z.to_nat r));
      [rewrite length_fmap; exact HlW | rewrite length_fmap; exact HA|].
    intros i y z Hi Hy Hz. rewrite list_lookup_fmap in Hy, Hz.
    rewrite (list_lookup_lookup_total_lt A i) in Hy by lia.
    rewrite (list_lookup_lookup_total_lt W i) in Hz by lia.
    injection Hy as <-. injection Hz as <-. apply Hwire, Hi.
  - apply (list_eq_same_length _ _ (Z.to_nat r));
      [rewrite charges_of_length; exact HlW | rewrite charges_of_length; exact HA|].
    intros i y z Hi Hy Hz. apply list_lookup_total_correct in Hy, Hz. subst y z.
    rewrite !charges_of_lookup, HAT by lia. apply Hwire, Hi.
Qed.

(** The same at the level of the source functions. *)
Lemma analysis_of_from_G_abacus fuel (W : list (list Z)) p :
  Z.gcd r b = 1 -> length W = Z.to_nat r -> Forall bits W ->
  from_G_abacus fuel W (Some r) b = Some (OK p) ->
  partition p
  /\ G_quotient_list p r b false = OK (decode <$> W)
  /\ G_charges p r b = OK (charges_of r W).
Proof.
  intros Hg HlW HbW H.
  rewrite from_G_abacus_pure in H by assumption.
  destruct (collect fuel r b W _ _) as [x|] eqn:Hx; [|discriminate].
  injection H as <-.
  destruct (analysis_of_collect fuel W x HlW HbW Hx) as [Hq Hc].
  pose proof (decode_partition x) as Hp.
  pose proof (G_abacus_partition r b Hr (decode x) Hp) as HA.
  split; [exact Hp|]. split.
  - rewrite (G_quotient_of_abacus r b _ _ HA), Hq. reflexivity.
  - destruct (G_charges_of_abacus r b Hr _ _ HA (distribute_length _ _ _ _ _)) as [Hch _].
    rewrite Hch, Hc. reflexivity.
Qed.

End Analysis.

(** ** Synthesis from charges and quotient *)

Lemma decode_dyck_word q n : partition q -> decode (Sage.to_dyck_word q (Some n)) = q.
Proof.
  intros Hq. rewrite to_dyck_word_some, decode_ones.
  unfold decode. rewrite parts_from_app_zeros. apply decode_path_of, Hq.
Qed.

Section Synthesis.
Context (r b : Z) (Hr : 0 < r).

Lemma rebuilt_abacus_data (c : list Z) (q : list (list Z)) (c_max nq : Z) :
  length c = Z.to_nat r -> length q = Z.to_nat r -> Forall partition q ->
  py_max c = OK c_max ->
  Forall (fun mu => Z.of_nat (length mu) <= nq /\ hd 0 mu <= nq) q ->
  total_ones (prepend_charges c_max c ((fun mu => Sage.to_dyck_word mu (Some nq)) <$> q))
  = r * (nq + c_max) ->
  decode <$> prepend_charges c_max c ((fun mu => Sage.to_dyck_word mu (Some nq)) <$> q) = q
  /\ charges_of r (prepend_charges c_max c ((fun mu => Sage.to_dyck_word mu (Some nq)) <$> q))
     = c.
Proof.
  intros Hc Hq Hpart Hmax Hdyck HT.
  set (D := (fun mu => Sage.to_dyck_word mu (Some nq)) <$> q) in *.
  set (F := prepend_charges c_max c D) in *.
  assert (HD : length D = Z.to_nat r) by (unfold D; rewrite length_fmap; exact Hq).
  assert (HF : length F = Z.to_nat r) by (unfold F; rewrite prepend_charges_length; exact HD).
  assert (Hwire : forall i : nat, (i < Z.to_nat r)%nat ->
             partition (q !!! i) /\ Z.of_nat (length (q !!! i)) <= nq
             /\ c !!! i <= c_max
             /\ F !!! i = replicate (Z.to_nat (c_max - c !!! i)) 1
                          ++ Sage.to_dyck_word (q !!! i) (Some nq)).
  { intros i Hi.
    assert (Hin : q !!! i ∈ q) by (apply list_elem_of_lookup_total_2; lia).
    apply list_elem_of_In in Hin.
    pose proof (proj1 (Forall_forall _ _) Hpart _ Hin) as Hp.
    pose proof (proj1 (Forall_forall _ _) Hdyck _ Hin) as [Hl _].
    split; [exact Hp|]. split; [exact Hl|]. split.
    { apply (py_max_ge c c_max _ Hmax). apply list_elem_of_lookup_total_2. lia. }
    unfold F. rewrite prepend_charges_lookup by lia. f_equal.
    apply list_lookup_total_correct. unfold D. rewrite list_lookup_fmap.
    rewrite (list_lookup_lookup_total_lt q i) by lia. reflexivity. }
  split.
  - apply (list_eq_same_length _ _ (Z.to_nat r)); [exact Hq | rewrite length_fmap; exact HF|].
    intros i y z Hi Hy Hz. rewrite list_lookup_fmap in Hy.
    rewrite (list_lookup_lookup_total_lt F i) in Hy by lia. injection Hy as <-.
    apply list_lookup_total_correct in Hz. subst z.
    destruct (Hwire i Hi) as (Hp & _ & _ & ->).
    rewrite decode_ones. apply decode_dyck_word, Hp.
  - apply (list_eq_same_length _ _ (Z.to_nat r)); [exact Hc | rewrite charges_of_length; exact HF|].
    intros i y z Hi Hy Hz. apply list_lookup_total_correct in Hy, Hz. subst y z.
    rewrite charges_of_lookup by lia. fold F in HT. rewrite HT.
    rewrite expected_at_multiple by (try exact Hr; lia).
    destruct (Hwire i Hi) as (_ & Hl & Hle & ->).
    rewrite sumZ_app, sumZ_replicate, to_dyck_word_sum by exact Hl. lia.
Qed.

(** [from_G_charges_and_quotient] returns a partition with the given charges
    and the given quotient. *)
Lemma charges_quotient_synthesis (c : list Z) (q : list (list Z)) :
  Z.gcd r b = 1 -> length c = Z.to_nat r -> sumZ c = 0 ->
  length q = Z.to_nat r -> Forall partition q ->
  exists fuel0 p,
    partition p
    /\ G_charges p r b = OK c
    /\ G_quotient_list p r b false = OK q
    /\ forall fuel, (fuel0 <= fuel)%nat ->
         from_G_charges_and_quotient fuel c (Some (Sage.Tuple q)) r b = Some (OK p).
Proof.
  intros Hg Hc Hsum Hq Hpart.
  destruct (charges_and_quotient_abacus_some r Hr c q Hc Hsum Hq Hpart)
    as (nq & c_max & HF & Hmax & Hnq & Hdyck & _ & HT & _).
  set (F := prepend_charges c_max c ((fun mu => Sage.to_dyck_word mu (Some nq)) <$> q)) in *.
  assert (HlF : length F = Z.to_nat r).
  { unfold F. rewrite prepend_charges_length, length_fmap. exact Hq. }
  assert (HbF : Forall bits F).
  { apply prepend_charges_bits, Forall_fmap, Forall_forall. intros mu _.
    apply to_dyck_word_bits. }
  destruct (from_G_abacus_terminates r b Hr F Hg HlF _ (Nat.le_refl _)) as (p & Hp & Hres).
  destruct (analysis_of_from_G_abacus r b Hr _ F p Hg HlF HbF Hres) as (_ & Hquot & Hch).
  destruct (rebuilt_abacus_data c q c_max nq Hc Hq Hpart Hmax Hdyck HT) as [Eq Ec].
  fold F in Eq, Ec. rewrite Eq in Hquot. rewrite Ec in Hch.
  exists (Z.to_nat r * symbols F)%nat, p.
  split; [exact Hp|]. split; [exact Hch|]. split; [exact Hquot|].
  intros fuel Hfuel. unfold from_G_charges_and_quotient. rewrite HF.
  exact (from_G_abacus_mono r b Hr _ fuel F _ HlF Hres Hfuel).
Qed.

Lemma from_G_charges_and_quotient_none fuel (c : list Z) :
  length c = Z.to_nat r ->
  from_G_charges_and_quotient fuel c None r b
  = from_G_charges_and_quotient fuel c (Some (Sage.Tuple (replicate (Z.to_nat r) []))) r b.
Proof.
  intros Hc. unfold from_G_charges_and_quotient.
  rewrite (charges_and_quotient_abacus_none r Hr c Hc). reflexivity.
Qed.

(** A partition is determined by its charges and its quotient. *)
Lemma charges_quotient_injective p p' :
  partition p -> partition p' -> Z.gcd r b = 1 ->
  G_charges p r b = G_charges p' r b ->
  G_quotient_list p r b false = G_quotient_list p' r b false ->
  p = p'.
Proof.
  intros Hp Hp' Hg Hc Hq.
  pose proof (G_abacus_partition r b Hr p Hp) as HA.
  destruct (G_charges_of_abacus r b Hr p _ HA (distribute_length _ _ _ _ _)) as [Ec _].
  pose proof (G_quotient_of_abacus r b p _ HA) as Eq.
  destruct (charges_quotient_round_trip r b Hr p _ _ Hp Hg Ec Eq) as [f1 H1].
  rewrite Hc in Ec. rewrite Hq in Eq.
  destruct (charges_quotient_round_trip r b Hr p' _ _ Hp' Hg Ec Eq) as [f2 H2].
  specialize (H1 (Nat.max f1 f2) ltac:(lia)). specialize (H2 (Nat.max f1 f2) ltac:(lia)).
  rewrite H1 in H2. injection H2 as ->. reflexivity.
Qed.

(** A core is its own core. *)
Lemma G_core_of_core core :
  partition core -> Z.gcd r b = 1 -> is_G_core core r b = OK true ->
  exists fuel0, forall fuel, (fuel0 <= fuel)%nat ->
    G_core fuel core r b = Some (OK core).
Proof.
  intros Hp Hg Hcore.
  destruct (core_empty_quotient r b Hr core Hp Hg Hcore) as [f0 H0].
  exists f0. intros fuel Hfuel. specialize (H0 fuel Hfuel).
  unfold from_G_core_and_quotient in H0. rewrite Hcore in H0.
  unfold G_core.
  pose proof (G_abacus_partition r b Hr core Hp) as HA.
  destruct (G_charges_of_abacus r b Hr core _ HA (distribute_length _ _ _ _ _)) as [Ec _].
  rewrite Ec in H0 |- *.
  rewrite from_G_charges_and_quotient_none; [exact H0|].
  rewrite charges_of_length. apply distribute_length.
Qed.

(** [is_G_core] holds exactly when every component of the quotient is
    empty. *)
Lemma is_G_core_quotient p :
  partition p ->
  (is_G_core p r b = OK true
   <-> G_quotient_list p r b false = OK (replicate (Z.to_nat r) [])).
Proof.
  intros Hp.
  pose proof (G_abacus_partition r b Hr p Hp) as HA.
  rewrite (G_quotient_of_abacus r b p _ HA).
  rewrite (is_G_core_wires p r b (Z.to_nat r) Hp Hr eq_refl).
  set (A := distribute r b (Z.to_nat r) _ _).
  assert (HlA : length A = Z.to_nat r) by apply distribute_length.
  split.
  - intros H. f_equal.
    apply (list_eq_same_length _ _ (Z.to_nat r));
      [apply length_replicate | rewrite length_fmap; exact HlA|].
    intros i y z Hi Hy Hz. apply lookup_replicate in Hz as [-> _].
    rewrite list_lookup_fmap, (list_lookup_lookup_total_lt A i) in Hy by lia.
    injection Hy as <-. apply H.
  - intros [= H] i. destruct (Nat.lt_ge_cases i (Z.to_nat r)) as [Hi | Hi].
    + apply (f_equal (fun l => l !! i)) in H.
      rewrite list_lookup_fmap, (list_lookup_lookup_total_lt A i) in H by lia.
      rewrite lookup_replicate_2 in H by exact Hi. injection H as H. exact H.
    + rewrite lookup_total_ge_nil by lia. reflexivity.
Qed.

(** The core of any list of parts: a core, with the charges of the list and
    an empty quotient, and its own core. *)
Lemma G_core_properties p :
  Z.gcd r b = 1 ->
  exists fuel0 core,
    partition core
    /\ is_G_core core r b = OK true
    /\ G_charges core r b = G_charges p r b
    /\ G_quotient_list core r b false = OK (replicate (Z.to_nat r) [])
    /\ forall fuel, (fuel0 <= fuel)%nat ->
         G_core fuel p r b = Some (OK core)
         /\ G_core fuel core r b = Some (OK core).
Proof.
  intros Hg.
  pose proof (G_abacus_fast r b Hr p) as HA.
  destruct (G_charges_of_abacus r b Hr p _ HA (distribute_length _ _ _ _ _)) as [Hc _].
  destruct (G_core_spec r b Hr p _ Hg Hc) as (f1 & core & Hpc & Hcore & Hiscore & Hcc).
  destruct (G_core_of_core core Hpc Hg Hiscore) as [f2 Hidem].
  exists (Nat.max f1 f2), core. split; [exact Hpc|]. split; [exact Hiscore|].
  split; [rewrite Hcc, Hc; reflexivity|]. split.
  - apply is_G_core_quotient; assumption.
  - intros fuel Hfuel. split; [apply Hcore | apply Hidem]; lia.
Qed.

(** The partition built from a core and a quotient has that core and that
    quotient. *)
Lemma core_quotient_synthesis core (q : list (list Z)) :
  Z.gcd r b = 1 -> partition core -> is_G_core core r b = OK true ->
  length q = Z.to_nat r -> Forall partition q ->
  exists fuel0 p,
    partition p
    /\ G_quotient_list p r b false = OK q
    /\ forall fuel, (fuel0 <= fuel)%nat ->
         from_G_core_and_quotient fuel core (Some (Sage.Tuple q)) r b = Some (OK p)
         /\ G_core fuel p r b = Some (OK core).
Proof.
  intros Hg Hpc Hcore Hq Hpart.
  pose proof (G_abacus_partition r b Hr core Hpc) as HA.
  destruct (G_charges_of_abacus r b Hr core _ HA (distribute_length _ _ _ _ _)) as [Ec Hsum].
  set (c := charges_of r _) in *.
  assert (Hc : length c = Z.to_nat r).
  { unfold c. rewrite charges_of_length. apply distribute_length. }
  destruct (charges_quotient_synthesis c q Hg Hc Hsum Hq Hpart)
    as (f1 & p & Hp & Hch & Hquot & Hres).
  destruct (G_core_of_core core Hpc Hg Hcore) as [f2 Hidem].
  exists (Nat.max f1 f2), p. split; [exact Hp|]. split; [exact Hquot|].
  intros fuel Hfuel. split.
  - unfold from_G_core_and_quotient. rewrite Hcore, Ec. apply Hres. lia.
  - specialize (Hidem fuel ltac:(lia)). unfold G_core in *.
    rewrite Ec in Hidem. rewrite Hch. exact Hidem.
Qed.

End Synthesis.

(** ** Colours *)

Lemma res_map_pure {A B} (f : A -> res B) (g : A -> B) (l : list A) :
  (forall x, x ∈ l -> f x = OK (g x)) -> res_map f l = OK (g <$> l).
Proof.
  induction l as [|x l IH]; intros H; [reflexivity|].
  simpl. rewrite (H x) by left. simpl.
  rewrite IH by (intros y Hy; apply H; right; exact Hy). reflexivity.
Qed.

Lemma sumZ_alter_succ (l : list Z) (i : nat) :
  (i < length l)%nat -> sumZ (alter (fun x => x + 1) i l) = sumZ l + 1.
Proof.
  revert i. induction l as [|x l IH]; intros i Hi; [simpl in Hi; lia|].
  destruct i as [|i].
  - change (alter (fun x => x + 1) 0%nat (x :: l)) with ((x + 1) :: l).
    rewrite !sumZ_cons. lia.
  - change (alter (fun x => x + 1) (S i) (x :: l))
      with (x :: alter (fun x => x + 1) i l).
    rewrite !sumZ_cons, IH by (simpl in Hi; lia). lia.
Qed.

Lemma count_row_spec (n : nat) (counts row : list Z) :
  length counts = n -> Forall (fun c => 0 <= c < Z.of_nat n) row ->
  exists counts',
    count_row counts row = OK counts'
    /\ length counts' = n
    /\ sumZ counts' = sumZ counts + Z.of_nat (length row)
    /\ forall k : nat, (k < n)%nat ->
         counts' !!! k
         = counts !!! k + Z.of_nat (length (filter (fun c => c = Z.of_nat k) row)).
Proof.
  intros Hn Hrow. revert counts Hn.
  induction Hrow as [|c row Hc Hrow IH]; intros counts Hn.
  - exists counts. repeat split; try assumption; [simpl; lia|]. intros k _. simpl. lia.
  - simpl count_row. rewrite py_index_in_range by lia. simpl.
    destruct (IH (alter (fun x => x + 1) (Z.to_nat c) counts)) as (counts' & E & Hl & Hs & Hk).
    { rewrite length_alter. exact Hn. }
    exists counts'. split; [exact E|]. split; [exact Hl|]. split.
    + rewrite Hs, sumZ_alter_succ by lia. simpl length. lia.
    + intros k Hlt. rewrite (Hk k Hlt), filter_cons.
      rewrite list_lookup_total_alter.
      destruct (decide (c = Z.of_nat k)) as [-> | Hne].
      * rewrite Nat2Z.id, decide_True by (split; [reflexivity | lia]). simpl length. lia.
      * rewrite decide_False by (intros [E' _]; lia). lia.
Qed.

Lemma count_rows_spec (n : nat) (counts : list Z) (tableau : list (list Z)) :
  length counts = n -> Forall (Forall (fun c => 0 <= c < Z.of_nat n)) tableau ->
  exists counts',
    count_rows counts tableau = OK counts'
    /\ length counts' = n
    /\ sumZ counts'
       = sumZ counts + sumZ ((fun row => Z.of_nat (length row)) <$> tableau)
    /\ forall k : nat, (k < n)%nat ->
         counts' !!! k = counts !!! k + colour_cells (Z.of_nat k) tableau.
Proof.
  intros Hn Ht. revert counts Hn.
  induction Ht as [|row tableau Hrow Ht IH]; intros counts Hn.
  - exists counts. repeat split; try assumption.
    + rewrite fmap_nil, sumZ_nil. lia.
    + intros k _. unfold colour_cells. simpl. lia.
  - simpl count_rows.
    destruct (count_row_spec n counts row Hn Hrow) as (c1 & E1 & Hl1 & Hs1 & Hk1).
    destruct (IH c1 Hl1) as (c2 & E2 & Hl2 & Hs2 & Hk2).
    exists c2. split; [rewrite E1; exact E2|]. split; [exact Hl2|]. split.
    + rewrite Hs2, Hs1, fmap_cons, sumZ_cons. lia.
    + intros k Hlt. rewrite (Hk2 k Hlt), (Hk1 k Hlt). unfold colour_cells.
      simpl mjoin. rewrite list.filter_app, length_app. lia.
Qed.

Lemma G_colour_tableau_pure (p : list Z) (r b : Z) :
  r <> 0 ->
  G_colour_tableau p r b
  = OK (imap (fun (i : nat) (pi : Z) =>
                (fun j => (Z.of_nat i + b * j) mod r) <$> py_range 0 pi) p).
Proof.
  intros Hr. unfold G_colour_tableau.
  rewrite (res_map_pure _ (fun '(i, pi) =>
             (fun j => (Z.of_nat i + b * j) mod r) <$> py_range 0 pi)).
  - rewrite fmap_imap. reflexivity.
  - intros [i pi] _. apply res_map_pure. intros j _. apply py_mod_nonzero, Hr.
Qed.

Lemma sumZ_lengths_rows (p : list Z) (F : nat -> Z -> list Z) :
  (forall i a, length (F i a) = Z.to_nat a) ->
  Forall (fun a => 0 <= a) p ->
  sumZ ((fun row => Z.of_nat (length row)) <$> imap F p) = sumZ p.
Proof.
  intros HF Hp. revert F HF.
  induction Hp as [|a p Ha Hp IH]; intros F HF; [reflexivity|].
  rewrite imap_cons, fmap_cons, !sumZ_cons, IH by (intros i x; apply HF).
  rewrite HF. lia.
Qed.

(** ** The parameter [b] modulo [r] *)

Lemma py_mod_add_multiple a m r : py_mod (a + m * r) r = py_mod a r.
Proof.
  unfold py_mod. destruct (Z.eqb_spec r 0) as [E | E]; [reflexivity|].
  rewrite Z.mod_add by exact E. reflexivity.
Qed.

Lemma G_abacus_next_shift r b k w c :
  G_abacus_next r (b + k * r) w c = G_abacus_next r b w c.
Proof.
  unfold G_abacus_next.
  replace (w + (b + k * r) * (1 - c) - c) with (w + b * (1 - c) - c + (k * (1 - c)) * r) by lia.
  apply py_mod_add_multiple.
Qed.

Lemma G_abacus_loop_shift r b k s acc w :
  G_abacus_loop r (b + k * r) s acc w = G_abacus_loop r b s acc w.
Proof.
  revert acc w. induction s as [|c s IH]; intros acc w; [reflexivity|].
  simpl. destruct (py_index acc w) as [i | e]; [|reflexivity]. simpl.
  rewrite G_abacus_next_shift.
  destruct (G_abacus_next r b w c) as [w' | e]; [|reflexivity]. simpl. apply IH.
Qed.

Lemma G_abacus_shift p r b k method :
  G_abacus p r (b + k * r) method = G_abacus p r b method.
Proof.
  unfold G_abacus. destruct (G_abacus_start r _) as [w | e]; [|reflexivity].
  simpl. apply G_abacus_loop_shift.
Qed.

Lemma from_G_abacus_loop_shift fuel r b k total W path north w :
  from_G_abacus_loop fuel r (b + k * r) total W path north w
  = from_G_abacus_loop fuel r b total W path north w.
Proof.
  revert W path north w. induction fuel as [|fuel IH]; intros W path north w;
    [reflexivity|].
  simpl. destruct (north <? total); [|reflexivity].
  destruct (py_index W w) as [i | e]; [|reflexivity].
  destruct (W !!! i) as [|c u].
  - change (from_G_abacus_next r (b + k * r) w 0) with (G_abacus_next r (b + k * r) w 0).
    rewrite G_abacus_next_shift.
    change (G_abacus_next r b w 0) with (from_G_abacus_next r b w 0).
    destruct (from_G_abacus_next r b w 0); [apply IH | reflexivity].
  - change (from_G_abacus_next r (b + k * r) w c) with (G_abacus_next r (b + k * r) w c).
    rewrite G_abacus_next_shift.
    change (G_abacus_next r b w c) with (from_G_abacus_next r b w c).
    destruct (from_G_abacus_next r b w c); [apply IH | reflexivity].
Qed.

Lemma from_G_abacus_shift fuel W r b k :
  from_G_abacus fuel W (Some r) (b + k * r) = from_G_abacus fuel W (Some r) b.
Proof.
  unfold from_G_abacus, Sage.gcd. rewrite Z.gcd_add_mult_diag_r.
  destruct (negb (Z.gcd r b =? 1)); [reflexivity|].
  destruct (from_G_abacus_start r W) as [w | e]; [|reflexivity].
  rewrite from_G_abacus_loop_shift. reflexivity.
Qed.

Lemma py_any_related {A B} (R : A -> B -> Prop) (f : A -> res bool) (g : B -> res bool)
      (l : list A) (l' : list B) :
  (forall x y, R x y -> f x = g y) -> Forall2 R l l' -> py_any f l = py_any g l'.
Proof.
  intros H. induction 1 as [|x y l l' Hxy _ IH]; [reflexivity|].
  simpl. rewrite (H x y Hxy). destruct (g y) as [[|] | e]; simpl; congruence.
Qed.

Lemma Forall2_imap_same {A B C} (R : B -> C -> Prop) (f : nat -> A -> B)
      (g : nat -> A -> C) (l : list A) :
  (forall i x, R (f i x) (g i x)) -> Forall2 R (imap f l) (imap g l).
Proof.
  revert f g. induction l as [|x l IH]; intros f g H; [constructor|].
  rewrite !imap_cons. constructor; [apply H|]. apply IH. intros i y. apply H.
Qed.

Lemma is_G_core_shift p r b k : is_G_core p r (b + k * r) = is_G_core p r b.
Proof.
  unfold is_G_core.
  rewrite (py_any_related (Forall2 (fun x y => exists m, x = y + m * r))
             _ (py_any (fun cell => m ← py_mod cell r; OK (m =? 0)))
             _ (Sage.upper_hook_lengths p (- b))); [reflexivity| |].
  - intros row row' Hrow.
    apply (py_any_related (fun x y => exists m, x = y + m * r)); [|exact Hrow].
    intros x y [m ->]. rewrite py_mod_add_multiple. reflexivity.
  - unfold Sage.upper_hook_lengths. apply Forall2_imap_same. intros i pi.
    apply Forall2_fmap, Forall_Forall2_diag, Forall_forall. intros j _.
    exists (- k * (pi - j)). lia.
Qed.

Lemma G_charges_shift p r b k : G_charges p r (b + k * r) = G_charges p r b.
Proof. unfold G_charges. rewrite G_abacus_shift. reflexivity. Qed.

Lemma G_quotient_shift p r b k swap :
  G_quotient_list p r (b + k * r) swap = G_quotient_list p r b swap.
Proof. unfold G_quotient_list. rewrite G_abacus_shift. reflexivity. Qed.

Lemma from_G_charges_and_quotient_shift fuel c q r b k :
  from_G_charges_and_quotient fuel c q r (b + k * r)
  = from_G_charges_and_quotient fuel c q r b.
Proof.
  unfold from_G_charges_and_quotient.
  destruct (charges_and_quotient_abacus c q r) as [[[n c_max] W] | e]; [|reflexivity].
  apply from_G_abacus_shift.
Qed.

(** ** Padding of the wires *)

Lemma expected_at_shift r T k i :
  0 < r -> expected_at r (T + r * k) i = expected_at r T i + k.
Proof.
  intros Hr. unfold expected_at.
  replace (T + r * k) with (T + k * r) by lia.
  rewrite Z.div_add, Z.mod_add by lia. lia.
Qed.

Lemma strip_zeros_bits u : bits u <-> bits (strip_zeros u).
Proof.
  destruct (strip_zeros_split u) as [k E]. split; intros H.
  - rewrite E in H. apply bits_app in H. apply H.
  - rewrite E. apply bits_app. split; [exact H|]. apply bits_replicate. left. reflexivity.
Qed.

Lemma strip_zeros_app_nil a z : strip_zeros z = [] -> strip_zeros (a ++ z) = strip_zeros a.
Proof.
  intros Hz. rewrite (strip_zeros_nil_zeros z Hz). apply strip_zeros_app_zeros.
Qed.

Lemma padded_total (k : nat) (W' W : list (list Z)) :
  Forall2 (fun u' u => strip_zeros u' = replicate k 1 ++ strip_zeros u) W' W ->
  total_ones W' = Z.of_nat (length W) * Z.of_nat k + total_ones W.
Proof.
  unfold total_ones. induction 1 as [|u' u W' W Hu _ IH].
  - rewrite fmap_nil, sumZ_nil. simpl. lia.
  - rewrite !fmap_cons, !sumZ_cons, IH.
    apply (f_equal sumZ) in Hu.
    rewrite sumZ_app, !strip_zeros_sum, sumZ_replicate in Hu. simpl length. lia.
Qed.

Lemma padded_bits (k : nat) (W' W : list (list Z)) :
  Forall2 (fun u' u => strip_zeros u' = replicate k 1 ++ strip_zeros u) W' W ->
  Forall bits W -> Forall bits W'.
Proof.
  induction 1 as [|u' u W' W Hu _ IH]; intros HW; [constructor|].
  apply Forall_cons_1 in HW as [Hb HW]. constructor; [|apply IH, HW].
  apply (proj2 (strip_zeros_bits u')). rewrite Hu. apply bits_app. split.
  - apply bits_replicate. right. reflexivity.
  - apply (proj1 (strip_zeros_bits u)), Hb.
Qed.

Section Padding.
Context (r b : Z) (Hr : 0 < r) (Hg : Z.gcd r b = 1).

Lemma padded_collect (k : nat) (W' W : list (list Z)) :
  length W = Z.to_nat r -> Forall bits W ->
  Forall2 (fun u' u => strip_zeros u' = replicate k 1 ++ strip_zeros u) W' W ->
  exists x,
    collect (Z.to_nat r * symbols W) r b W (total_ones W mod r) (total_ones W) = Some x
    /\ collect (Z.to_nat r * k + length x) r b W' (total_ones W' mod r) (total_ones W')
       = Some (replicate (Z.to_nat r * k) 1 ++ x).
Proof.
  intros HlW HbW Hpad.
  pose proof (Z.mod_pos_bound (total_ones W) r Hr) as Hw.
  destruct (collect_terminates r b Hr W _ Hg HlW Hw) as [x Hx].
  exists x. split; [exact Hx|].
  destruct (collect_output r b _ W _ _ x HbW Hx) as (Hbx & Hlast & Hsx).
  specialize (Hsx (total_ones_nonneg W HbW)).
  pose proof (distribute_collect r b Hr _ (Z.to_nat r) W _ x eq_refl HlW HbW Hw Hx) as Heqv.
  set (K := (Z.to_nat r * k)%nat).
  assert (HT' : total_ones W' = total_ones W + Z.of_nat K).
  { rewrite (padded_total k W' W Hpad), HlW. unfold K. lia. }
  assert (HlW' : length W' = Z.to_nat r).
  { rewrite (Forall2_length Hpad). exact HlW. }
  assert (Heqv' : wires_eqv W' (distribute r b (Z.to_nat r) (total_ones W' mod r)
                                  (replicate K 1 ++ x))).
  { intros i. destruct (decide (i < Z.to_nat r)%nat) as [Hi | Hi].
    - rewrite HT', distribute_ones by (try exact Hr; try reflexivity; exact Hi).
      replace (total_ones W + Z.of_nat K) with (total_ones W + r * Z.of_nat k)
        by (unfold K; lia).
      rewrite expected_at_shift by exact Hr.
      replace (expected_at r (total_ones W) (Z.of_nat i) + Z.of_nat k
               - expected_at r (total_ones W) (Z.of_nat i)) with (Z.of_nat k) by lia.
      rewrite Nat2Z.id, strip_zeros_ones_app, (Heqv i).
      destruct (lookup_lt_is_Some_2 W' i ltac:(lia)) as [u' Hu'].
      destruct (Forall2_lookup_l _ _ _ _ _ Hpad Hu') as (u & Hu & Huu).
      rewrite (list_lookup_total_correct _ _ _ Hu'), (list_lookup_total_correct _ _ _ Hu).
      exact Huu.
    - rewrite !lookup_total_ge_nil; [reflexivity | rewrite distribute_length; lia | lia]. }
  rewrite (collect_eqv r b _ _ _ _ _ Heqv').
  assert (Hsum : sumZ (replicate K 1 ++ x) = total_ones W').
  { rewrite sumZ_app, sumZ_replicate, Hsx. lia. }
  assert (Hb1 : bits (replicate K 1 ++ x)).
  { apply bits_app. split; [apply bits_replicate; right; reflexivity | exact Hbx]. }
  pose proof (collect_distribute r b Hr (Z.to_nat r) (total_ones W' mod r)
                (replicate K 1 ++ x) eq_refl (Z.mod_pos_bound _ r Hr) Hb1
                (last_ones_app K x Hlast)) as Hcol.
  rewrite Hsum, length_app, length_replicate in Hcol. exact Hcol.
Qed.

Lemma padded_from_G_abacus (k : nat) (W' W : list (list Z)) :
  length W = Z.to_nat r -> Forall bits W ->
  Forall2 (fun u' u => strip_zeros u' = replicate k 1 ++ strip_zeros u) W' W ->
  exists fuel0 p, forall fuel, (fuel0 <= fuel)%nat ->
    from_G_abacus fuel W (Some r) b = Some (OK p)
    /\ from_G_abacus fuel W' (Some r) b = Some (OK p).
Proof.
  intros HlW HbW Hpad.
  destruct (padded_collect k W' W HlW HbW Hpad) as (x & Hx & Hx').
  exists (Z.to_nat r * symbols W + (Z.to_nat r * k + length x))%nat, (decode x).
  intros fuel Hfuel.
  rewrite !from_G_abacus_pure;
    try assumption; [|rewrite (Forall2_length Hpad); exact HlW].
  rewrite (collect_mono r b _ fuel _ _ _ _ Hx) by lia.
  rewrite (collect_mono r b _ fuel _ _ _ _ Hx') by lia.
  simpl. rewrite decode_ones. split; reflexivity.
Qed.

(** The partition read off an abacus of [r] binary wires has the quotient
    and the charges the abacus shows. *)
Lemma from_G_abacus_analysis (W : list (list Z)) :
  length W = Z.to_nat r -> Forall bits W ->
  exists p,
    partition p
    /\ (forall fuel, (Z.to_nat r * symbols W <= fuel)%nat ->
          from_G_abacus fuel W (Some r) b = Some (OK p))
    /\ G_quotient_list p r b false = OK (decode <$> W)
    /\ G_charges p r b = OK (charges_of r W).
Proof.
  intros HlW HbW.
  destruct (from_G_abacus_terminates r b Hr W Hg HlW _ (Nat.le_refl _)) as (p & Hp & H0).
  destruct (analysis_of_from_G_abacus r b Hr _ W p Hg HlW HbW H0) as (_ & Hq & Hc).
  exists p. split; [exact Hp|]. split; [|split; assumption].
  intros fuel Hfuel. exact (from_G_abacus_mono r b Hr _ fuel W _ HlW H0 Hfuel).
Qed.

End Padding.

(** ** The slow reading of the abacus *)

Lemma symbols_alter_cons (W : list (list Z)) (c : Z) (i : nat) :
  (i < length W)%nat -> symbols (alter (cons c) i W) = S (symbols W).
Proof.
  unfold symbols. revert i. induction W as [|u W IH]; intros i Hi; [simpl in Hi; lia|].
  destruct i as [|i]; [reflexivity|].
  change (alter (cons c) (S i) (u :: W)) with (u :: alter (cons c) i W).
  rewrite !fmap_cons. simpl foldr. rewrite IH by (simpl in Hi; lia). lia.
Qed.

Lemma symbols_replicate_nil (n : nat) : symbols (replicate n []) = 0%nat.
Proof. unfold symbols. induction n as [|n IH]; [reflexivity|]. simpl. exact IH. Qed.

Section Shape.
Context (r b : Z) (Hr : 0 < r).

Lemma distribute_symbols w s :
  0 <= w < r -> symbols (distribute r b (Z.to_nat r) w s) = length s.
Proof.
  revert w. induction s as [|c s IH]; intros w Hw; [apply symbols_replicate_nil|].
  simpl. rewrite symbols_alter_cons by (rewrite distribute_length; lia).
  rewrite IH by (apply step_range; exact Hr). reflexivity.
Qed.

Lemma G_abacus_slow p :
  G_abacus p r b slow
  = OK (distribute r b (Z.to_nat r) (sumZ (Sage.to_dyck_word p None) mod r)
          (Sage.to_dyck_word p None)).
Proof.
  unfold G_abacus, G_abacus_start. rewrite py_mod_nonzero by lia. simpl.
  rewrite G_abacus_loop_pure.
  - rewrite zip_with_app_nil_l by apply distribute_length. reflexivity.
  - exact Hr.
  - apply length_replicate.
  - apply Z.mod_pos_bound. exact Hr.
Qed.

Lemma distribute_zeros_strip w (d : nat) (i : nat) :
  0 <= w < r -> strip_zeros (distribute r b (Z.to_nat r) w (replicate d 0) !!! i) = [].
Proof.
  intros Hw. apply total_ones_zero_strip.
  - apply distribute_bits, bits_replicate. left. reflexivity.
  - rewrite distribute_total_ones by (try exact Hr; try reflexivity; exact Hw).
    rewrite sumZ_replicate. lia.
Qed.

Lemma distribute_app_zeros w s (d : nat) :
  0 <= w < r ->
  wires_eqv (distribute r b (Z.to_nat r) w (s ++ replicate d 0))
            (distribute r b (Z.to_nat r) w s).
Proof.
  intros Hw i. rewrite distribute_app by (try exact Hr; try reflexivity; exact Hw).
  apply strip_zeros_app_nil, distribute_zeros_strip, adv_range; assumption.
Qed.

(** The slow abacus is the fast one with some ones in front of every path
    and zeros behind it. *)
Lemma slow_abacus p :
  partition p ->
  exists (K d : nat),
    Sage.to_dyck_word p None = (replicate K 1 ++ path_of p) ++ replicate d 0
    /\ G_abacus p r b slow
       = OK (distribute r b (Z.to_nat r) ((Z.of_nat (length p) + Z.of_nat K) mod r)
               ((replicate K 1 ++ path_of p) ++ replicate d 0)).
Proof.
  intros Hp. destruct (to_dyck_word_none p Hp) as (M & E & _ & _ & _).
  rewrite to_dyck_word_some in E.
  exists (Z.to_nat (M - Z.of_nat (length p))), (Z.to_nat (M - hd 0 p)).
  assert (E' : Sage.to_dyck_word p None
               = (replicate (Z.to_nat (M - Z.of_nat (length p))) 1 ++ path_of p)
                 ++ replicate (Z.to_nat (M - hd 0 p)) 0).
  { rewrite E, <- app_assoc. reflexivity. }
  split; [exact E'|].
  rewrite G_abacus_slow, E'. do 2 f_equal.
  rewrite !sumZ_app, !sumZ_replicate, path_of_sum. f_equal. lia.
Qed.

Lemma slow_round_trip p :
  partition p -> Z.gcd r b = 1 ->
  exists S,
    G_abacus p r b slow = OK S
    /\ length S = Z.to_nat r /\ Forall bits S
    /\ symbols S = length (Sage.to_dyck_word p None)
    /\ (forall fuel, (length (Sage.to_dyck_word p None) <= fuel)%nat ->
          from_G_abacus fuel S (Some r) b = Some (OK p))
    /\ G_quotient_list p r b false = OK (decode <$> S)
    /\ G_charges p r b = OK (charges_of r S).
Proof.
  intros Hp Hg. destruct (slow_abacus p Hp) as (K & d & E & HS).
  set (w := (Z.of_nat (length p) + Z.of_nat K) mod r) in *.
  assert (Hw : 0 <= w < r) by (apply Z.mod_pos_bound; exact Hr).
  set (s1 := replicate K 1 ++ path_of p) in *.
  set (S := distribute r b (Z.to_nat r) w (s1 ++ replicate d 0)) in *.
  assert (Hbs1 : bits s1).
  { apply bits_app. split; [apply bits_replicate; right; reflexivity | apply path_of_bits]. }
  assert (HbS : Forall bits S).
  { apply distribute_bits.
    apply bits_app. split; [exact Hbs1 | apply bits_replicate; left; reflexivity]. }
  assert (HlS : length S = Z.to_nat r) by apply distribute_length.
  assert (Hsum1 : sumZ s1 = Z.of_nat (length p) + Z.of_nat K).
  { unfold s1. rewrite sumZ_app, sumZ_replicate, path_of_sum. lia. }
  assert (HTS : total_ones S = sumZ s1).
  { unfold S. rewrite distribute_total_ones by (try exact Hr; try reflexivity; exact Hw).
    rewrite sumZ_app, sumZ_replicate. lia. }
  assert (Hback : forall fuel, (length (Sage.to_dyck_word p None) <= fuel)%nat ->
            from_G_abacus fuel S (Some r) b = Some (OK p)).
  { intros fuel Hfuel. rewrite from_G_abacus_pure by assumption.
    rewrite HTS, Hsum1. fold w.
    rewrite (collect_eqv r b _ _ _ _ _ (distribute_app_zeros w s1 d Hw)).
    pose proof (collect_distribute r b Hr (Z.to_nat r) w s1 eq_refl Hw Hbs1
                  (last_ones_app K _ (path_of_last p))) as Hcol.
    rewrite Hsum1 in Hcol.
    rewrite (collect_mono r b _ fuel _ _ _ _ Hcol).
    - simpl. unfold s1. rewrite decode_ones, decode_path_of by exact Hp. reflexivity.
    - rewrite E in Hfuel. rewrite length_app in Hfuel. lia. }
  exists S. split; [exact HS|]. split; [exact HlS|]. split; [exact HbS|].
  split; [unfold S; rewrite distribute_symbols by exact Hw; rewrite E; reflexivity|].
  split; [exact Hback|].
  pose proof (Hback _ (Nat.le_refl _)) as H0.
  destruct (analysis_of_from_G_abacus r b Hr _ S p Hg HlS HbS H0) as (_ & Hq & Hc).
  split; assumption.
Qed.

End Shape.

(** ** Rejected input *)

Lemma from_G_abacus_noncoprime fuel W r b :
  Z.gcd r b <> 1 ->
  from_G_abacus fuel W (Some r) b = Some (Err (AssertionError InvalidAction)).
Proof.
  intros Hg. unfold from_G_abacus, Sage.gcd.
  destruct (Z.eqb_spec (Z.gcd r b) 1) as [E | E]; [contradiction | reflexivity].
Qed.

Section Rejected.
Context (r b : Z) (Hr : 0 < r) (Hg : Z.gcd r b <> 1).

Lemma from_G_charges_and_quotient_noncoprime fuel (c : list Z) (q : list (list Z)) :
  length c = Z.to_nat r -> sumZ c = 0 ->
  length q = Z.to_nat r -> Forall partition q ->
  from_G_charges_and_quotient fuel c (Some (Sage.Tuple q)) r b
  = Some (Err (AssertionError InvalidAction)).
Proof.
  intros Hc Hs Hq Hpart.
  destruct (charges_and_quotient_abacus_some r Hr c q Hc Hs Hq Hpart)
    as (n & c_max & E & _).
  unfold from_G_charges_and_quotient. rewrite E.
  apply from_G_abacus_noncoprime, Hg.
Qed.

Lemma from_G_charges_noncoprime fuel (c : list Z) :
  length c = Z.to_nat r -> sumZ c = 0 ->
  from_G_charges_and_quotient fuel c None r b
  = Some (Err (AssertionError InvalidAction)).
Proof.
  intros Hc Hs. rewrite from_G_charges_and_quotient_none by assumption.
  apply from_G_charges_and_quotient_noncoprime; try assumption.
  - apply length_replicate.
  - apply Forall_forall. intros x Hx. apply list_elem_of_In, elem_of_replicate in Hx.
    destruct Hx as [-> _]. constructor.
Qed.

Lemma G_charges_shape p :
  exists c, G_charges p r b = OK c /\ length c = Z.to_nat r /\ sumZ c = 0.
Proof.
  destruct (G_charges_of_abacus r b Hr p _ (G_abacus_fast r b Hr p)
              (distribute_length _ _ _ _ _)) as [E Hs].
  eexists. split; [exact E|]. split; [|exact Hs].
  rewrite charges_of_length. apply distribute_length.
Qed.

Lemma G_core_noncoprime fuel p :
  G_core fuel p r b = Some (Err (AssertionError InvalidAction)).
Proof.
  destruct (G_charges_shape p) as (c & E & Hl & Hs).
  unfold G_core. rewrite E. apply from_G_charges_noncoprime; assumption.
Qed.

End Rejected.

Lemma invalid_charges_rejected fuel (c : list Z) (q : option Sage.partition_tuple) r b :
  Z.of_nat (length c) <> r \/ sumZ c <> 0
  \/ (exists q', q = Some q' /\ Z.of_nat (Sage.len q') <> r) ->
  exists a,
    from_G_charges_and_quotient fuel c q r b = Some (Err (AssertionError a))
    /\ (a = ShapeMismatch \/ a = ChargeImbalance).
Proof.
  intros H. unfold from_G_charges_and_quotient, charges_and_quotient_abacus.
  destruct (Z.eqb_spec (Z.of_nat (length c)) r) as [El | El];
    [|exists ShapeMismatch; split; [reflexivity | left; reflexivity]].
  destruct (Z.eqb_spec (sumZ c) 0) as [Es | Es];
    [|exists ChargeImbalance; split; [reflexivity | right; reflexivity]].
  destruct H as [H | [H | (q' & -> & H)]]; [contradiction | contradiction |].
  exists ShapeMismatch. simpl.
  destruct (Z.eqb_spec (Z.of_nat (Sage.len q')) r) as [Eq | Eq]; [contradiction|].
  split; [reflexivity | left; reflexivity].
Qed.

(** ** The order of the quotient *)

Lemma swap_lookup {A} `{Inhabited A} (q0 : A) (rest : list A) (i : nat) :
  (i < S (length rest))%nat ->
  (q0 :: reverse rest) !!! i
  = (q0 :: rest) !!! Z.to_nat ((Z.of_nat (S (length rest)) - Z.of_nat i)
                                mod Z.of_nat (S (length rest))).
Proof.
  intros Hi. destruct i as [|j].
  - rewrite Z.sub_0_r, Z_mod_same_full. reflexivity.
  - rewrite Z.mod_small by lia.
    replace (Z.to_nat (Z.of_nat (S (length rest)) - Z.of_nat (S j)))
      with (S (length rest - S j)) by lia.
    change ((q0 :: reverse rest) !!! S j) with (reverse rest !!! j).
    change ((q0 :: rest) !!! S (length rest - S j)) with (rest !!! (length rest - S j)%nat).
    rewrite !list_lookup_total_alt, reverse_lookup by lia. reflexivity.
Qed.

Lemma G_quotient_swap (r b : Z) (p : list Z) :
  0 < r ->
  exists q0 rest,
    G_quotient_list p r b false = OK (q0 :: rest)
    /\ G_quotient_list p r b true = OK (q0 :: reverse rest)
    /\ S (length rest) = Z.to_nat r.
Proof.
  intros Hr.
  pose proof (G_abacus_fast r b Hr p) as HA.
  set (A := distribute _ _ _ _ _) in HA.
  assert (Hl : length A = Z.to_nat r) by apply distribute_length.
  destruct A as [|a A'] eqn:EA; [simpl in Hl; lia|].
  exists (decode a), (decode <$> A'). split; [|split].
  - rewrite (G_quotient_of_abacus r b p _ HA). reflexivity.
  - unfold G_quotient_list. rewrite HA. simpl. rewrite res_map_decode, from_zero_one_invert.
    reflexivity.
  - rewrite length_fmap. simpl in Hl. exact Hl.
Qed.

(** ** The shape of the abacus *)

Lemma G_abacus_shape (r b : Z) (p : list Z) :
  0 < r -> partition p ->
  exists A,
    G_abacus p r b fast = OK A
    /\ length A = Z.to_nat r
    /\ Forall bits A
    /\ Z.of_nat (symbols A) = Z.of_nat (length p) + hd 0 p
    /\ total_ones A = Z.of_nat (length p).
Proof.
  intros Hr Hp.
  pose proof (Z.mod_pos_bound (Z.of_nat (length p)) r Hr) as Hw.
  eexists. split; [apply G_abacus_partition; assumption|].
  split; [apply distribute_length|].
  split; [apply distribute_bits, path_of_bits|].
  split.
  - rewrite distribute_symbols by assumption. apply path_of_length, Hp.
  - rewrite distribute_total_ones by (try exact Hr; try reflexivity; exact Hw).
    apply path_of_sum.
Qed.

(** ** [invert_zero_one] *)

Lemma invert_zero_one_involutive s : invert_zero_one (invert_zero_one s) = s.
Proof.
  unfold invert_zero_one. rewrite <- list_fmap_compose.
  rewrite <- (list_fmap_id s) at 2. apply list_fmap_ext. intros i x _. simpl. lia.
Qed.

Lemma invert_zero_one_sum s :
  sumZ (invert_zero_one s) = Z.of_nat (length s) - sumZ s.
Proof.
  unfold invert_zero_one. induction s as [|c s IH]; [reflexivity|].
  rewrite fmap_cons, !sumZ_cons, IH. simpl length. lia.
Qed.

(** ** Cores as fixed points, and their charges *)

Section Fixed.
Context (r b : Z) (Hr : 0 < r).

Lemma G_core_mono fuel fuel' p res :
  G_core fuel p r b = Some res -> (fuel <= fuel')%nat ->
  G_core fuel' p r b = Some res.
Proof.
  intros H Hle. unfold G_core in *.
  destruct (G_charges_of_abacus r b Hr p _ (G_abacus_fast r b Hr p)
              (distribute_length _ _ _ _ _)) as [E Hs].
  rewrite E in *. set (c := charges_of r _) in *.
  assert (Hl : length c = Z.to_nat r).
  { unfold c. rewrite charges_of_length. apply distribute_length. }
  destruct (py_max_some c) as [c_max Hmax].
  { intros Hnil. rewrite Hnil in Hl. simpl in Hl. lia. }
  unfold from_G_charges_and_quotient in *.
  rewrite (charges_and_quotient_abacus_core r Hr c c_max Hl Hs Hmax) in *.
  apply (from_G_abacus_mono r b Hr fuel fuel' _ res); [|exact H | exact Hle].
  rewrite prepend_charges_length. apply length_replicate.
Qed.

Lemma is_G_core_fixed p :
  partition p -> Z.gcd r b = 1 ->
  (is_G_core p r b = OK true <-> exists fuel, G_core fuel p r b = Some (OK p)).
Proof.
  intros Hp Hg. split.
  - intros Hcore. destruct (G_core_of_core r b Hr p Hp Hg Hcore) as [fuel0 H].
    exists fuel0. apply H. lia.
  - intros [fuel H].
    destruct (G_core_properties r b Hr p Hg) as (fuel0 & core & _ & Hcore & _ & _ & Hc).
    destruct (Hc (Nat.max fuel fuel0) (Nat.le_max_r _ _)) as [H1 _].
    rewrite (G_core_mono fuel _ p _ H (Nat.le_max_l _ _)) in H1.
    injection H1 as ->. exact Hcore.
Qed.

Lemma replicate_nil_partitions (n : nat) : Forall partition (replicate n ([] : list Z)).
Proof.
  apply Forall_forall. intros x Hx. apply list_elem_of_In, elem_of_replicate in Hx.
  destruct Hx as [-> _]. constructor.
Qed.

Lemma core_of_charges_unique (c : list Z) :
  Z.gcd r b = 1 -> length c = Z.to_nat r -> sumZ c = 0 ->
  exists fuel0 core,
    (partition core /\ is_G_core core r b = OK true /\ G_charges core r b = OK c)
    /\ (forall fuel, (fuel0 <= fuel)%nat ->
          from_G_charges_and_quotient fuel c None r b = Some (OK core))
    /\ forall core',
         partition core' -> is_G_core core' r b = OK true ->
         G_charges core' r b = OK c -> core' = core.
Proof.
  intros Hg Hl Hs.
  destruct (charges_quotient_synthesis r b Hr c (replicate (Z.to_nat r) []) Hg Hl Hs
              (length_replicate _ _) (replicate_nil_partitions _))
    as (fuel0 & core & Hp & Hc & Hq & Hback).
  assert (Hcore : is_G_core core r b = OK true)
    by (apply (is_G_core_quotient r b Hr core Hp); exact Hq).
  exists fuel0, core. split; [repeat split; assumption|]. split.
  - intros fuel Hfuel. rewrite from_G_charges_and_quotient_none by assumption.
    apply Hback, Hfuel.
  - intros core' Hp' Hcore' Hc'.
    apply (charges_quotient_injective r b Hr core' core Hp' Hp Hg); [congruence|].
    apply (is_G_core_quotient r b Hr core' Hp') in Hcore'. congruence.
Qed.

End Fixed.

(** ** One wire *)

Lemma distribute_one_wire b s : distribute 1 b 1 0 s = [s].
Proof.
  induction s as [|c s IH]; [reflexivity|].
  simpl. unfold step. rewrite Z.mod_1_r, IH. reflexivity.
Qed.

Lemma one_wire_abacus b p :
  partition p -> G_abacus p 1 b fast = OK [path_of p].
Proof.
  intros Hp. rewrite (G_abacus_partition 1 b ltac:(lia) p Hp).
  rewrite Z.mod_1_r. change (Z.to_nat 1) with 1%nat. rewrite distribute_one_wire.
  reflexivity.
Qed.

Lemma one_wire_quotient b p :
  partition p -> G_quotient_list p 1 b false = OK [p].
Proof.
  intros Hp. rewrite (G_quotient_of_abacus 1 b p _ (one_wire_abacus b p Hp)).
  simpl. rewrite decode_path_of by exact Hp. reflexivity.
Qed.

Lemma one_wire_charges b p :
  partition p -> G_charges p 1 b = OK [0].
Proof.
  intros Hp.
  destruct (G_charges_of_abacus 1 b ltac:(lia) p _ (one_wire_abacus b p Hp) eq_refl)
    as [E Hs].
  rewrite E. f_equal.
  destruct (charges_of 1 [path_of p]) as [|x [|y l]] eqn:El;
    try (apply (f_equal length) in El; rewrite charges_of_length in El; simpl in El; lia).
  rewrite sumZ_cons, sumZ_nil in Hs. f_equal. lia.
Qed.

Lemma one_wire_core b p :
  partition p ->
  is_G_core p 1 b = OK (bool_decide (p = []))
  /\ exists fuel0, forall fuel, (fuel0 <= fuel)%nat -> G_core fuel p 1 b = Some (OK []).
Proof.
  intros Hp. split.
  - pose proof (is_G_core_quotient 1 b ltac:(lia) p Hp) as Hiff.
    rewrite (one_wire_quotient b p Hp) in Hiff.
    rewrite (is_G_core_pure p 1 b ltac:(lia)) in *.
    destruct (negb _) eqn:E.
    + destruct Hiff as [Hiff _]. specialize (Hiff eq_refl).
      injection Hiff as ->. reflexivity.
    + destruct (decide (p = [])) as [-> | Hne]; [|rewrite bool_decide_false by exact Hne; reflexivity].
      destruct Hiff as [_ Hiff]. specialize (Hiff eq_refl). discriminate.
  - destruct (G_core_properties 1 b ltac:(lia) p (Z.gcd_1_l b))
      as (fuel0 & core & Hpc & _ & _ & Hq & Hc).
    rewrite (one_wire_quotient b core Hpc) in Hq. injection Hq as ->.
    exists fuel0. intros fuel Hfuel. apply (Hc fuel Hfuel).
Qed.

(** ** Values returned *)

Lemma from_G_abacus_returns_partition fuel W r b p :
  from_G_abacus fuel W r b = Some (OK p) -> partition p.
Proof.
  unfold from_G_abacus. intros H.
  destruct (negb _); [discriminate|].
  destruct (from_G_abacus_start _ W) as [w | e]; [|discriminate].
  destruct (from_G_abacus_loop _ _ _ _ _ _ _ _) as [[path | e] |]; try discriminate.
  rewrite from_zero_one_invert in H. injection H as <-. apply decode_partition.
Qed.

Lemma from_G_charges_and_quotient_returns_partition fuel c q r b p :
  from_G_charges_and_quotient fuel c q r b = Some (OK p) -> partition p.
Proof.
  unfold from_G_charges_and_quotient.
  destruct (charges_and_quotient_abacus c q r) as [[[n c_max] W] | e]; [|discriminate].
  apply from_G_abacus_returns_partition.
Qed.

(** * Further properties: the statements *)

Lemma partition_3_1 : partition [3; 1].
Proof. constructor; [lia | simpl; lia|]. constructor; [lia | simpl; lia | constructor]. Qed.

Lemma partition_2_1 : partition [2; 1].
Proof. constructor; [lia | simpl; lia|]. constructor; [lia | simpl; lia | constructor]. Qed.

Lemma partition_4_4_1 : partition [4; 4; 1].
Proof.
  constructor; [lia | simpl; lia|]. constructor; [lia | simpl; lia|].
  constructor; [lia | simpl; lia | constructor].
Qed.

Lemma partitions_2_nil : Forall partition [[2]; []].
Proof.
  constructor; [|constructor; constructor].
  constructor; [lia | simpl; lia | constructor].
Qed.

Lemma bits_wires_3_1 : Forall bits [[0; 0; 1]; [1; 0]].
Proof.
  assert (H0 : bit 0) by (left; reflexivity).
  assert (H1 : bit 1) by (right; reflexivity).
  repeat constructor; assumption.
Qed.

(** X1. For non-negative parts and [r >= 1], [G_colour_count] passes its
    assertion and returns [r] counts that sum to the size of the partition;
    entry [k] is the number of cells of colour [k] in the colour tableau. *)
Theorem X1_colour_count_complete (p : list Z) (r b : Z) :
  Forall (fun a => 0 <= a) p -> 1 <= r ->
  exists tableau counts,
    G_colour_tableau p r b = OK tableau
    /\ G_colour_count p r b = OK counts
    /\ length counts = Z.to_nat r
    /\ sumZ counts = sumZ p
    /\ forall k : nat, (k < Z.to_nat r)%nat ->
         counts !!! k = colour_cells (Z.of_nat k) tableau.
Proof.
  intros Hp Hr.
  pose proof (G_colour_tableau_pure p r b ltac:(lia)) as Ht.
  set (t := imap _ p) in Ht.
  assert (Hrange : Forall (Forall (fun c => 0 <= c < Z.of_nat (Z.to_nat r))) t).
  { apply Forall_forall. intros row Hrow. apply list_elem_of_In in Hrow.
    unfold t in Hrow. apply elem_of_lookup_imap in Hrow as (i & pi & -> & _).
    apply Forall_fmap, Forall_forall. intros j _. simpl.
    pose proof (Z.mod_pos_bound (Z.of_nat i + b * j) r ltac:(lia)). lia. }
  destruct (count_rows_spec (Z.to_nat r) (replicate (Z.to_nat r) 0) t
              (length_replicate _ _) Hrange) as (counts & E & Hl & Hs & Hk).
  assert (Hsum : sumZ counts = sumZ p).
  { rewrite Hs, sumZ_replicate. unfold t. rewrite sumZ_lengths_rows; [lia | | exact Hp].
    intros i a. rewrite length_fmap. unfold py_range. rewrite length_seqZ. lia. }
  exists t, counts. split; [exact Ht|]. split.
  - unfold G_colour_count. rewrite Ht. simpl. rewrite E. simpl.
    rewrite Hsum, Z.eqb_refl. reflexivity.
  - split; [exact Hl|]. split; [exact Hsum|].
    intros k Hlt. rewrite (Hk k Hlt).
    rewrite (list_lookup_total_correct _ _ 0); [lia|].
    apply lookup_replicate_2, Hlt.
Qed.

Lemma X1_witness :
  Forall (fun a => 0 <= a) [3; 1] /\ 1 <= 2
  /\ exists tableau counts,
       G_colour_tableau [3; 1] 2 1 = OK tableau
       /\ G_colour_count [3; 1] 2 1 = OK counts
       /\ length counts = Z.to_nat 2
       /\ sumZ counts = sumZ [3; 1]
       /\ forall k : nat, (k < Z.to_nat 2)%nat ->
            counts !!! k = colour_cells (Z.of_nat k) tableau.
Proof.
  assert (Hp : Forall (fun a => 0 <= a) [3; 1]) by (repeat constructor; lia).
  split; [exact Hp|]. split; [lia|].
  apply (X1_colour_count_complete [3; 1] 2 1); [exact Hp | lia].
Defined.

(** X2. For a partition [p] and [r >= 1], the abacus of [p] has [r] wires of
    zeros and ones which hold between them the [len(p) + p[0]] steps of the
    boundary path, [len(p)] of them ones. *)
Theorem X2_abacus_shape (p : list Z) (r b : Z) :
  partition p -> 1 <= r ->
  exists abacus,
    G_abacus p r b fast = OK abacus
    /\ length abacus = Z.to_nat r
    /\ Forall bits abacus
    /\ Z.of_nat (symbols abacus) = Z.of_nat (length p) + hd 0 p
    /\ total_ones abacus = Z.of_nat (length p).
Proof. intros Hp Hr. apply G_abacus_shape; [lia | exact Hp]. Qed.

Lemma X2_witness :
  partition [3; 1] /\ 1 <= 2
  /\ exists abacus,
       G_abacus [3; 1] 2 1 fast = OK abacus
       /\ length abacus = Z.to_nat 2
       /\ Forall bits abacus
       /\ Z.of_nat (symbols abacus) = Z.of_nat (length [3%Z; 1%Z]) + hd 0 [3; 1]
       /\ total_ones abacus = Z.of_nat (length [3%Z; 1%Z]).
Proof.
  split; [exact partition_3_1|]. split; [lia|].
  apply (X2_abacus_shape [3; 1] 2 1); [exact partition_3_1 | lia].
Defined.

(** X3. With [method='slow'] the abacus is read from the Dyck word: it has
    [r] binary wires holding the letters of the word, [from_G_abacus] turns
    it back into the partition, and wire by wire it shows the quotient and
    the charges that [G_quotient] and [G_charges] compute from the fast
    abacus: [G_quotient] returns the [PartitionTuple] of the partitions the
    wires decode to. *)
Theorem X3_slow_abacus (p : list Z) (r b : Z) :
  partition p -> 1 <= r -> Z.gcd r b = 1 ->
  exists abacus,
    G_abacus p r b slow = OK abacus
    /\ length abacus = Z.to_nat r /\ Forall bits abacus
    /\ symbols abacus = length (Sage.to_dyck_word p None)
    /\ (forall fuel, (length (Sage.to_dyck_word p None) <= fuel)%nat ->
          from_G_abacus fuel abacus (Some r) b = Some (OK p))
    /\ G_quotient p r b false = OK (Sage.PartitionTuple (decode <$> abacus))
    /\ G_charges p r b = OK (charges_of r abacus).
Proof.
  intros Hp Hr Hg.
  destruct (slow_round_trip r b ltac:(lia) p Hp Hg) as (S & HS & Hl & Hb & Hs & Hback & Hq & Hc).
  exists S. repeat (split; [assumption|]). split; [|exact Hc].
  apply G_quotient_cast, Hq.
Qed.

Lemma X3_witness :
  partition [3; 1] /\ 1 <= 2 /\ Z.gcd 2 1 = 1
  /\ exists abacus,
       G_abacus [3; 1] 2 1 slow = OK abacus
       /\ length abacus = Z.to_nat 2 /\ Forall bits abacus
       /\ symbols abacus = length (Sage.to_dyck_word [3; 1] None)
       /\ (forall fuel, (length (Sage.to_dyck_word [3%Z; 1%Z] None) <= fuel)%nat ->
             from_G_abacus fuel abacus (Some 2) 1 = Some (OK [3; 1]))
       /\ G_quotient [3; 1] 2 1 false = OK (Sage.PartitionTuple (decode <$> abacus))
       /\ G_charges [3; 1] 2 1 = OK (charges_of 2 abacus).
Proof.
  split; [exact partition_3_1|]. split; [lia|]. split; [reflexivity|].
  apply (X3_slow_abacus [3; 1] 2 1); [exact partition_3_1 | lia | reflexivity].
Defined.

(** X4. The parameter [b] only matters modulo [r]: replacing [b] by
    [b + k*r] changes the result of none of the functions of the module,
    errors included. *)
Theorem X4_b_modulo_r (r b k : Z) :
  (forall p method, G_abacus p r (b + k * r) method = G_abacus p r b method)
  /\ (forall p, G_charges p r (b + k * r) = G_charges p r b)
  /\ (forall p swap, G_quotient p r (b + k * r) swap = G_quotient p r b swap)
  /\ (forall p, is_G_core p r (b + k * r) = is_G_core p r b)
  /\ (forall fuel W,
         from_G_abacus fuel W (Some r) (b + k * r) = from_G_abacus fuel W (Some r) b)
  /\ (forall fuel c q,
         from_G_charges_and_quotient fuel c q r (b + k * r)
         = from_G_charges_and_quotient fuel c q r b)
  /\ (forall fuel p, G_core fuel p r (b + k * r) = G_core fuel p r b)
  /\ (forall fuel core q,
         from_G_core_and_quotient fuel core q r (b + k * r)
         = from_G_core_and_quotient fuel core q r b).
Proof.
  split; [intros; apply G_abacus_shift|].
  split; [intros; apply G_charges_shift|].
  split; [intros; unfold G_quotient; rewrite G_quotient_shift; reflexivity|].
  split; [intros; apply is_G_core_shift|].
  split; [intros; apply from_G_abacus_shift|].
  split; [intros; apply from_G_charges_and_quotient_shift|].
  split.
  - intros fuel p. unfold G_core. rewrite G_charges_shift.
    destruct (G_charges p r b); [apply from_G_charges_and_quotient_shift | reflexivity].
  - intros fuel core q. unfold from_G_core_and_quotient.
    rewrite is_G_core_shift, G_charges_shift.
    destruct (is_G_core core r b) as [[|] | e]; try reflexivity.
    destruct q; [|reflexivity].
    destruct (G_charges core r b); [apply from_G_charges_and_quotient_shift | reflexivity].
Qed.

(** X5. For coprime [r >= 1] and [b], [from_G_abacus] turns every abacus of
    [r] binary wires, within [r * symbols] steps, into a partition whose
    [G_quotient] is the [PartitionTuple] of what the wires decode to and
    whose charges are those the wires show: the partition describes the same
    quotient and charges as the abacus. *)
Theorem X5_from_G_abacus_analysis (abacus : list (list Z)) (r b : Z) :
  1 <= r -> Z.gcd r b = 1 -> length abacus = Z.to_nat r -> Forall bits abacus ->
  exists p,
    partition p
    /\ (forall fuel, (Z.to_nat r * symbols abacus <= fuel)%nat ->
          from_G_abacus fuel abacus (Some r) b = Some (OK p))
    /\ G_quotient p r b false = OK (Sage.PartitionTuple (decode <$> abacus))
    /\ G_charges p r b = OK (charges_of r abacus).
Proof.
  intros Hr Hg Hl Hb.
  destruct (from_G_abacus_analysis r b ltac:(lia) Hg abacus Hl Hb) as (p & Hp & Hback & Hq & Hc).
  exists p. split; [exact Hp|]. split; [exact Hback|]. split; [|exact Hc].
  apply G_quotient_cast, Hq.
Qed.

Lemma X5_witness :
  1 <= 2 /\ Z.gcd 2 1 = 1 /\ length [[0%Z; 0%Z; 1%Z]; [1%Z; 0%Z]] = Z.to_nat 2
  /\ Forall bits [[0; 0; 1]; [1; 0]]
  /\ exists p,
       partition p
       /\ (forall fuel, (Z.to_nat 2 * symbols [[0%Z; 0%Z; 1%Z]; [1%Z; 0%Z]] <= fuel)%nat ->
             from_G_abacus fuel [[0; 0; 1]; [1; 0]] (Some 2) 1 = Some (OK p))
       /\ G_quotient p 2 1 false = OK (Sage.PartitionTuple (decode <$> [[0; 0; 1]; [1; 0]]))
       /\ G_charges p 2 1 = OK (charges_of 2 [[0; 0; 1]; [1; 0]]).
Proof.
  split; [lia|]. split; [reflexivity|]. split; [reflexivity|].
  split; [exact bits_wires_3_1|].
  apply (X5_from_G_abacus_analysis [[0; 0; 1]; [1; 0]] 2 1);
    [lia | reflexivity | reflexivity | exact bits_wires_3_1].
Defined.

(** X6. The finite abacus of a partition is not unique, and
    [from_G_abacus] does not depend on the choice: zeros at the end of a
    wire, and the same number [k] of ones put in front of every wire, leave
    the partition it returns unchanged. *)
Theorem X6_padding (abacus abacus' : list (list Z)) (k : nat) (r b : Z) :
  1 <= r -> Z.gcd r b = 1 -> length abacus = Z.to_nat r -> Forall bits abacus ->
  Forall2 (fun wire' wire => strip_zeros wire' = replicate k 1 ++ strip_zeros wire)
          abacus' abacus ->
  exists fuel0 p, forall fuel, (fuel0 <= fuel)%nat ->
    from_G_abacus fuel abacus (Some r) b = Some (OK p)
    /\ from_G_abacus fuel abacus' (Some r) b = Some (OK p).
Proof.
  intros Hr Hg Hl Hb Hpad.
  apply (padded_from_G_abacus r b ltac:(lia) Hg k abacus' abacus Hl Hb Hpad).
Qed.

Lemma X6_witness :
  1 <= 2 /\ Z.gcd 2 1 = 1 /\ length [[0%Z; 0%Z; 1%Z]; [1%Z; 0%Z]] = Z.to_nat 2
  /\ Forall bits [[0; 0; 1]; [1; 0]]
  /\ Forall2 (fun wire' wire => strip_zeros wire' = replicate 2 1 ++ strip_zeros wire)
             [[1; 1; 0; 0; 1; 0; 0]; [1; 1; 1; 0]] [[0; 0; 1]; [1; 0]]
  /\ exists fuel0 p, forall fuel, (fuel0 <= fuel)%nat ->
       from_G_abacus fuel [[0; 0; 1]; [1; 0]] (Some 2) 1 = Some (OK p)
       /\ from_G_abacus fuel [[1; 1; 0; 0; 1; 0; 0]; [1; 1; 1; 0]] (Some 2) 1 = Some (OK p).
Proof.
  assert (Hpad : Forall2 (fun wire' wire =>
                            strip_zeros wire' = replicate 2 1 ++ strip_zeros wire)
                         [[1; 1; 0; 0; 1; 0; 0]; [1; 1; 1; 0]] [[0; 0; 1]; [1; 0]]).
  { constructor; [reflexivity|]. constructor; [reflexivity | constructor]. }
  split; [lia|]. split; [reflexivity|]. split; [reflexivity|].
  split; [exact bits_wires_3_1|]. split; [exact Hpad|].
  apply (X6_padding [[0; 0; 1]; [1; 0]] [[1; 1; 0; 0; 1; 0; 0]; [1; 1; 1; 0]] 2%nat 2 1);
    [lia | reflexivity | reflexivity | exact bits_wires_3_1 | exact Hpad].
Defined.

(** X7. For coprime [r >= 1] and [b], every list of [r] charges that sum to
    zero together with every sequence of [r] partitions is realised:
    [from_G_charges_and_quotient] returns a partition whose [G_charges] are
    the charges it was given and whose [G_quotient] is the [PartitionTuple]
    of the partitions it was given. *)
Theorem X7_charges_quotient_synthesis (charges : list Z) (quotient : list (list Z))
        (r b : Z) :
  1 <= r -> Z.gcd r b = 1 ->
  length charges = Z.to_nat r -> sumZ charges = 0 ->
  length quotient = Z.to_nat r -> Forall partition quotient ->
  exists fuel0 p,
    partition p
    /\ G_charges p r b = OK charges
    /\ G_quotient p r b false = OK (Sage.PartitionTuple quotient)
    /\ forall fuel, (fuel0 <= fuel)%nat ->
         from_G_charges_and_quotient fuel charges (Some (Sage.Tuple quotient)) r b
         = Some (OK p).
Proof.
  intros Hr Hg Hc Hs Hq Hpart.
  destruct (charges_quotient_synthesis r b ltac:(lia) charges quotient Hg Hc Hs Hq Hpart)
    as (fuel0 & p & Hp & Hch & Hqu & Hback).
  exists fuel0, p. split; [exact Hp|]. split; [exact Hch|]. split; [|exact Hback].
  apply G_quotient_cast, Hqu.
Qed.

Lemma X7_witness :
  1 <= 2 /\ Z.gcd 2 1 = 1
  /\ length [1%Z; (-1)%Z] = Z.to_nat 2 /\ sumZ [1; -1] = 0
  /\ length [[2%Z]; @nil Z] = Z.to_nat 2 /\ Forall partition [[2]; []]
  /\ exists fuel0 p,
       partition p
       /\ G_charges p 2 1 = OK [1; -1]
       /\ G_quotient p 2 1 false = OK (Sage.PartitionTuple [[2]; []])
       /\ forall fuel, (fuel0 <= fuel)%nat ->
            from_G_charges_and_quotient fuel [1; -1] (Some (Sage.Tuple [[2]; []])) 2 1
            = Some (OK p).
Proof.
  split; [lia|]. split; [reflexivity|]. split; [reflexivity|]. split; [reflexivity|].
  split; [reflexivity|]. split; [exact partitions_2_nil|].
  apply (X7_charges_quotient_synthesis [1; -1] [[2]; []] 2 1);
    [lia | reflexivity | reflexivity | reflexivity | reflexivity | exact partitions_2_nil].
Defined.

(** X8. For coprime [r >= 1] and [b], a partition is determined by its
    charges and its quotient: two partitions with the same [G_charges] and
    the same [G_quotient] are equal. *)
Theorem X8_charges_quotient_injective (p p' : list Z) (r b : Z) :
  1 <= r -> Z.gcd r b = 1 -> partition p -> partition p' ->
  G_charges p r b = G_charges p' r b ->
  G_quotient p r b false = G_quotient p' r b false ->
  p = p'.
Proof.
  intros Hr Hg Hp Hp' Hc Hq.
  apply (charges_quotient_injective r b ltac:(lia) p p' Hp Hp' Hg Hc).
  destruct (G_quotient_list_wires r b p ltac:(lia)) as (q & Eq & Hl).
  destruct (G_quotient_list_wires r b p' ltac:(lia)) as (q' & Eq' & Hl').
  rewrite (G_quotient_cast _ _ _ _ _ Eq), (G_quotient_cast _ _ _ _ _ Eq') in Hq.
  injection Hq as Hq. rewrite Eq, Eq'. f_equal.
  apply PartitionTuple_inj; [lia | exact Hq].
Qed.

Lemma X8_witness :
  1 <= 2 /\ Z.gcd 2 1 = 1 /\ partition [3; 1] /\ partition [3; 1]
  /\ G_charges [3; 1] 2 1 = G_charges [3; 1] 2 1
  /\ G_quotient [3; 1] 2 1 false = G_quotient [3; 1] 2 1 false
  /\ [3; 1] = [3; 1].
Proof.
  split; [lia|]. split; [reflexivity|]. split; [exact partition_3_1|].
  split; [exact partition_3_1|]. split; [reflexivity|]. split; [reflexivity|].
  apply (X8_charges_quotient_injective [3; 1] [3; 1] 2 1);
    [lia | reflexivity | exact partition_3_1 | exact partition_3_1
     | reflexivity | reflexivity].
Defined.

(** X9. With [r >= 1] charges, leaving the quotient out of
    [from_G_charges_and_quotient] is the same as passing the [r]-tuple of
    empty partitions, at every fuel and whatever the outcome. *)
Theorem X9_absent_quotient (fuel : nat) (charges : list Z) (r b : Z) :
  1 <= r -> length charges = Z.to_nat r ->
  from_G_charges_and_quotient fuel charges None r b
  = from_G_charges_and_quotient fuel charges (Some (Sage.Tuple (replicate (Z.to_nat r) []))) r b.
Proof.
  intros Hr Hc. apply from_G_charges_and_quotient_none; [lia | exact Hc].
Qed.

Lemma X9_witness :
  1 <= 2 /\ length [1%Z; (-1)%Z] = Z.to_nat 2
  /\ from_G_charges_and_quotient 20 [1; -1] None 2 1
     = from_G_charges_and_quotient 20 [1; -1] (Some (Sage.Tuple (replicate (Z.to_nat 2) []))) 2 1.
Proof.
  split; [lia|]. split; [reflexivity|].
  apply (X9_absent_quotient 20 [1; -1] 2 1); [lia | reflexivity].
Defined.

(** X10. For coprime [r >= 1] and [b], [G_core] returns a partition that
    is an [(r,b)]-core, has the charges of the partition it was computed
    from and the [PartitionTuple] of [r] empty partitions as [G_quotient],
    and is its own core: [G_core] is idempotent. *)
Theorem X10_core_properties (p : list Z) (r b : Z) :
  1 <= r -> Z.gcd r b = 1 ->
  exists fuel0 core,
    partition core
    /\ is_G_core core r b = OK true
    /\ G_charges core r b = G_charges p r b
    /\ G_quotient core r b false
       = OK (Sage.PartitionTuple (replicate (Z.to_nat r) []))
    /\ forall fuel, (fuel0 <= fuel)%nat ->
         G_core fuel p r b = Some (OK core)
         /\ G_core fuel core r b = Some (OK core).
Proof.
  intros Hr Hg.
  destruct (G_core_properties r b ltac:(lia) p Hg)
    as (fuel0 & core & Hp & Hcore & Hc & Hq & H).
  exists fuel0, core. repeat (split; [assumption|]). split; [|exact H].
  apply G_quotient_cast, Hq.
Qed.

Lemma X10_witness :
  1 <= 2 /\ Z.gcd 2 1 = 1
  /\ exists fuel0 core,
       partition core
       /\ is_G_core core 2 1 = OK true
       /\ G_charges core 2 1 = G_charges [3; 1] 2 1
       /\ G_quotient core 2 1 false
          = OK (Sage.PartitionTuple (replicate (Z.to_nat 2) []))
       /\ forall fuel, (fuel0 <= fuel)%nat ->
            G_core fuel [3; 1] 2 1 = Some (OK core)
            /\ G_core fuel core 2 1 = Some (OK core).
Proof.
  split; [lia|]. split; [reflexivity|].
  apply (X10_core_properties [3; 1] 2 1); [lia | reflexivity].
Defined.

(** X11. For [r >= 1], a partition passes [is_G_core] exactly when its
    [G_quotient] is the [PartitionTuple] of [r] empty partitions. *)
Theorem X11_core_iff_empty_quotient (p : list Z) (r b : Z) :
  1 <= r -> partition p ->
  (is_G_core p r b = OK true
   <-> G_quotient p r b false
       = OK (Sage.PartitionTuple (replicate (Z.to_nat r) []))).
Proof.
  intros Hr Hp. rewrite (is_G_core_quotient r b ltac:(lia) p Hp).
  destruct (G_quotient_list_wires r b p ltac:(lia)) as (q & Eq & Hl).
  rewrite (G_quotient_cast _ _ _ _ _ Eq), Eq. split.
  - intros [= ->]. reflexivity.
  - intros [= H]. f_equal. apply PartitionTuple_inj; [|exact H].
    rewrite length_replicate. exact Hl.
Qed.

Lemma X11_witness :
  1 <= 2 /\ partition [2; 1]
  /\ (is_G_core [2; 1] 2 1 = OK true
      <-> G_quotient [2; 1] 2 1 false
          = OK (Sage.PartitionTuple (replicate (Z.to_nat 2) []))).
Proof.
  split; [lia|]. split; [exact partition_2_1|].
  apply (X11_core_iff_empty_quotient [2; 1] 2 1); [lia | exact partition_2_1].
Defined.

(** X12. For coprime [r >= 1] and [b], a partition passes [is_G_core]
    exactly when it is its own [G_core]. *)
Theorem X12_core_iff_fixed (p : list Z) (r b : Z) :
  1 <= r -> Z.gcd r b = 1 -> partition p ->
  (is_G_core p r b = OK true <-> exists fuel, G_core fuel p r b = Some (OK p)).
Proof. intros Hr Hg Hp. apply is_G_core_fixed; [lia | exact Hp | exact Hg]. Qed.

Lemma X12_witness :
  1 <= 2 /\ Z.gcd 2 1 = 1 /\ partition [2; 1]
  /\ (is_G_core [2; 1] 2 1 = OK true
      <-> exists fuel, G_core fuel [2; 1] 2 1 = Some (OK [2; 1])).
Proof.
  split; [lia|]. split; [reflexivity|]. split; [exact partition_2_1|].
  apply (X12_core_iff_fixed [2; 1] 2 1); [lia | reflexivity | exact partition_2_1].
Defined.

(** X13. For coprime [r >= 1] and [b], the cores correspond to the charge
    vectors: every list of [r] integers that sum to zero is the [G_charges]
    of exactly one [(r,b)]-core, and [from_G_charges_and_quotient] without a
    quotient returns that core. *)
Theorem X13_core_of_charges (charges : list Z) (r b : Z) :
  1 <= r -> Z.gcd r b = 1 -> length charges = Z.to_nat r -> sumZ charges = 0 ->
  exists fuel0 core,
    (partition core /\ is_G_core core r b = OK true /\ G_charges core r b = OK charges)
    /\ (forall fuel, (fuel0 <= fuel)%nat ->
          from_G_charges_and_quotient fuel charges None r b = Some (OK core))
    /\ forall core',
         partition core' -> is_G_core core' r b = OK true ->
         G_charges core' r b = OK charges -> core' = core.
Proof.
  intros Hr Hg Hl Hs. apply core_of_charges_unique; [lia | exact Hg | exact Hl | exact Hs].
Qed.

Lemma X13_witness :
  1 <= 2 /\ Z.gcd 2 1 = 1 /\ length [1%Z; (-1)%Z] = Z.to_nat 2 /\ sumZ [1; -1] = 0
  /\ exists fuel0 core,
       (partition core /\ is_G_core core 2 1 = OK true /\ G_charges core 2 1 = OK [1; -1])
       /\ (forall fuel, (fuel0 <= fuel)%nat ->
             from_G_charges_and_quotient fuel [1; -1] None 2 1 = Some (OK core))
       /\ forall core',
            partition core' -> is_G_core core' 2 1 = OK true ->
            G_charges core' 2 1 = OK [1; -1] -> core' = core.
Proof.
  split; [lia|]. split; [reflexivity|]. split; [reflexivity|]. split; [reflexivity|].
  apply (X13_core_of_charges [1; -1] 2 1); [lia | reflexivity | reflexivity | reflexivity].
Defined.

(** X14. For coprime [r >= 1] and [b], an [(r,b)]-core and a sequence of
    [r] partitions are the core and the quotient of the partition that
    [from_G_core_and_quotient] builds from them: its [G_core] is the core
    and its [G_quotient] the [PartitionTuple] of the partitions. *)
Theorem X14_core_quotient_synthesis (core : list Z) (quotient : list (list Z))
        (r b : Z) :
  1 <= r -> Z.gcd r b = 1 -> partition core -> is_G_core core r b = OK true ->
  length quotient = Z.to_nat r -> Forall partition quotient ->
  exists fuel0 p,
    partition p
    /\ G_quotient p r b false = OK (Sage.PartitionTuple quotient)
    /\ forall fuel, (fuel0 <= fuel)%nat ->
         from_G_core_and_quotient fuel core (Some (Sage.Tuple quotient)) r b
         = Some (OK p)
         /\ G_core fuel p r b = Some (OK core).
Proof.
  intros Hr Hg Hp Hcore Hq Hpart.
  destruct (core_quotient_synthesis r b ltac:(lia) core quotient Hg Hp Hcore Hq Hpart)
    as (fuel0 & p & Hpp & Hqu & Hback).
  exists fuel0, p. split; [exact Hpp|]. split; [|exact Hback].
  apply G_quotient_cast, Hqu.
Qed.

Lemma X14_witness :
  1 <= 2 /\ Z.gcd 2 1 = 1 /\ partition [2; 1] /\ is_G_core [2; 1] 2 1 = OK true
  /\ length [[2%Z]; @nil Z] = Z.to_nat 2 /\ Forall partition [[2]; []]
  /\ exists fuel0 p,
       partition p
       /\ G_quotient p 2 1 false = OK (Sage.PartitionTuple [[2]; []])
       /\ forall fuel, (fuel0 <= fuel)%nat ->
            from_G_core_and_quotient fuel [2; 1] (Some (Sage.Tuple [[2]; []])) 2 1
            = Some (OK p)
            /\ G_core fuel p 2 1 = Some (OK [2; 1]).
Proof.
  split; [lia|]. split; [reflexivity|]. split; [exact partition_2_1|].
  split; [reflexivity|]. split; [reflexivity|]. split; [exact partitions_2_nil|].
  apply (X14_core_quotient_synthesis [2; 1] [[2]; []] 2 1);
    [lia | reflexivity | exact partition_2_1 | reflexivity | reflexivity
     | exact partitions_2_nil].
Defined.

(** X15. For [r >= 1], [G_quotient] with [label_swap_xy=True] never fails
    on the subscript and hands to [PartitionTuple] the same [r] partitions
    with their indices reflected: entry [i] is entry [(r - i) mod r] of the
    list handed over without the swap. *)
Theorem X15_label_swap (p : list Z) (r b : Z) :
  1 <= r ->
  exists q q',
    G_quotient p r b false = OK (Sage.PartitionTuple q)
    /\ G_quotient p r b true = OK (Sage.PartitionTuple q')
    /\ length q = Z.to_nat r /\ length q' = Z.to_nat r
    /\ forall i : nat, (i < Z.to_nat r)%nat ->
         q' !!! i = q !!! Z.to_nat ((r - Z.of_nat i) mod r).
Proof.
  intros Hr. destruct (G_quotient_swap r b p ltac:(lia)) as (q0 & rest & Hq & Hq' & Hl).
  exists (q0 :: rest), (q0 :: reverse rest).
  split; [apply G_quotient_cast, Hq|]. split; [apply G_quotient_cast, Hq'|].
  split; [exact Hl|].
  split; [simpl; rewrite length_reverse; exact Hl|].
  intros i Hi. rewrite swap_lookup by lia.
  replace (Z.of_nat (S (length rest))) with r by lia. reflexivity.
Qed.

Lemma X15_witness :
  1 <= 3
  /\ exists q q',
       G_quotient [4; 4; 1] 3 2 false = OK (Sage.PartitionTuple q)
       /\ G_quotient [4; 4; 1] 3 2 true = OK (Sage.PartitionTuple q')
       /\ length q = Z.to_nat 3 /\ length q' = Z.to_nat 3
       /\ forall i : nat, (i < Z.to_nat 3)%nat ->
            q' !!! i = q !!! Z.to_nat ((3 - Z.of_nat i) mod 3).
Proof. split; [lia|]. apply (X15_label_swap [4; 4; 1] 3 2). lia. Defined.

(** X16. With a single wire ([r = 1]) the decomposition is trivial: the
    abacus of a partition is its boundary path, [G_quotient] returns the
    partition itself (the one component, as [PartitionTuple] hands it back),
    its only charge is zero, its core is the empty partition, and the empty
    partition is the only core. *)
Theorem X16_one_wire (p : list Z) (b : Z) :
  partition p ->
  G_abacus p 1 b fast = OK [path_of p]
  /\ G_quotient p 1 b false = OK (Sage.Single p)
  /\ G_charges p 1 b = OK [0]
  /\ is_G_core p 1 b = OK (bool_decide (p = []))
  /\ exists fuel0, forall fuel, (fuel0 <= fuel)%nat -> G_core fuel p 1 b = Some (OK []).
Proof.
  intros Hp. split; [apply one_wire_abacus, Hp|].
  split; [apply (G_quotient_cast _ _ _ _ _ (one_wire_quotient b p Hp))|].
  split; [apply one_wire_charges, Hp|].
  apply one_wire_core, Hp.
Qed.

Lemma X16_witness :
  partition [3; 1]
  /\ G_abacus [3; 1] 1 (-1) fast = OK [path_of [3; 1]]
  /\ G_quotient [3; 1] 1 (-1) false = OK (Sage.Single [3; 1])
  /\ G_charges [3; 1] 1 (-1) = OK [0]
  /\ is_G_core [3; 1] 1 (-1) = OK (bool_decide ([3; 1] = @nil Z))
  /\ exists fuel0, forall fuel, (fuel0 <= fuel)%nat ->
       G_core fuel [3; 1] 1 (-1) = Some (OK []).
Proof.
  split; [exact partition_3_1|]. apply (X16_one_wire [3; 1] (-1)). exact partition_3_1.
Defined.

(** X17. With [r = 0] every function that reaches a reduction modulo [r]
    raises [ZeroDivisionError]: the abacus, the charges, the quotient and
    the core of any partition, and the colour tableau, the colour count and
    the core test of a partition that has a cell; [from_G_abacus] raises it
    when [b] is 1 or -1 and fails its coprimality assertion otherwise.  The
    empty partition passes the core test for every [r], zero included. *)
Theorem X17_zero_modulus (a : Z) (p : list Z) (b : Z) :
  0 < a ->
  G_colour_tableau (a :: p) 0 b = Err ZeroDivisionError
  /\ G_colour_count (a :: p) 0 b = Err ZeroDivisionError
  /\ is_G_core (a :: p) 0 b = Err ZeroDivisionError
  /\ (forall q method, G_abacus q 0 b method = Err ZeroDivisionError)
  /\ (forall q, G_charges q 0 b = Err ZeroDivisionError)
  /\ (forall q swap, G_quotient q 0 b swap = Err ZeroDivisionError)
  /\ (forall q fuel, G_core fuel q 0 b = Some (Err ZeroDivisionError))
  /\ (forall W fuel,
         from_G_abacus fuel W (Some 0) b
         = Some (Err (if Z.abs b =? 1 then ZeroDivisionError
                      else AssertionError InvalidAction)))
  /\ (forall r, is_G_core [] r b = OK true).
Proof.
  intros Ha.
  assert (Hrange : py_range 0 a = 0 :: py_range 1 a).
  { unfold py_range. rewrite seqZ_cons by lia. f_equal. f_equal; lia. }
  assert (Ht : G_colour_tableau (a :: p) 0 b = Err ZeroDivisionError).
  { unfold G_colour_tableau. rewrite imap_cons. simpl. rewrite Hrange. reflexivity. }
  split; [exact Ht|]. split; [unfold G_colour_count; rewrite Ht; reflexivity|].
  split.
  { unfold is_G_core, Sage.upper_hook_lengths. rewrite imap_cons. simpl py_any.
    rewrite Hrange. reflexivity. }
  split; [intros; reflexivity|]. split; [intros; reflexivity|].
  split; [intros; reflexivity|]. split; [intros; reflexivity|].
  split; [|intros; reflexivity].
  intros W fuel. unfold from_G_abacus, Sage.gcd. rewrite Z.gcd_0_l.
  destruct (Z.abs b =? 1); reflexivity.
Qed.

Lemma X17_witness :
  0 < 3
  /\ G_colour_tableau (3 :: [1]) 0 1 = Err ZeroDivisionError
  /\ G_colour_count (3 :: [1]) 0 1 = Err ZeroDivisionError
  /\ is_G_core (3 :: [1]) 0 1 = Err ZeroDivisionError
  /\ (forall q method, G_abacus q 0 1 method = Err ZeroDivisionError)
  /\ (forall q, G_charges q 0 1 = Err ZeroDivisionError)
  /\ (forall q swap, G_quotient q 0 1 swap = Err ZeroDivisionError)
  /\ (forall q fuel, G_core fuel q 0 1 = Some (Err ZeroDivisionError))
  /\ (forall W fuel,
         from_G_abacus fuel W (Some 0) 1
         = Some (Err (if Z.abs 1 =? 1 then ZeroDivisionError
                      else AssertionError InvalidAction)))
  /\ (forall r, is_G_core [] r 1 = OK true).
Proof. split; [lia|]. apply (X17_zero_modulus 3 [1] 1). lia. Defined.

(** X18. When [r >= 1] and [b] are not coprime, the functions that build a
    partition from an abacus refuse to run: [from_G_abacus] on any abacus,
    [G_core] on any partition and [from_G_charges_and_quotient] on
    well-formed charges and quotient all fail the coprimality assertion, at
    every fuel. *)
Theorem X18_not_coprime (r b : Z) :
  1 <= r -> Z.gcd r b <> 1 ->
  (forall fuel W,
      from_G_abacus fuel W (Some r) b = Some (Err (AssertionError InvalidAction)))
  /\ (forall fuel p, G_core fuel p r b = Some (Err (AssertionError InvalidAction)))
  /\ (forall fuel charges quotient,
         length charges = Z.to_nat r -> sumZ charges = 0 ->
         length quotient = Z.to_nat r -> Forall partition quotient ->
         from_G_charges_and_quotient fuel charges (Some (Sage.Tuple quotient)) r b
         = Some (Err (AssertionError InvalidAction))
         /\ from_G_charges_and_quotient fuel charges None r b
            = Some (Err (AssertionError InvalidAction))).
Proof.
  intros Hr Hg.
  split; [intros; apply from_G_abacus_noncoprime, Hg|].
  split; [intros; apply G_core_noncoprime; [lia | exact Hg]|].
  intros fuel c q Hc Hs Hq Hpart. split.
  - apply from_G_charges_and_quotient_noncoprime; try assumption. lia.
  - apply from_G_charges_noncoprime; try assumption. lia.
Qed.

Lemma X18_witness :
  1 <= 2 /\ Z.gcd 2 0 <> 1
  /\ (forall fuel W,
         from_G_abacus fuel W (Some 2) 0 = Some (Err (AssertionError InvalidAction)))
  /\ (forall fuel p, G_core fuel p 2 0 = Some (Err (AssertionError InvalidAction)))
  /\ (forall fuel charges quotient,
         length charges = Z.to_nat 2 -> sumZ charges = 0 ->
         length quotient = Z.to_nat 2 -> Forall partition quotient ->
         from_G_charges_and_quotient fuel charges (Some (Sage.Tuple quotient)) 2 0
         = Some (Err (AssertionError InvalidAction))
         /\ from_G_charges_and_quotient fuel charges None 2 0
            = Some (Err (AssertionError InvalidAction))).
Proof.
  assert (Hg : Z.gcd 2 0 <> 1) by (intros H; vm_compute in H; discriminate H).
  split; [lia|]. split; [exact Hg|].
  apply (X18_not_coprime 2 0); [lia | exact Hg].
Defined.

(** X19. [from_G_charges_and_quotient] checks its input before anything
    else: charges whose number is not [r] or whose sum is not zero, or a
    quotient whose length is not [r], end in the assertion error for the
    shape or for the charge balance at every fuel, whatever [b]; no
    partition is returned and the merge loop is never entered. *)
Theorem X19_invalid_input (fuel : nat) (charges : list Z)
        (quotient : option Sage.partition_tuple) (r b : Z) :
  Z.of_nat (length charges) <> r \/ sumZ charges <> 0
  \/ (exists q, quotient = Some q /\ Z.of_nat (Sage.len q) <> r) ->
  exists a,
    from_G_charges_and_quotient fuel charges quotient r b = Some (Err (AssertionError a))
    /\ (a = ShapeMismatch \/ a = ChargeImbalance).
Proof. apply invalid_charges_rejected. Qed.

Lemma X19_witness :
  (Z.of_nat (length [1%Z; 1%Z]) <> 2 \/ sumZ [1; 1] <> 0
   \/ (exists q, Some (Sage.Tuple [[2]; []]) = Some q
                 /\ Z.of_nat (Sage.len q) <> 2))
  /\ exists a,
       from_G_charges_and_quotient 0 [1; 1] (Some (Sage.Tuple [[2]; []])) 2 1
       = Some (Err (AssertionError a))
       /\ (a = ShapeMismatch \/ a = ChargeImbalance).
Proof.
  assert (H : Z.of_nat (length [1%Z; 1%Z]) <> 2 \/ sumZ [1; 1] <> 0
              \/ (exists q, Some (Sage.Tuple [[2]; []]) = Some q
                 /\ Z.of_nat (Sage.len q) <> 2)).
  { right. left. rewrite !sumZ_cons, sumZ_nil. lia. }
  split; [exact H|].
  apply (X19_invalid_input 0 [1; 1] (Some (Sage.Tuple [[2]; []])) 2 1). exact H.
Defined.

(** X20. Whatever the abacus, the charges, the quotient, the parameters and
    the fuel, a value returned by [from_G_abacus],
    [from_G_charges_and_quotient] or [G_core] is a partition: positive parts
    in weakly decreasing order, never any other list. *)
Theorem X20_returns_partition (fuel : nat) (r b : Z) (p : list Z) :
  (exists W ro, from_G_abacus fuel W ro b = Some (OK p))
  \/ (exists c q, from_G_charges_and_quotient fuel c q r b = Some (OK p))
  \/ (exists p0, G_core fuel p0 r b = Some (OK p)) ->
  partition p.
Proof.
  intros [(W & ro & H) | [(c & q & H) | (p0 & H)]].
  - exact (from_G_abacus_returns_partition _ _ _ _ _ H).
  - exact (from_G_charges_and_quotient_returns_partition _ _ _ _ _ _ H).
  - unfold G_core in H. destruct (G_charges p0 r b) as [c | e]; [|discriminate].
    exact (from_G_charges_and_quotient_returns_partition _ _ _ _ _ _ H).
Qed.

Lemma X20_witness :
  ((exists W ro, from_G_abacus 10 W ro 1 = Some (OK [3; 1]))
   \/ (exists c q, from_G_charges_and_quotient 10 c q 2 1 = Some (OK [3; 1]))
   \/ (exists p0, G_core 10 p0 2 1 = Some (OK [3; 1])))
  /\ partition [3; 1].
Proof.
  assert (H : (exists W ro, from_G_abacus 10 W ro 1 = Some (OK [3; 1]))
              \/ (exists c q, from_G_charges_and_quotient 10 c q 2 1 = Some (OK [3; 1]))
              \/ (exists p0, G_core 10 p0 2 1 = Some (OK [3; 1]))).
  { left. exists [[0; 0; 1]; [1; 0]], (Some 2). reflexivity. }
  split; [exact H|]. apply (X20_returns_partition 10 2 1 [3; 1]). exact H.
Defined.

(** X21. [invert_zero_one] is an involution that keeps the length, turns
    the number of ones of a binary sequence into its number of zeros, and
    keeps sequences binary. *)
Theorem X21_invert_zero_one (s : list Z) :
  invert_zero_one (invert_zero_one s) = s
  /\ length (invert_zero_one s) = length s
  /\ sumZ (invert_zero_one s) = Z.of_nat (length s) - sumZ s
  /\ (bits s -> bits (invert_zero_one s)).
Proof.
  split; [apply invert_zero_one_involutive|].
  split; [unfold invert_zero_one; apply length_fmap|].
  split; [apply invert_zero_one_sum | apply bits_invert].
Qed.
